(** * Flow-sensitive linters of the fixer repository

    A shallow embedding of three analyzers of package [linters]:

    - [http_return.go]: return immediately after [http.Error] / [http.Redirect];
    - [log_or_return_error_lint.go]: an error is logged or returned, not both;
    - [always_close.go]: a closable value is closed, handed to a closer, or
      escapes.

    The Go syntax tree is a single inductive type [Node] (Go's [ast.Node]
    interface), walked by [Inspect] as [ast.Inspect] walks it.  Go maps are
    [gmap]s; a map that is shared between callers lives in a store of map
    objects, and the order of a [range] over a map is a parameter of the
    model. *)

From Stdlib Require Import ZArith String List.
From stdpp Require Import base option list gmap fin_maps strings pretty.

Set Warnings "-register-all".
Local Open Scope string_scope.
Local Open Scope Z_scope.
Local Open Scope list_scope.

(** ** go/token and go/ast *)

(** [token.Pos] is an integer offset. *)
Definition Pos := Z.

(** [ast.Ident]: the position of the name and the name. *)
Record Ident := mkIdent { NamePos : Pos; Name : string }.

Global Instance Ident_eq_dec : EqDecision Ident.
Proof. solve_decision. Defined.

(** One entry of an [ast.FieldList]: [Names Type], as in [a, b T]. *)
Record Field (N : Type) := mkField { Names : list Ident; Type_ : N }.
Arguments mkField {N} _ _.
Arguments Names {N} _.
Arguments Type_ {N} _.

(** The node kinds the linters tell apart.  Every other kind of statement
    or expression ([BinaryExpr], [IfStmt], [IndexExpr], ...) is [Other]: the
    linters only ever walk through it to its children. *)
Inductive Node : Type :=
| IdentExpr (i : Ident)
| BasicLit (ValuePos : Pos) (Value : string)
| SelectorExpr (X : Node) (Sel : Ident)
| UnaryExpr (OpPos : Pos) (X : Node)
| StarExpr (Star : Pos) (X : Node)
| ParenExpr (Lparen : Pos) (X : Node)
| CallExpr (Fun : Node) (Args : list Node)
| KeyValueExpr (Key Value : Node)
| CompositeLit (Typ : option Node) (Lbrace : Pos) (Elts : list Node)
| TypeAssertExpr (X : Node) (Typ : option Node)
| FuncLit (Typ Body : Node)
| AssignStmt (Lhs Rhs : list Node)
| ExprStmt (X : Node)
| ReturnStmt (Return : Pos) (Results : list Node)
| Other (From : Pos) (Children : list Node).

(** [ast.FuncType], as far as the linters read it: [Results] is [nil] in Go
    when the function has no result list at all. *)
Record FuncType := mkFuncType { Results : option (list (Field Node)) }.

(** [ast.FuncDecl]: the lines of the doc comment ([Doc.List], [None] for a
    nil [Doc]), the name, the signature and the body. *)
Record FuncDecl := mkFuncDecl {
  Doc : option (list string);
  FuncName : Ident;
  FuncSig : FuncType;
  Body : Node
}.

(** A declaration of a file. *)
Inductive Decl := FuncDeclOf (funcDecl : FuncDecl) | GenDecl.

(** [ast.File], as far as the linters read it. *)
Record File := mkFile { Decls : list Decl }.

(** The children of a node, in the order [ast.Walk] visits them. *)
Definition children (n : Node) : list Node :=
  match n with
  | IdentExpr _ | BasicLit _ _ => []
  | SelectorExpr X Sel => [X; IdentExpr Sel]
  | UnaryExpr _ X | StarExpr _ X | ParenExpr _ X | ExprStmt X => [X]
  | CallExpr Fun Args => Fun :: Args
  | KeyValueExpr Key Value => [Key; Value]
  | CompositeLit Typ _ Elts => option_list Typ ++ Elts
  | TypeAssertExpr X Typ => X :: option_list Typ
  | FuncLit Typ Body => [Typ; Body]
  | AssignStmt Lhs Rhs => Lhs ++ Rhs
  | ReturnStmt _ Results => Results
  | Other _ Children => Children
  end.

(** [Node.Pos()]: the position of the first character of the node. *)
Fixpoint NodePos (n : Node) : Pos :=
  match n with
  | IdentExpr i => NamePos i
  | BasicLit p _ => p
  | SelectorExpr X _ => NodePos X
  | UnaryExpr p _ | StarExpr p _ | ParenExpr p _ => p
  | CallExpr Fun _ => NodePos Fun
  | KeyValueExpr Key _ => NodePos Key
  | CompositeLit Typ p _ => match Typ with Some t => NodePos t | None => p end
  | TypeAssertExpr X _ => NodePos X
  | FuncLit Typ _ => NodePos Typ
  | AssignStmt Lhs _ => match Lhs with l :: _ => NodePos l | [] => 0 end
  | ExprStmt X => NodePos X
  | ReturnStmt p _ => p
  | Other p _ => p
  end.

(** [ast.Inspect]: call [f] on the node; when it answers [true], walk the
    children in order.  The callbacks of the linters assign to variables
    they close over; that state is [S], threaded through the walk. *)
Section Inspect.
Context {S : Type} (f : Node -> S -> bool * S).

Fixpoint Inspect (n : Node) (s : S) : S :=
  let '(descend, s1) := f n s in
  if descend then
    let walk := fix walk (l : list Node) (s : S) : S :=
      match l with
      | [] => s
      | c :: l => walk l (Inspect c s)
      end in
    match n with
    | IdentExpr _ | BasicLit _ _ => s1
    | SelectorExpr X Sel => (f (IdentExpr Sel) (Inspect X s1)).2
    | UnaryExpr _ X | StarExpr _ X | ParenExpr _ X | ExprStmt X => Inspect X s1
    | CallExpr Fun Args => walk Args (Inspect Fun s1)
    | KeyValueExpr Key Value => Inspect Value (Inspect Key s1)
    | CompositeLit Typ _ Elts =>
        walk Elts match Typ with Some t => Inspect t s1 | None => s1 end
    | TypeAssertExpr X Typ =>
        match Typ with Some t => Inspect t (Inspect X s1) | None => Inspect X s1 end
    | FuncLit Typ Body => Inspect Body (Inspect Typ s1)
    | AssignStmt Lhs Rhs => walk Rhs (walk Lhs s1)
    | ReturnStmt _ Results => walk Results s1
    | Other _ Children => walk Children s1
    end
  else s1.

(** The walk over a list of nodes. *)
Definition InspectList (l : list Node) (s : S) : S :=
  fold_left (fun s c => Inspect c s) l s.
End Inspect.

(** The nodes of a tree, in the order [ast.Inspect] meets them when the
    callback always answers [true]. *)
Fixpoint subnodes (n : Node) : list Node :=
  n :: match n with
       | IdentExpr _ | BasicLit _ _ => []
       | SelectorExpr X Sel => subnodes X ++ [IdentExpr Sel]
       | UnaryExpr _ X | StarExpr _ X | ParenExpr _ X | ExprStmt X => subnodes X
       | CallExpr Fun Args => subnodes Fun ++ flat_map subnodes Args
       | KeyValueExpr Key Value => subnodes Key ++ subnodes Value
       | CompositeLit Typ _ Elts =>
           match Typ with Some t => subnodes t | None => [] end
           ++ flat_map subnodes Elts
       | TypeAssertExpr X Typ =>
           subnodes X ++ match Typ with Some t => subnodes t | None => [] end
       | FuncLit Typ Body => subnodes Typ ++ subnodes Body
       | AssignStmt Lhs Rhs => flat_map subnodes Lhs ++ flat_map subnodes Rhs
       | ReturnStmt _ Results => flat_map subnodes Results
       | Other _ Children => flat_map subnodes Children
       end.

(** ** go/types, go/analysis and go/cfg *)

(** A [types.Object] is used by the linters as an identity (a map key) and
    as a handle to ask the type checker about; it is a name here, and the
    answers of the type checker are fields of [Pass]. *)
Definition Object := positive.

(** [analysis.Diagnostic], as [pass.Reportf] fills it. *)
Record Diagnostic := mkDiagnostic { DiagPos : Pos; Message : string }.

Global Instance Diagnostic_eq_dec : EqDecision Diagnostic.
Proof. solve_decision. Defined.

(** What an [analysis.Pass] answers:
    - [ObjectOf] is [pass.TypesInfo.ObjectOf];
    - [TypeString o] is [o.Type().String()];
    - [QualifiedName o] is the qualified name of [o], as [net/http.Error];
    - [RecvTypeString o] is [None] when the type of [o] is no signature or
      has no receiver, and the printed type of the receiver otherwise;
    - [CloseMethod o] is what [types.LookupFieldOrMethod] finds under the
      name [Close] in the type of [o], printed by [String()];
    - [PositionString p] is [pass.Fset.File(p).Position(p)] printed. *)
Record Pass := mkPass {
  ObjectOf : Ident -> option Object;
  TypeString : Object -> string;
  QualifiedName : Object -> string;
  RecvTypeString : Object -> option string;
  CloseMethod : Object -> option string;
  PositionString : Pos -> string
}.

(** [cfg.Block].  A [*cfg.Block] is its position in [CFG.Blocks], which is
    what its [Index] field holds; [Succs] lists the positions of the
    successors. *)
Record Block := mkBlock { Live : bool; Nodes : list Node; Succs : list nat }.

Record CFG := mkCFG { Blocks : list Block }.

(** The order in which [range] yields the entries of a map is chosen by the
    Go runtime: any enumeration of the entries. *)
Definition RangeOrder (V : Type) := gmap Object V -> list (Object * V).

Definition ValidOrder {V} (order : RangeOrder V) : Prop :=
  forall m, order m ≡ₚ map_to_list m.

(** ** Package lintutil *)

Module lintutil.

(** Modelled from the spec: [lintutil.ObjectFor], whose package is not
    among the sources.  The spec has [resolveSymbol(identifierOccurrence)
    -> Symbol | none]: an identifier resolves to its object, a selector
    [x.f] (a qualified identifier, a field or a method) to the object of
    [f], and no other expression names an object.  The callers agree:
    [_referencedVar] of not_found_lint.go asks [ObjectFor] first and strips
    [&] and [[i]] itself when the answer is nil, and always_close.go unwraps
    with [_identFromExpression] before it asks.  A nil identifier (the
    [None] here) has no object. *)
Definition ObjectFor (pass : Pass) (e : option Node) : option Object :=
  match e with
  | Some (IdentExpr i) => ObjectOf pass i
  | Some (SelectorExpr _ Sel) => ObjectOf pass Sel
  | _ => None
  end.

(** Modelled from the spec: [lintutil.NameOf], the qualified name of an
    object, and the empty string for no object. *)
Definition NameOf (pass : Pass) (o : option Object) : string :=
  match o with
  | Some o => QualifiedName pass o
  | None => ""
  end.

End lintutil.

(** ** http_return.go *)

Module HttpReturn.
Import lintutil.

(** [_mustReturnAfter]: the last identifier of the node, function
    literals apart, that names [http.Error] or [http.Redirect]. *)
Definition _mustReturnAfter (pass : Pass) (node : Node) : option Ident :=
  Inspect (fun node ret =>
    match node with
    | IdentExpr i =>
        let name := NameOf pass (ObjectFor pass (Some node)) in
        (false,
         if String.eqb name "net/http.Error" || String.eqb name "net/http.Redirect"
         then Some i else ret)
    | FuncLit _ _ => (false, ret)
    | _ => (true, ret)
    end) node None.

(** The closure [report] of [_checkCFG]. *)
Definition report (pass : Pass) (mustReturn : Ident) : Diagnostic :=
  {| DiagPos := NamePos mustReturn;
     Message := "HTTP handlers (or helpers) must return after calling "
                +:+ NameOf pass (ObjectFor pass (Some (IdentExpr mustReturn))) |}.

Definition isReturnStmt (node : Node) : bool :=
  match node with ReturnStmt _ _ => true | _ => false end.

(** One turn of the loop over [block.Nodes]: the variable [mustReturn]
    and the diagnostics reported so far. *)
Definition checkNode (pass : Pass)
    (st : option Ident * list Diagnostic) (node : Node)
    : option Ident * list Diagnostic :=
  let '(mustReturn, out) := st in
  let out :=
    match mustReturn with
    | Some m => if negb (isReturnStmt node) then out ++ [report pass m] else out
    | None => out
    end in
  (_mustReturnAfter pass node, out).

(** The body of the loop over [cfg.Blocks]. *)
Definition checkBlock (pass : Pass) (out : list Diagnostic) (block : Block)
    : list Diagnostic :=
  if negb (Live block) then out
  else
    let '(mustReturn, out) := fold_left (checkNode pass) (Nodes block) (None, out) in
    match mustReturn with
    | Some m =>
        if (0 <? length (Succs block))%nat then out ++ [report pass m] else out
    | None => out
    end.

Definition _checkCFG (pass : Pass) (cfg : CFG) : list Diagnostic :=
  fold_left (checkBlock pass) (Blocks cfg) [].

End HttpReturn.

(** ** log_lint.go *)

Module LogLint.

Definition receiverIsLogger (pass : Pass) (funcObj : option Object) : bool :=
  match funcObj with
  | None => false
  | Some o =>
      match RecvTypeString pass o with
      | None => false
      | Some recvType =>
          String.eqb recvType "github.com/Khan/webapp/pkg/lib/log.Logger"
      end
  end.

End LogLint.

(** ** log_or_return_error_lint.go *)

Module LogOrReturn.
Import lintutil LogLint.

(** [_errorResultIndices]. *)
Definition _errorResultIndices (sig : FuncType) : list nat :=
  match Results sig with
  | None => []
  | Some fields =>
      (fold_left (fun '(indices, i) result =>
         let isError :=
           match Type_ result with
           | IdentExpr ident => String.eqb (Name ident) "error"
           | _ => false
           end in
         if isError then (indices ++ [i], i)
         else if (0 <? length (Names result))%nat
              then (indices, (i + length (Names result))%nat)
              else (indices, S i)) fields ([], 0%nat)).1
  end.

(** The claim's words, for comparison with [_errorResultIndices]: the
    positions of the results declared with the type [error], where a field
    with names stands for as many results as it has names and a field
    without names for one. *)
Definition errorResultPositions (sig : FuncType) : list nat :=
  match Results sig with
  | None => []
  | Some fields =>
      (fold_left (fun '(positions, i) result =>
         let width :=
           if (0 <? length (Names result))%nat
           then length (Names result) else 1%nat in
         let isError :=
           match Type_ result with
           | IdentExpr ident => String.eqb (Name ident) "error"
           | _ => false
           end in
         (positions ++ (if isError then seq i width else []), (i + width)%nat))
         fields ([], 0%nat)).1
  end.

(** The value of [loggedErrors]: a Go map from the error variables assigned
    so far to [nil] (not logged yet) or to the position of the logging. *)
Abbreviation LoggedErrors := (gmap Object (option Pos)).

(** What the callback of [ast.Inspect] works on: the contents of the map
    [loggedErrors] and the diagnostics of the pass. *)
Abbreviation NodeState := (LoggedErrors * list Diagnostic)%type.

Definition loggedTwice (pass : Pass) (ident : Ident) (alreadyLogged : Pos)
    : Diagnostic :=
  {| DiagPos := NamePos ident;
     Message := "This error is being logged twice. Previously logged at "
                +:+ PositionString pass alreadyLogged
                +:+ ". See https://khanacademy.atlassian.net/l/c/j9btTeyW" |}.

Definition loggedAndReturned (pass : Pass) (ident : Ident) (logPos : Pos)
    : Diagnostic :=
  {| DiagPos := NamePos ident;
     Message := "Errors may be logged or returned, but not both. Previously "
                +:+ "logged at " +:+ PositionString pass logPos
                +:+ ". See https://khanacademy.atlassian.net/l/c/j9btTeyW" |}.

(** [case *ast.AssignStmt], one target. *)
Definition assigned (pass : Pass) (loggedErrors : LoggedErrors) (target : Node)
    : LoggedErrors :=
  match target with
  | IdentExpr ident =>
      match ObjectFor pass (Some target) with
      | Some errorObj =>
          if String.eqb (TypeString pass errorObj) "error"
          then <[errorObj := None]> loggedErrors
          else loggedErrors
      | None => loggedErrors
      end
  | _ => loggedErrors
  end.

(** The callback of the walk inside a call of the logger. *)
Definition logged (pass : Pass) (node : Node) (st : NodeState)
    : bool * NodeState :=
  match node with
  | IdentExpr ident =>
      match ObjectFor pass (Some node) with
      | None => (true, st)
      | Some errorObj =>
          match st.1 !! errorObj with
          | None => (true, st)
          | Some (Some alreadyLogged) =>
              (true, (st.1, st.2 ++ [loggedTwice pass ident alreadyLogged]))
          | Some None =>
              (true, (<[errorObj := Some (NamePos ident)]> st.1, st.2))
          end
      end
  | _ => (true, st)
  end.

(** The callback of the walk inside a returned value. *)
Definition returned (pass : Pass) (node : Node) (st : NodeState)
    : bool * NodeState :=
  match node with
  | IdentExpr ident =>
      match ObjectFor pass (Some node) with
      | None => (true, st)
      | Some errorObj =>
          match st.1 !! errorObj with
          | Some (Some logPos) =>
              (true, (st.1, st.2 ++ [loggedAndReturned pass ident logPos]))
          | _ => (true, st)
          end
      end
  | _ => (true, st)
  end.

(** The callback of the walk over a node of the block. *)
Definition visit (pass : Pass) (errorReturnIndices : list nat)
    (node : Node) (st : NodeState) : bool * NodeState :=
  match node with
  | AssignStmt Lhs _ => (true, (fold_left (assigned pass) Lhs st.1, st.2))
  | CallExpr Fun _ =>
      if negb (receiverIsLogger pass (ObjectFor pass (Some Fun)))
      then (true, st)
      else (false, Inspect (logged pass) node st)
  | ReturnStmt _ results =>
      (false,
       fold_left (fun st idx =>
         match results !! idx with
         | None => st
         | Some value => Inspect (returned pass) value st
         end) errorReturnIndices st)
  | FuncLit _ _ => (false, st)
  | _ => (true, st)
  end.

(** Go maps are references.  [loggedErrors] is handed to the last successor
    as it is and copied for the others, so the maps live in a store and a
    [loggedErrors] is the address of one. *)
Definition loc := positive.

(** The state of one run: the maps made so far, the one map
    [traversedPaths] every call shares, and the diagnostics reported. *)
Record State := mkState {
  maps : gmap loc LoggedErrors;
  traversedPaths : gmap (nat * nat) Z;
  diagnostics : list Diagnostic
}.

Definition contents (loggedErrors : loc) (st : State) : LoggedErrors :=
  default ∅ (maps st !! loggedErrors).

(** [forChild = make(map); for k, v := range loggedErrors { forChild[k] = v }] *)
Definition copyMap (order : RangeOrder (option Pos)) (loggedErrors : loc)
    (st : State) : loc * State :=
  let forChild := fresh (dom (maps st)) in
  (forChild,
   {| maps := <[forChild :=
                  fold_left (fun m kv => <[kv.1 := kv.2]> m)
                            (order (contents loggedErrors st)) ∅]> (maps st);
      traversedPaths := traversedPaths st;
      diagnostics := diagnostics st |}).

(** The test on [traversedPaths] at the head of the loop over the
    successors: [None] is [continue], otherwise the counter is advanced. *)
Definition enterEdge (edge : nat * nat) (traversedPaths : gmap (nat * nat) Z)
    : option (gmap (nat * nat) Z) :=
  match traversedPaths !! edge with
  | Some times =>
      if 1 <? times then None else Some (<[edge := times + 1]> traversedPaths)
  | None => Some (<[edge := 1]> traversedPaths)
  end.

(** The object is the target of an assignment somewhere in the nodes of the
    graph: some [AssignStmt] has on its left an identifier that resolves to
    it. *)
Definition assignsTo (pass : Pass) (obj : Object) (n : Node) : bool :=
  match n with
  | AssignStmt Lhs _ =>
      existsb (fun target =>
                 match target with
                 | IdentExpr ident => bool_decide (ObjectOf pass ident = Some obj)
                 | _ => false
                 end) Lhs
  | _ => false
  end.

Definition assignedIn (pass : Pass) (graph : CFG) (obj : Object) : bool :=
  existsb (fun b =>
             existsb (fun node => existsb (assignsTo pass obj) (subnodes node))
                     (Nodes b))
          (Blocks graph).

(** The diagnostic is one of the two the linter makes, at the identifier
    [ident]. *)
Definition reportedAt (pass : Pass) (ident : Ident) (d : Diagnostic) : Prop :=
  exists logPos,
    d = loggedTwice pass ident logPos \/ d = loggedAndReturned pass ident logPos.

Section Traversal.
Context (order : RangeOrder (option Pos)) (pass : Pass).
Context (errorReturnIndices : list nat) (graph : CFG).

(** The loop over [block.Nodes]. *)
Definition scanNodes (nodes : list Node) (loggedErrors : loc) (st : State)
    : State :=
  let ns := fold_left
              (fun ns blockNode => Inspect (visit pass errorReturnIndices) blockNode ns)
              nodes (contents loggedErrors st, diagnostics st) in
  {| maps := <[loggedErrors := ns.1]> (maps st);
     traversedPaths := traversedPaths st;
     diagnostics := ns.2 |}.

(** The head of the loop over [block.Succs], for the [i]-th successor
    [succ], where [n] is [len(block.Succs)]: [None] when the edge is not
    followed again, otherwise the map handed to the recursive call and the
    state the call starts from. *)
Definition childEntry (block : nat) (n : nat) (loggedErrors : loc)
    (i : nat) (succ : nat) (st : State) : option (loc * State) :=
  match enterEdge (block, succ) (traversedPaths st) with
  | None => None
  | Some counted =>
      let st := {| maps := maps st; traversedPaths := counted;
                   diagnostics := diagnostics st |} in
      Some (if Z.of_nat i <? Z.of_nat n - 1
            then copyMap order loggedErrors st
            else (loggedErrors, st))
  end.

(** The loop over [block.Succs], from the [i]-th successor on; [self] is
    the recursive call. *)
Definition forSuccs (self : nat -> loc -> State -> option State)
    (block : nat) (n : nat) (loggedErrors : loc)
    : nat -> list nat -> State -> option State :=
  fix loop (i : nat) (succs : list nat) (st : State) : option State :=
    match succs with
    | [] => Some st
    | succ :: rest =>
        match childEntry block n loggedErrors i succ st with
        | None => loop (S i) rest st
        | Some (forChild, st) =>
            match self succ forChild st with
            | None => None
            | Some st => loop (S i) rest st
            end
        end
    end.

(** [_checkBlockForLogsAndReturns].  The recursion of the source is bounded
    by [fuel]; [None] means the fuel ran out.  A position that is no block
    of the graph has nothing to analyze. *)
Fixpoint _checkBlockForLogsAndReturns (fuel : nat) (block : nat)
    (loggedErrors : loc) (st : State) : option State :=
  match fuel with
  | O => None
  | S fuel =>
      match Blocks graph !! block with
      | None => Some st
      | Some b =>
          if negb (Live b) then Some st
          else forSuccs (_checkBlockForLogsAndReturns fuel) block
                        (length (Succs b)) loggedErrors 0%nat (Succs b)
                        (scanNodes (Nodes b) loggedErrors st)
      end
  end.

(** What a run of the linter on one function comes to: its diagnostics, or
    the panic of [graph.Blocks[0]] on a graph without blocks. *)
Inductive Outcome := Finished (diags : list Diagnostic) | Panicked.

(** [_lintLogOrReturnErrors]. *)
Definition _lintLogOrReturnErrors (fuel : nat) : option Outcome :=
  match Blocks graph with
  | [] => Some Panicked
  | _ :: _ =>
      let loggedErrors : loc := fresh (∅ : gset loc) in
      match _checkBlockForLogsAndReturns fuel 0%nat loggedErrors
              {| maps := {[loggedErrors := ∅]}; traversedPaths := ∅;
                 diagnostics := [] |} with
      | None => None
      | Some st => Some (Finished (diagnostics st))
      end
  end.

(** The edges of the graph: the entries of the [Succs] lists, each with the
    position of its block. *)
Definition edges : list (nat * nat) :=
  mjoin (imap (fun block b => pair block <$> Succs b) (Blocks graph)).

(** How often the edges of the graph may still be followed, all together. *)
Definition budget (traversedPaths : gmap (nat * nat) Z) : nat :=
  sum_list ((fun edge => Z.to_nat (2 - default 0 (traversedPaths !! edge)))
              <$> edges).

(** Fuel that is enough for the graph: every edge is followed at most
    twice. *)
Definition enoughFuel : nat := S (2 * length edges).

(** The traversal once more, with a record of the edges it follows: the
    edge [(block, succ)] is noted where the source makes the recursive call
    for [succ].  The record is no part of the program and nothing is
    computed from it; without it this is [forSuccs] and
    [_checkBlockForLogsAndReturns]. *)
Definition forSuccsFollowed
    (self : nat -> loc -> State * list (nat * nat)
            -> option (State * list (nat * nat)))
    (block : nat) (n : nat) (loggedErrors : loc)
    : nat -> list nat -> State * list (nat * nat)
      -> option (State * list (nat * nat)) :=
  fix loop (i : nat) (succs : list nat) (run : State * list (nat * nat))
      : option (State * list (nat * nat)) :=
    match succs with
    | [] => Some run
    | succ :: rest =>
        match childEntry block n loggedErrors i succ run.1 with
        | None => loop (S i) rest run
        | Some (forChild, st) =>
            match self succ forChild (st, run.2 ++ [(block, succ)]) with
            | None => None
            | Some run => loop (S i) rest run
            end
        end
    end.

Fixpoint followed (fuel : nat) (block : nat) (loggedErrors : loc)
    (run : State * list (nat * nat)) : option (State * list (nat * nat)) :=
  match fuel with
  | O => None
  | S fuel =>
      match Blocks graph !! block with
      | None => Some run
      | Some b =>
          if negb (Live b) then Some run
          else forSuccsFollowed (followed fuel) block
                                (length (Succs b)) loggedErrors 0%nat (Succs b)
                                (scanNodes (Nodes b) loggedErrors run.1, run.2)
      end
  end.

End Traversal.

(** How often the edge is in the record. *)
Definition timesFollowed (edge : nat * nat) (record : list (nat * nat)) : nat :=
  length (filter (fun e => e = edge) record).

End LogOrReturn.

(** ** always_close.go *)

Module AlwaysClose.
Import lintutil.

(** [strings.HasSuffix]. *)
Definition HasSuffix (s suffix : string) : bool :=
  (String.length suffix <=? String.length s)%nat
  && String.eqb
       (substring (String.length s - String.length suffix)
                  (String.length suffix) s)
       suffix.

(** [strings.HasPrefix]. *)
Definition HasPrefix (s prefix : string) : bool := String.prefix prefix s.

(** [_isCloseMethod], on the printed method. *)
Definition _isCloseMethod (method : string) : bool :=
  HasSuffix method ".Close() error".

Definition _isClosable (pass : Pass) (obj : option Object) : bool :=
  match obj with
  | None => false
  | Some o =>
      match CloseMethod pass o with
      | None => false
      | Some method => _isCloseMethod method
      end
  end.

(** [_assignedFromNoOp]; [None] is the panic of [rhs[i]] out of range. *)
Definition _assignedFromNoOp (rhs : list Node) (i : nat) : option bool :=
  match (if (length rhs =? 1)%nat then rhs !! 0%nat else rhs !! i) with
  | None => None
  | Some from =>
      Some match from with
           | TypeAssertExpr _ _ => true
           | CallExpr (SelectorExpr _ Sel) _ => String.eqb (Name Sel) "NopCloser"
           | _ => false
           end
  end.

Fixpoint _identFromExpression (e : Node) : option Ident :=
  match e with
  | IdentExpr i => Some i
  | SelectorExpr _ Sel => Some Sel
  | UnaryExpr _ X => _identFromExpression X
  | StarExpr _ X => _identFromExpression X
  | ParenExpr _ X => _identFromExpression X
  | CallExpr Fun _ => _identFromExpression Fun
  | KeyValueExpr _ Value => _identFromExpression Value
  | _ => None
  end.

(** The facts [_isCloser] of the pass: the objects that carry one. *)
Abbreviation Facts := (gset Object).

(** [_isCallToCloser]; [None] is the panic of [pass.ImportObjectFact] on a
    nil object. *)
Definition _isCallToCloser (pass : Pass) (facts : Facts) (Fun : Node)
    : option bool :=
  match _identFromExpression Fun with
  | None => Some false
  | Some ident =>
      match ObjectFor pass (Some (IdentExpr ident)) with
      | None => None
      | Some obj => Some (bool_decide (obj ∈ facts))
      end
  end.

(** The map [closables]: from the object to the left-hand side that
    acquired it. *)
Abbreviation Closables := (gmap Object Node).

(** [delete(closables, obj)]; no key of the map is nil. *)
Definition deleteObj (obj : option Object) (closables : Closables) : Closables :=
  match obj with
  | Some o => delete o closables
  | None => closables
  end.

(** The first walk, at an assignment: the loop over [node.Lhs], from the
    [i]-th variable on. *)
Fixpoint acquire (pass : Pass) (Rhs : list Node) (i : nat) (Lhs : list Node)
    (closables : Closables) : option Closables :=
  match Lhs with
  | [] => Some closables
  | variable :: rest =>
      match variable with
      | IdentExpr _ =>
          let obj := ObjectFor pass (Some variable) in
          match obj with
          | Some o =>
              if _isClosable pass obj then
                match _assignedFromNoOp Rhs i with
                | None => None
                | Some true => acquire pass Rhs (S i) rest closables
                | Some false =>
                    acquire pass Rhs (S i) rest (<[o := variable]> closables)
                end
              else acquire pass Rhs (S i) rest closables
          | None => acquire pass Rhs (S i) rest closables
          end
      | _ => acquire pass Rhs (S i) rest closables
      end
  end.

(** The callback of the first walk; the state is [None] after a panic. *)
Definition collect (pass : Pass) (n : Node) (st : option Closables)
    : bool * option Closables :=
  (true,
   match n with
   | AssignStmt Lhs Rhs => st ≫= acquire pass Rhs 0%nat Lhs
   | _ => st
   end).

(** The identifier an escaping expression stands for, resolved. *)
Definition escaping (pass : Pass) (expr : Node) : option Object :=
  ObjectFor pass (IdentExpr <$> _identFromExpression expr).

(** The callback of the second walk, on a map. *)
Definition release (pass : Pass) (facts : Facts) (n : Node)
    (closables : Closables) : option Closables :=
  match n with
  | CallExpr Fun Args =>
      match _isCallToCloser pass facts Fun with
      | None => None
      | Some true =>
          Some (fold_left (fun m arg => deleteObj (ObjectFor pass (Some arg)) m)
                          Args closables)
      | Some false =>
          match Fun with
          | SelectorExpr X Sel =>
              if String.eqb (Name Sel) "Close"
              then Some (deleteObj (ObjectFor pass (Some X)) closables)
              else Some closables
          | _ => Some closables
          end
      end
  | AssignStmt _ Rhs =>
      Some (fold_left (fun m expr => deleteObj (escaping pass expr) m)
                      Rhs closables)
  | CompositeLit _ _ Elts =>
      Some (fold_left (fun m expr => deleteObj (escaping pass expr) m)
                      Elts closables)
  | ReturnStmt _ results =>
      Some (fold_left (fun m expr =>
                         match _identFromExpression expr with
                         | Some ident =>
                             deleteObj (ObjectFor pass (Some (IdentExpr ident))) m
                         | None => m
                         end) results closables)
  | _ => Some closables
  end.

Definition cancel (pass : Pass) (facts : Facts) (n : Node)
    (st : option Closables) : bool * option Closables :=
  (true, st ≫= release pass facts n).

(** The node [ast.Inspect(funcDecl, ...)] walks.  The doc comment, the
    receiver and the signature hold comments, names and type expressions;
    neither walk acts on them. *)
Definition FuncDeclNode (funcDecl : FuncDecl) : Node :=
  Other (NamePos (FuncName funcDecl))
        [IdentExpr (FuncName funcDecl); Body funcDecl].

(** A call [pass.Reportf(pos, format)] that has no operands: the position
    and the format.  [_scanFuncDecl] hands the printed type, followed by
    [" needs to be closed"], to [Reportf] as the format, so the message of
    the diagnostic is what [fmt.Sprintf] makes of that format; the model
    keeps the call as the source makes it. *)
Record Reportf := mkReportf { ReportPos : Pos; Format : string }.

(** The report of one entry of [closables]. *)
Definition needsToBeClosed (pass : Pass) (entry : Object * Node) : Reportf :=
  {| ReportPos := NodePos entry.2;
     Format := TypeString pass entry.1 +:+ " needs to be closed" |}.

(** The entries the last loop of [_scanFuncDecl] ranges over, in the order
    the runtime yields them; [None] is a panic. *)
Definition unclosed (order : RangeOrder Node) (pass : Pass)
    (facts : Facts) (funcDecl : FuncDecl) : option (list (Object * Node)) :=
  match Inspect (collect pass) (FuncDeclNode funcDecl) (Some ∅) with
  | None => None
  | Some closables =>
      if (size closables =? 0)%nat then Some []
      else order <$> Inspect (cancel pass facts) (FuncDeclNode funcDecl)
                             (Some closables)
  end.

(** [_scanFuncDecl]: the calls of [pass.Reportf] it makes. *)
Definition _scanFuncDecl (order : RangeOrder Node) (pass : Pass)
    (facts : Facts) (funcDecl : FuncDecl) : option (list Reportf) :=
  map (needsToBeClosed pass) <$> unclosed order pass facts funcDecl.

(** The claims speak of a closable that is released or escapes at a node.
    [obj] is released at a call [x.Close()] with [x] the object, and at a
    call of a closer with the object for an argument; it escapes where an
    expression that stands for it is the source of an assignment, an element
    of a composite literal or a result of a return. *)
Definition isObject (obj : Object) (o : option Object) : bool :=
  bool_decide (o = Some obj).

(** The node is a call of a closer with an argument that names [obj]. *)
Definition handedToCloser (pass : Pass) (facts : Facts) (obj : Object)
    (n : Node) : bool :=
  match n with
  | CallExpr Fun Args =>
      bool_decide (_isCallToCloser pass facts Fun = Some true)
      && existsb (fun arg => isObject obj (ObjectFor pass (Some arg))) Args
  | _ => false
  end.

Definition released (pass : Pass) (facts : Facts) (obj : Object) (n : Node)
    : bool :=
  match n with
  | CallExpr (SelectorExpr X Sel) _ =>
      String.eqb (Name Sel) "Close" && isObject obj (ObjectFor pass (Some X))
  | _ => false
  end
  || handedToCloser pass facts obj n.

Definition escapes (pass : Pass) (obj : Object) (n : Node) : bool :=
  match n with
  | AssignStmt _ exprs | CompositeLit _ _ exprs | ReturnStmt _ exprs =>
      existsb (fun expr => isObject obj (escaping pass expr)) exprs
  | _ => false
  end.

(** [obj] is returned by the node: a result of the return stands for it. *)
Definition returns (pass : Pass) (obj : Object) (n : Node) : bool :=
  match n with
  | ReturnStmt _ exprs =>
      existsb (fun expr => isObject obj (escaping pass expr)) exprs
  | _ => false
  end.

(** An acquisition of [obj] in the tree [root], at the left-hand side [acq]:
    an assignment gives a value to the identifier [acq] of the closable
    object [obj], and not from a type assertion or [NopCloser]. *)
Definition AcquiredAt (pass : Pass) (root : Node) (obj : Object) (acq : Node)
    : Prop :=
  exists Lhs Rhs i ident,
    AssignStmt Lhs Rhs ∈ subnodes root
    /\ Lhs !! i = Some acq
    /\ acq = IdentExpr ident
    /\ ObjectOf pass ident = Some obj
    /\ _isClosable pass (Some obj) = true
    /\ _assignedFromNoOp Rhs i = Some false.

(** Every function called has an object, so that [pass.ImportObjectFact]
    does not panic. *)
Definition callsResolved (pass : Pass) (root : Node) : bool :=
  forallb (fun n =>
             match n with
             | CallExpr Fun _ =>
                 match _identFromExpression Fun with
                 | Some ident => bool_decide (is_Some (ObjectOf pass ident))
                 | None => true
                 end
             | _ => true
             end) (subnodes root).

(** [_maybeMarkFunctionAsCloser]; [None] is the panic of
    [pass.ExportObjectFact] on a nil object. *)
Definition _maybeMarkFunctionAsCloser (pass : Pass) (funcDecl : FuncDecl)
    (facts : Facts) : option Facts :=
  match Doc funcDecl with
  | None => Some facts
  | Some docs =>
      fold_left (fun st doc =>
        facts ← st;
        if HasPrefix doc "//ka:closer" then
          match ObjectFor pass (Some (IdentExpr (FuncName funcDecl))) with
          | Some obj => Some ({[obj]} ∪ facts)
          | None => None
          end
        else Some facts) docs (Some facts)
  end.

Definition funcDecls (files : list File) : list FuncDecl :=
  flat_map (fun file =>
    flat_map (fun decl =>
      match decl with FuncDeclOf d => [d] | GenDecl => [] end) (Decls file))
    files.

Definition _scanForClosingFunctions (pass : Pass) (files : list File)
    (facts : Facts) : option Facts :=
  fold_left (fun st funcDecl => st ≫= _maybeMarkFunctionAsCloser pass funcDecl)
            (funcDecls files) (Some facts).

(** [_runAlwaysClose]; [facts] are the facts imported with the packages the
    pass depends on. *)
Definition _runAlwaysClose (order : RangeOrder Node) (pass : Pass)
    (files : list File) (facts : Facts) : option (list Reportf) :=
  facts ← _scanForClosingFunctions pass files facts;
  fold_left (fun st funcDecl =>
               out ← st;
               new ← _scanFuncDecl order pass facts funcDecl;
               Some (out ++ new))
            (funcDecls files) (Some []).

End AlwaysClose.

(** ** Programs the theorems are tried on *)

Module Examples.

(** A type checker for the examples: objects by name. *)
Definition byName (table : list (string * Object)) (i : Ident) : option Object :=
  (list_to_map table : gmap string Object) !! Name i.

Definition answer {A} (table : list (Object * A)) (d : A) (o : Object) : A :=
  default d ((list_to_map table : gmap Object A) !! o).

Definition call (f : Node) (args : list Node) : Node := ExprStmt (CallExpr f args).

Definition var (p : Pos) (name : string) : Node := IdentExpr (mkIdent p name).

Definition typ (name : string) : Node := IdentExpr (mkIdent 0 name).

(** *** [http.Error(w, msg, code); log(x); log(y); return] *)

Definition httpPass : Pass :=
  {| ObjectOf := byName [("http", 1); ("Error", 2); ("w", 3); ("msg", 4);
                         ("code", 5); ("log", 6); ("x", 7); ("y", 8)]%positive;
     TypeString := fun _ => "";
     QualifiedName := answer [(2, "net/http.Error")]%positive "";
     RecvTypeString := fun _ => None;
     CloseMethod := fun _ => None;
     PositionString := fun _ => "" |}.

Definition Error : Ident := mkIdent 15 "Error".

Definition httpError : Node :=
  call (SelectorExpr (var 10 "http") Error) [var 21 "w"; var 24 "msg"; var 29 "code"].

Definition logX : Node := call (var 40 "log") [var 44 "x"].

Definition logY : Node := call (var 50 "log") [var 54 "y"].

Definition twoLogs : CFG :=
  {| Blocks := [ {| Live := true;
                    Nodes := [httpError; logX; logY; ReturnStmt 60 []];
                    Succs := [] |} ] |}.

Definition oneLog : CFG :=
  {| Blocks := [ {| Live := true;
                    Nodes := [httpError; logX; ReturnStmt 50 []];
                    Succs := [] |} ] |}.

(** *** [err := doX(); logger.Warn(err); return err] and relatives *)

Definition Logger : string := "github.com/Khan/webapp/pkg/lib/log.Logger".

Definition logPass : Pass :=
  {| ObjectOf := byName [("err", 1); ("doX", 2); ("logger", 3); ("Warn", 4);
                         ("Error", 5); ("cond", 6)]%positive;
     TypeString := answer [(1, "error")]%positive "";
     QualifiedName := fun _ => "";
     RecvTypeString := answer [(4, Some Logger); (5, Some Logger)]%positive None;
     CloseMethod := fun _ => None;
     PositionString := fun p => "f.go:" +:+ pretty p |}.

Definition assignErr : Node :=
  AssignStmt [var 10 "err"] [CallExpr (var 17 "doX") []].

Definition warnErr (p : Pos) : Node :=
  call (SelectorExpr (var p "logger") (mkIdent (p + 7) "Warn")) [var (p + 12) "err"].

Definition returnErr (p : Pos) : Node := ReturnStmt p [var (p + 7) "err"].

(** [func f() error { err := doX(); logger.Warn(err); return err }] *)
Definition logAndReturn : CFG :=
  {| Blocks := [ {| Live := true;
                    Nodes := [assignErr; warnErr 30; returnErr 50];
                    Succs := [] |} ] |}.

(** [func f(err error) error { logger.Warn(err); logger.Warn(err); return err }] *)
Definition parameterLogged : CFG :=
  {| Blocks := [ {| Live := true;
                    Nodes := [warnErr 30; warnErr 50; returnErr 70];
                    Succs := [] |} ] |}.

(** The shape of [err := doX(); for cond { logger.Warn(err) }; return err]:
    the block 0 is the entry, the block 3 the head of the loop, with the
    condition, the block 1 the body of the loop and the block 2 what follows
    the loop; the block 4, what follows the return, is dead code. *)
Definition loggedInLoop : CFG :=
  {| Blocks := [ {| Live := true; Nodes := [assignErr]; Succs := [3%nat] |};
                 {| Live := true; Nodes := [warnErr 30]; Succs := [3%nat] |};
                 {| Live := true; Nodes := [returnErr 50]; Succs := [] |};
                 {| Live := true; Nodes := [var 25 "cond"]; Succs := [1%nat; 2%nat] |};
                 {| Live := false; Nodes := []; Succs := [] |} ] |}.

(** A diamond, the shape of [err := doX(); if cond { logger.Warn(err) } else
    { logger.Warn(err) }; return nil]: the block 0 assigns [err], ends with
    the condition and has two successors, the blocks 1 and 3, which both log
    [err] and lead to the block 2, which returns; the block 4, what follows
    the return, is dead code. *)
Definition loggedInBothBranches : CFG :=
  {| Blocks := [ {| Live := true; Nodes := [assignErr; var 25 "cond"];
                    Succs := [1%nat; 3%nat] |};
                 {| Live := true; Nodes := [warnErr 30]; Succs := [2%nat] |};
                 {| Live := true; Nodes := [ReturnStmt 90 [var 97 "nil"]];
                    Succs := [] |};
                 {| Live := true; Nodes := [warnErr 60]; Succs := [2%nat] |};
                 {| Live := false; Nodes := []; Succs := [] |} ] |}.

(** The state in which [_lintLogOrReturnErrors] starts: one empty map and
    no counter. *)
Definition atStart : LogOrReturn.State :=
  {| LogOrReturn.maps := {[1%positive := ∅]};
     LogOrReturn.traversedPaths := ∅;
     LogOrReturn.diagnostics := [] |}.

(** The traversal of [loggedInBothBranches] when the edge to the block 1
    has been counted and the map copied, and when the analysis of the
    block 1 is over: [err] is logged in the copy, the map 2. *)
Definition atFirstBranch : LogOrReturn.State :=
  {| LogOrReturn.maps := {[1%positive := {[1%positive := None]};
                           2%positive := {[1%positive := None]}]};
     LogOrReturn.traversedPaths := {[(0%nat, 1%nat) := 1]};
     LogOrReturn.diagnostics := [] |}.

Definition afterFirstBranch : LogOrReturn.State :=
  {| LogOrReturn.maps := {[1%positive := {[1%positive := None]};
                           2%positive := {[1%positive := Some 42]}]};
     LogOrReturn.traversedPaths := {[(0%nat, 1%nat) := 1; (1%nat, 2%nat) := 1]};
     LogOrReturn.diagnostics := [] |}.

(** An order of enumeration, and another one. *)
Definition ascending {V} : RangeOrder V := map_to_list.


(** *** Files that open and close *)

Definition closePass : Pass :=
  {| ObjectOf := byName [("f", 1); ("g", 2); ("open", 3); ("closeIt", 4);
                         ("r", 5); ("Close", 6); ("leak", 7); ("handOver", 8);
                         ("give", 9); ("keep", 10); ("shut", 11); ("rc", 12);
                         ("get", 13); ("io", 14); ("Closer", 15);
                         ("narrow", 16)]%positive;
     TypeString := answer [(1, "*os.File"); (2, "*os.File"); (5, "*os.File");
                           (12, "io.ReadCloser")]%positive "";
     QualifiedName := fun _ => "";
     RecvTypeString := fun _ => None;
     CloseMethod :=
       answer [(1, Some "func (*os.File).Close() error");
               (2, Some "func (*os.File).Close() error");
               (5, Some "func (*os.File).Close() error");
               (12, Some "func (io.Closer).Close() error")]%positive None;
     PositionString := fun _ => "" |}.

Definition block (p : Pos) (stmts : list Node) : Node := Other p stmts.

Definition opened (p : Pos) (name : string) : Node :=
  AssignStmt [var p name] [CallExpr (var (p + 5) "open") []].

Definition noResults : FuncType := {| Results := None |}.


(** [func give() *os.File { r := open(); return r }] *)
Definition give : FuncDecl :=
  {| Doc := None; FuncName := mkIdent 5 "give";
     FuncSig := {| Results := Some [mkField [] (StarExpr 12 (typ "File"))] |};
     Body := block 20 [opened 30 "r"; ReturnStmt 50 [var 57 "r"]] |}.

(** [func narrowed() io.Closer { rc := get(); return rc.(io.Closer) }] *)
Definition narrowed : FuncDecl :=
  {| Doc := None; FuncName := mkIdent 5 "narrowed";
     FuncSig := {| Results := Some [mkField [] (SelectorExpr (typ "io")
                                                  (mkIdent 0 "Closer"))] |};
     Body := block 20
               [AssignStmt [var 30 "rc"] [CallExpr (var 36 "get") []];
                ReturnStmt 50
                  [TypeAssertExpr (var 57 "rc")
                     (Some (SelectorExpr (var 61 "io") (mkIdent 64 "Closer")))]] |}.

(** [func passed() io.ReadCloser { r := open(); return get(r) }] *)
Definition passed : FuncDecl :=
  {| Doc := None; FuncName := mkIdent 5 "passed";
     FuncSig := {| Results := Some [mkField [] (SelectorExpr (typ "io")
                                                  (mkIdent 0 "ReadCloser"))] |};
     Body := block 20 [opened 30 "r";
                       ReturnStmt 50 [CallExpr (var 57 "get") [var 61 "r"]]] |}.

(** [func keep() { r := open() }] *)
Definition keep : FuncDecl :=
  {| Doc := None; FuncName := mkIdent 5 "keep"; FuncSig := noResults;
     Body := block 12 [opened 30 "r"] |}.

(** [func shut() { r := open(); r.Close() }] *)
Definition shut : FuncDecl :=
  {| Doc := None; FuncName := mkIdent 5 "shut"; FuncSig := noResults;
     Body := block 12 [opened 30 "r";
                       call (SelectorExpr (var 50 "r") (mkIdent 52 "Close")) []] |}.

Definition file (decls : list FuncDecl) : File :=
  {| Decls := FuncDeclOf <$> decls |}.

(** *** Signatures *)

(** [func() (error, error)] *)
Definition twoErrors : FuncType :=
  {| Results := Some [mkField [] (typ "error"); mkField [] (typ "error")] |}.

(** [func() (a, b error)] *)
Definition twoNamedErrors : FuncType :=
  {| Results := Some [mkField [mkIdent 0 "a"; mkIdent 0 "b"] (typ "error")] |}.

(** [func() (err error, n int, again error)] *)
Definition errorIntError : FuncType :=
  {| Results := Some [mkField [mkIdent 0 "err"] (typ "error");
                      mkField [mkIdent 0 "n"] (typ "int");
                      mkField [mkIdent 0 "again"] (typ "error")] |}.

(** [func() (n int, err error)] *)
Definition intError : FuncType :=
  {| Results := Some [mkField [mkIdent 0 "n"] (typ "int");
                      mkField [mkIdent 0 "err"] (typ "error")] |}.

End Examples.

(** ** Words for further properties *)

Module ReturnAfterCall.
Import HttpReturn.

(** The identifier names [http.Error] or [http.Redirect]. *)
Definition isTarget (pass : Pass) (i : Ident) : bool :=
  String.eqb (lintutil.NameOf pass (ObjectOf pass i)) "net/http.Error"
  || String.eqb (lintutil.NameOf pass (ObjectOf pass i)) "net/http.Redirect".

(** The identifiers of a node that are not inside a function literal, from
    left to right. *)
Fixpoint outerIdents (n : Node) : list Ident :=
  match n with
  | IdentExpr i => [i]
  | BasicLit _ _ => []
  | FuncLit _ _ => []
  | SelectorExpr X Sel => outerIdents X ++ [Sel]
  | UnaryExpr _ X | StarExpr _ X | ParenExpr _ X | ExprStmt X => outerIdents X
  | CallExpr Fun Args => outerIdents Fun ++ flat_map outerIdents Args
  | KeyValueExpr Key Value => outerIdents Key ++ outerIdents Value
  | CompositeLit Typ _ Elts =>
      match Typ with Some t => outerIdents t | None => [] end
      ++ flat_map outerIdents Elts
  | TypeAssertExpr X Typ =>
      outerIdents X ++ match Typ with Some t => outerIdents t | None => [] end
  | AssignStmt Lhs Rhs => flat_map outerIdents Lhs ++ flat_map outerIdents Rhs
  | ReturnStmt _ Results => flat_map outerIdents Results
  | Other _ Children => flat_map outerIdents Children
  end.

(** The block returns right after every call of [http.Error] or
    [http.Redirect]: a node that holds such a call is directly followed, in
    the block, by a return; a last node that holds one is allowed only in a
    block without successors. *)
Definition ObviouslyReturns (pass : Pass) (b : Block) : Prop :=
  (forall i prev cur,
     Nodes b !! i = Some prev -> Nodes b !! S i = Some cur ->
     _mustReturnAfter pass prev <> None -> isReturnStmt cur = true)
  /\ (forall final,
        last (Nodes b) = Some final -> _mustReturnAfter pass final <> None ->
        Succs b = []).

(** The node holds a call of [http.Error] or [http.Redirect] outside
    function literals. *)
Definition holdsCall (pass : Pass) (n : Node) : bool :=
  match _mustReturnAfter pass n with Some _ => true | None => false end.

End ReturnAfterCall.

Module ErrorResults.

(** The field of the result list is declared with the type [error]. *)
Definition isErrorField (result : Field Node) : bool :=
  match Type_ result with
  | IdentExpr ident => String.eqb (Name ident) "error"
  | _ => false
  end.

(** The number of results the field stands for: one for each name, one
    when it has no name. *)
Definition width (result : Field Node) : nat :=
  if (0 <? length (Names result))%nat then length (Names result) else 1%nat.

(** The signature has at most one field of the type [error], and that field
    has at most one name: [(T, error)], [(n int, err error)], but neither
    [(error, error)] nor [(a, b error)]. *)
Definition OneErrorResult (sig : FuncType) : Prop :=
  match Results sig with
  | None => True
  | Some fields =>
      match List.filter isErrorField fields with
      | [] => True
      | [result] => (length (Names result) <= 1)%nat
      | _ => False
      end
  end.

End ErrorResults.

Module Origins.
Import lintutil LogLint LogOrReturn.

(** The identifier stands inside a call of the logger in a node of a block
    of the graph. *)
Definition InLoggerCall (pass : Pass) (graph : CFG) (ident : Ident) : Prop :=
  exists b node Fun Args,
    b ∈ Blocks graph /\ node ∈ Nodes b /\ CallExpr Fun Args ∈ subnodes node
    /\ receiverIsLogger pass (ObjectFor pass (Some Fun)) = true
    /\ IdentExpr ident ∈ subnodes (CallExpr Fun Args).

(** The identifier stands inside a result of a return statement, at one of
    the positions [errorReturnIndices]. *)
Definition InErrorResult (errorReturnIndices : list nat) (graph : CFG)
    (ident : Ident) : Prop :=
  exists b node ret results idx value,
    b ∈ Blocks graph /\ node ∈ Nodes b /\ ReturnStmt ret results ∈ subnodes node
    /\ idx ∈ errorReturnIndices /\ results !! idx = Some value
    /\ IdentExpr ident ∈ subnodes value.

(** Where a diagnostic comes from: it says that an error is logged twice
    and sits at an identifier inside a call of the logger, or it says that an
    error is logged and returned and sits at an identifier inside a result at
    an error position; the place it cites is an identifier inside a call of
    the logger. *)
Definition Origin (pass : Pass) (errorReturnIndices : list nat) (graph : CFG)
    (d : Diagnostic) : Prop :=
  exists ident cited,
    InLoggerCall pass graph cited
    /\ ((d = loggedTwice pass ident (NamePos cited)
         /\ InLoggerCall pass graph ident)
        \/ (d = loggedAndReturned pass ident (NamePos cited)
            /\ InErrorResult errorReturnIndices graph ident)).

(** Some node of the graph is a call of the logger. *)
Definition callsLogger (pass : Pass) (graph : CFG) : bool :=
  existsb (fun b =>
    existsb (fun node =>
      existsb (fun n =>
                 match n with
                 | CallExpr Fun _ => receiverIsLogger pass (ObjectFor pass (Some Fun))
                 | _ => false
                 end) (subnodes node))
      (Nodes b))
    (Blocks graph).

End Origins.

Module Closing.
Import lintutil AlwaysClose.

(** The node closes [obj]: it is a call [x.Close()] with [x] the object,
    where [Close] itself is no closer. *)
Definition closes (pass : Pass) (facts : Facts) (obj : Object) (n : Node)
    : bool :=
  match n with
  | CallExpr (SelectorExpr X Sel) _ =>
      bool_decide (_isCallToCloser pass facts (SelectorExpr X Sel) = Some false)
      && String.eqb (Name Sel) "Close"
      && isObject obj (ObjectFor pass (Some X))
  | _ => false
  end.

(** The tracker parts with [obj] at the node: the node closes it, hands it
    to a closer or lets it escape. *)
Definition parted (pass : Pass) (facts : Facts) (obj : Object) (n : Node)
    : bool :=
  closes pass facts obj n || handedToCloser pass facts obj n
  || escapes pass obj n.

(** Every assignment of the tree has one source, or as many sources as it
    has targets at least, as the assignments of a Go program have. *)
Definition assignsBalanced (root : Node) : bool :=
  forallb (fun n =>
             match n with
             | AssignStmt Lhs Rhs =>
                 (length Rhs =? 1)%nat || (length Lhs <=? length Rhs)%nat
             | _ => true
             end) (subnodes root).

(** Some identifier on the left of an assignment of the tree is a closable
    object. *)
Definition assignsClosable (pass : Pass) (root : Node) : bool :=
  existsb (fun n =>
             match n with
             | AssignStmt Lhs _ =>
                 existsb (fun variable =>
                            match variable with
                            | IdentExpr _ =>
                                _isClosable pass (ObjectFor pass (Some variable))
                            | _ => false
                            end) Lhs
             | _ => false
             end) (subnodes root).

(** A line of the doc comment of the function begins with [//ka:closer]. *)
Definition marked (funcDecl : FuncDecl) : bool :=
  match Doc funcDecl with
  | None => false
  | Some docs => existsb (fun doc => HasPrefix doc "//ka:closer") docs
  end.

End Closing.

Module MoreExamples.
Import Examples.

(** [func log() { missing(f) }], where nothing is known of [missing]. *)
Definition callsUnknown : FuncDecl :=
  {| Doc := None; FuncName := mkIdent 5 "log"; FuncSig := noResults;
     Body := block 12 [call (var 20 "missing") [var 28 "f"]] |}.

(** [//ka:closer] over a function the type checker knows nothing of. *)
Definition unknownCloser : FuncDecl :=
  {| Doc := Some ["// unknownCloser closes."; "//ka:closer"];
     FuncName := mkIdent 105 "unknownCloser";
     FuncSig := noResults; Body := block 120 [] |}.

(** [func f() error { err := doX(); logger.Warn(err); err = doX();
    return err }] *)
Definition loggedThenAssigned : CFG :=
  {| Blocks := [ {| Live := true;
                    Nodes := [assignErr; warnErr 30;
                              AssignStmt [var 50 "err"] [CallExpr (var 56 "doX") []];
                              returnErr 70];
                    Succs := [] |} ] |}.

(** [func f() error { err := doX(); logger.Warn(err); logger.Warn(err);
    return nil }] *)
Definition loggedTwiceInARow : CFG :=
  {| Blocks := [ {| Live := true;
                    Nodes := [assignErr; warnErr 30; warnErr 50;
                              ReturnStmt 70 [var 77 "nil"]];
                    Succs := [] |} ] |}.

(** The shape of [func f() error { err := doX(); logger.Warn(err); for {
    return err } }]: the block 0 is the entry and has one successor, the
    block 1, the body of the loop, which returns; the blocks 2 (what follows
    the loop) and 3 (what follows the return, and jumps back to the body)
    are dead code. *)
Definition loggedThenReturnedLater : CFG :=
  {| Blocks := [ {| Live := true;
                    Nodes := [assignErr; warnErr 30];
                    Succs := [1%nat] |};
                 {| Live := true; Nodes := [returnErr 50]; Succs := [] |};
                 {| Live := false; Nodes := []; Succs := [] |};
                 {| Live := false; Nodes := []; Succs := [1%nat] |} ] |}.

(** [func f() error { err := doX(); return err }] *)
Definition plainReturn : CFG :=
  {| Blocks := [ {| Live := true;
                    Nodes := [assignErr; returnErr 50];
                    Succs := [] |} ] |}.

(** The shape of [if cond { http.Error(w, msg, code) } else { log(x) };
    return]: the block 0 ends with the condition, the block 1 is the first
    branch, the block 3 the other one and the block 2 the return, which both
    branches lead to; the block 4, what follows the return, is dead code. *)
Definition errorInBranch : CFG :=
  {| Blocks := [ {| Live := true; Nodes := [var 5 "cond"]; Succs := [1%nat; 3%nat] |};
                 {| Live := true; Nodes := [httpError]; Succs := [2%nat] |};
                 {| Live := true; Nodes := [ReturnStmt 60 []]; Succs := [] |};
                 {| Live := true; Nodes := [logX]; Succs := [2%nat] |};
                 {| Live := false; Nodes := []; Succs := [] |} ] |}.

(** [log(x); log(y); return] *)
Definition noError : CFG :=
  {| Blocks := [ {| Live := true; Nodes := [logX; logY; ReturnStmt 60 []];
                    Succs := [] |} ] |}.

(** [go func() { http.Error(w, msg, code) }()] *)
Definition errorInClosure : Node :=
  Other 1 [CallExpr (FuncLit (Other 4 []) (Other 11 [httpError])) []].

End MoreExamples.

(** * Theorems *)

(** ** The walk *)

(** Induction on a node, from its children. *)
Lemma Node_children_ind (P : Node -> Prop) :
  (forall n, Forall P (children n) -> P n) -> forall n, P n.
Proof.
  intros H.
  assert (Hleaf : forall i, P (IdentExpr i)) by (intros i; apply H; constructor).
  fix IH 1. intros n.
  pose (all := fix all (l : list Node) : Forall P l :=
    match l with
    | [] => @List.Forall_nil Node P
    | c :: l => @List.Forall_cons Node P c l (IH c) (all l)
    end).
  destruct n; apply H; simpl;
    repeat first
      [ apply List.Forall_nil
      | match goal with
        | |- Forall _ (option_list ?t) => destruct t; simpl
        end
      | apply Forall_app; split
      | apply List.Forall_cons; [first [apply Hleaf | apply IH]|]
      | apply all ].
Qed.

(** [ast.Inspect] in terms of [children]: the callback, then the children
    from left to right. *)
Lemma Inspect_unfold {S} (f : Node -> S -> bool * S) (n : Node) (s : S) :
  Inspect f n s =
    (if (f n s).1 then InspectList f (children n) (f n s).2 else (f n s).2).
Proof.
  assert (Hwalk : forall l s0,
    (fix walk (l : list Node) (s : S) : S :=
       match l with [] => s | c :: l => walk l (Inspect f c s) end) l s0
    = InspectList f l s0).
  { induction l as [|c l IH]; intros s0; [reflexivity|]. simpl. apply IH. }
  destruct n; simpl; destruct (f _ s) as [[] s1]; simpl; try reflexivity;
    rewrite ?Hwalk; try reflexivity.
  - destruct (f (IdentExpr Sel) _) as [[] ?]; reflexivity.
  - destruct Typ; reflexivity.
  - destruct Typ; reflexivity.
  - unfold InspectList. rewrite fold_left_app. reflexivity.
Qed.

Lemma InspectList_cons {S} (f : Node -> S -> bool * S) c l s :
  InspectList f (c :: l) s = InspectList f l (Inspect f c s).
Proof. reflexivity. Qed.

Lemma subnodes_unfold n : subnodes n = n :: flat_map subnodes (children n).
Proof.
  destruct n; simpl; rewrite ?app_nil_r; try reflexivity.
  - destruct Typ; reflexivity.
  - destruct Typ; simpl; rewrite ?app_nil_r; reflexivity.
  - rewrite flat_map_app. reflexivity.
Qed.

Lemma subnodes_self n : n ∈ subnodes n.
Proof. rewrite subnodes_unfold. left. Qed.

Lemma subnodes_child n c d : c ∈ children n -> d ∈ subnodes c -> d ∈ subnodes n.
Proof.
  intros Hc Hd. rewrite subnodes_unfold. right.
  apply list_elem_of_In, in_flat_map. exists c.
  split; apply list_elem_of_In; assumption.
Qed.

(** A property of the state that every callback on a node of the tree
    keeps is kept by the walk. *)
Lemma Inspect_invariant {S} (f : Node -> S -> bool * S) (I : S -> Prop) n :
  forall s,
  (forall d s, d ∈ subnodes n -> I s -> I (f d s).2) ->
  I s -> I (Inspect f n s).
Proof.
  induction n as [n IH] using Node_children_ind. intros s Hf Hs.
  rewrite Inspect_unfold.
  assert (H1 : I (f n s).2) by (apply Hf; [apply subnodes_self | exact Hs]).
  destruct (f n s).1; [|exact H1].
  assert (Hl : forall l s0, l ⊆ children n -> I s0 -> I (InspectList f l s0)).
  { induction l as [|c l IHl]; intros s0 Hsub Hs0; [exact Hs0|].
    rewrite InspectList_cons. apply IHl; [set_solver|].
    rewrite Forall_forall in IH. apply IH; [set_solver | | exact Hs0].
    intros d s' Hd. apply Hf. apply subnodes_child with c; [set_solver | exact Hd]. }
  apply Hl; [reflexivity | exact H1].
Qed.

(** A callback that always answers [true] meets every node of the tree, in
    the order of [subnodes]. *)
Lemma Inspect_always {S} (f : Node -> S -> bool * S) :
  (forall d s, (f d s).1 = true) ->
  forall n s, Inspect f n s = fold_left (fun s d => (f d s).2) (subnodes n) s.
Proof.
  intros Hf. induction n as [n IH] using Node_children_ind. intros s.
  rewrite Inspect_unfold, Hf, subnodes_unfold. cbn [fold_left].
  generalize ((f n s).2) as s1. clear s.
  induction IH as [|c l Hc _ IHl]; intros s1; [reflexivity|].
  rewrite InspectList_cons. cbn [flat_map]. rewrite fold_left_app, <- Hc. apply IHl.
Qed.

(** ** http_return.go *)

Section HttpReturnFacts.
Import HttpReturn.
Context (pass : Pass).

Let QualifiedNameOf (m : Ident) : string :=
  lintutil.NameOf pass (lintutil.ObjectFor pass (Some (IdentExpr m))).

Lemma checkNode_snoc nodes node st :
  fold_left (checkNode pass) (nodes ++ [node]) st
  = checkNode pass (fold_left (checkNode pass) nodes st) node.
Proof. rewrite fold_left_app. reflexivity. Qed.

(** Statements that hold no call to [http.Error] or [http.Redirect], met
    with nothing pending, report nothing and leave nothing pending. *)
Lemma checkNode_quiet following out :
  Forall (fun s => _mustReturnAfter pass s = None) following ->
  fold_left (checkNode pass) following (None, out) = (None, out).
Proof.
  induction 1 as [|s l Hs _ IH]; [reflexivity|].
  simpl. rewrite Hs. exact IH.
Qed.

(** The identifier [_mustReturnAfter] finds is an identifier of the node
    and names [http.Error] or [http.Redirect]. *)
Lemma _mustReturnAfter_target node m :
  _mustReturnAfter pass node = Some m ->
  IdentExpr m ∈ subnodes node
  /\ (QualifiedNameOf m = "net/http.Error" \/ QualifiedNameOf m = "net/http.Redirect").
Proof.
  unfold _mustReturnAfter.
  apply (Inspect_invariant _ (fun ret => ret = Some m -> _)); [|discriminate].
  intros d ret Hd Hret. destruct d; simpl; try exact Hret.
  destruct (_ || _) eqn:E; [|exact Hret].
  intros [= ->]. split; [exact Hd|].
  apply orb_prop in E as [E|E]; apply String.eqb_eq in E; auto.
Qed.

(** A call, then statements without such a call: the first of them is
    reported and nothing is pending afterwards. *)
Lemma checkNode_call_then_quiet callStmt first following m out :
  _mustReturnAfter pass callStmt = Some m ->
  isReturnStmt first = false ->
  _mustReturnAfter pass first = None ->
  Forall (fun s => _mustReturnAfter pass s = None) following ->
  fold_left (checkNode pass) (callStmt :: first :: following) (None, out)
  = (None, out ++ [report pass m]).
Proof.
  intros Hcall Hret Hfirst Hrest. cbn [fold_left].
  replace (checkNode pass (None, out) callStmt) with (Some m, out)
    by (simpl; rewrite Hcall; reflexivity).
  replace (checkNode pass (Some m, out) first)
    with (@None Ident, out ++ [report pass m])
    by (simpl; rewrite Hret, Hfirst; reflexivity).
  apply checkNode_quiet, Hrest.
Qed.

Lemma checkBlock_dead dead out :
  Forall (fun b => Live b = false) dead ->
  fold_left (checkBlock pass) dead out = out.
Proof.
  induction 1 as [|b dead Hb _ IH]; [reflexivity|].
  cbn [fold_left]. unfold checkBlock at 2. rewrite Hb. exact IH.
Qed.

(** The graph of a function that is one block ending in a return, and
    blocks of dead code. *)
Lemma _checkCFG_single_block nodes p results dead :
  Forall (fun b => Live b = false) dead ->
  _checkCFG pass {| Blocks := {| Live := true;
                                 Nodes := nodes ++ [ReturnStmt p results];
                                 Succs := [] |} :: dead |}
  = (fold_left (checkNode pass) nodes (None, [])).2.
Proof.
  intros Hdead. unfold _checkCFG. cbn [Blocks]. unfold fold_left at 1.
  fold (fold_left (checkBlock pass) dead). rewrite (checkBlock_dead dead _ Hdead).
  unfold checkBlock. cbn [Live Nodes Succs negb].
  rewrite checkNode_snoc.
  destruct (fold_left (checkNode pass) nodes (None, [])) as [[m|] out]; simpl;
    destruct (_mustReturnAfter pass (ReturnStmt p results)); reflexivity.
Qed.

End HttpReturnFacts.

(** C1 (amended).  [mustReturn] is computed anew from every node, so a
    statement is reported exactly when the node just before it in the block
    holds a call to [http.Error] or [http.Redirect] and the statement is no
    return: with something pending, a statement that is no return is
    reported; and of the statements that follow such a call and hold no
    such call themselves, the first one is reported and no other. *)
Theorem c1_first_following_statement_reported
    (pass : Pass) (callStmt first : Node) (following : list Node)
    (m : Ident) (out : list Diagnostic) (p : Pos) (results : list Node)
    (dead : list Block) :
  HttpReturn._mustReturnAfter pass callStmt = Some m ->
  HttpReturn.isReturnStmt first = false ->
  HttpReturn._mustReturnAfter pass first = None ->
  Forall (fun s => HttpReturn._mustReturnAfter pass s = None) following ->
  Forall (fun b => Live b = false) dead ->
  HttpReturn.checkNode pass (Some m, out) first
    = (None, out ++ [HttpReturn.report pass m])
  /\ fold_left (HttpReturn.checkNode pass) (callStmt :: first :: following) (None, out)
    = (None, out ++ [HttpReturn.report pass m])
  /\ HttpReturn._checkCFG pass
       {| Blocks := {| Live := true;
                       Nodes := callStmt :: first :: following ++ [ReturnStmt p results];
                       Succs := [] |} :: dead |}
    = [HttpReturn.report pass m].
Proof.
  intros Hcall Hret Hfirst Hrest Hdead.
  assert (H1 : HttpReturn.checkNode pass (Some m, out) first
               = (None, out ++ [HttpReturn.report pass m])).
  { simpl. rewrite Hret, Hfirst. reflexivity. }
  split; [exact H1|].
  split; [apply checkNode_call_then_quiet; assumption|].
  change (callStmt :: first :: following ++ [ReturnStmt p results])
    with ((callStmt :: first :: following) ++ [ReturnStmt p results]).
  rewrite _checkCFG_single_block, (checkNode_call_then_quiet _ _ _ _ m); auto.
Qed.

Lemma c1_first_following_statement_reported_witness :
  HttpReturn._checkCFG Examples.httpPass Examples.twoLogs
  = [HttpReturn.report Examples.httpPass Examples.Error].
Proof.
  apply (c1_first_following_statement_reported Examples.httpPass
           Examples.httpError Examples.logX [Examples.logY] Examples.Error []
           60 [] []).
  - reflexivity.
  - reflexivity.
  - reflexivity.
  - repeat constructor.
  - constructor.
Defined.

(** C1, as stated, fails on [http.Error(w, msg, code); log(x); log(y);
    return]: both [log(x)] and [log(y)] follow the call and neither is a
    return, yet [log(y)] adds no report to the one of [log(x)]. *)
Lemma c1_second_following_statement_not_reported :
  HttpReturn._mustReturnAfter Examples.httpPass Examples.httpError
    = Some Examples.Error
  /\ HttpReturn.isReturnStmt Examples.logX = false
  /\ HttpReturn.isReturnStmt Examples.logY = false
  /\ (fold_left (HttpReturn.checkNode Examples.httpPass)
        [Examples.httpError; Examples.logX] (None, [])).2
     = [HttpReturn.report Examples.httpPass Examples.Error]
  /\ (fold_left (HttpReturn.checkNode Examples.httpPass)
        [Examples.httpError; Examples.logX; Examples.logY] (None, [])).2
     = [HttpReturn.report Examples.httpPass Examples.Error]
  /\ length (HttpReturn._checkCFG Examples.httpPass Examples.twoLogs) = 1%nat.
Proof. repeat split; reflexivity. Qed.

(** C2 (amended).  A function whose body is [callFoo(); log(x); return],
    with [callFoo] a call of [http.Error] or [http.Redirect], gets exactly
    one diagnostic; it sits at the identifier in [callFoo()] that names the
    function called (the [Error] of [http.Error]), and its message names
    that function. *)
Theorem c2_one_diagnostic_at_the_call
    (pass : Pass) (callFoo logStmt : Node) (m : Ident)
    (p : Pos) (results : list Node) (dead : list Block) :
  HttpReturn._mustReturnAfter pass callFoo = Some m ->
  HttpReturn.isReturnStmt logStmt = false ->
  HttpReturn._mustReturnAfter pass logStmt = None ->
  Forall (fun b => Live b = false) dead ->
  HttpReturn._checkCFG pass
    {| Blocks := {| Live := true;
                    Nodes := [callFoo; logStmt; ReturnStmt p results];
                    Succs := [] |} :: dead |}
  = [ {| DiagPos := NamePos m;
         Message := "HTTP handlers (or helpers) must return after calling "
                    +:+ lintutil.NameOf pass (ObjectOf pass m) |} ]
  /\ IdentExpr m ∈ subnodes callFoo
  /\ (lintutil.NameOf pass (ObjectOf pass m) = "net/http.Error"
      \/ lintutil.NameOf pass (ObjectOf pass m) = "net/http.Redirect").
Proof.
  intros Hcall Hret Hlog Hdead. split.
  - change [callFoo; logStmt; ReturnStmt p results]
      with ([callFoo; logStmt] ++ [ReturnStmt p results]).
    rewrite _checkCFG_single_block, (checkNode_call_then_quiet _ _ _ _ m); auto.
  - apply (_mustReturnAfter_target pass), Hcall.
Qed.

Lemma c2_one_diagnostic_at_the_call_witness :
  HttpReturn._checkCFG Examples.httpPass Examples.oneLog
  = [ {| DiagPos := 15;
         Message := "HTTP handlers (or helpers) must return after calling net/http.Error" |} ].
Proof.
  apply (c2_one_diagnostic_at_the_call Examples.httpPass
           Examples.httpError Examples.logX Examples.Error 50 [] []);
    first [reflexivity | constructor].
Defined.

(** C2, as stated, fails on [http.Error(w, msg, code); log(x); return]: the
    one diagnostic sits at [Error], inside the call, and not at the
    statement [log(x)]. *)
Lemma c2_diagnostic_not_at_following_statement :
  exists d,
    HttpReturn._checkCFG Examples.httpPass Examples.oneLog = [d]
    /\ DiagPos d = NamePos Examples.Error
    /\ DiagPos d <> NodePos Examples.logX.
Proof. eexists. repeat split. discriminate. Qed.

(** ** log_or_return_error_lint.go *)

(** C3.  [_errorResultIndices] does not advance its counter past a field of
    type [error]: on [(error, error)] it answers [0, 0] where the error
    results are at 0 and 1, on [(a, b error)] it answers [0] where they are
    at 0 and 1, and on [(err error, n int, again error)] it answers [0, 1]
    where they are at 0 and 2.  With one error result, declared last, the
    answer is right. *)
Theorem c3_errorResultIndices_counter_stalls :
  LogOrReturn._errorResultIndices Examples.twoErrors = [0; 0]%nat
  /\ LogOrReturn.errorResultPositions Examples.twoErrors = [0; 1]%nat
  /\ LogOrReturn._errorResultIndices Examples.twoNamedErrors = [0]%nat
  /\ LogOrReturn.errorResultPositions Examples.twoNamedErrors = [0; 1]%nat
  /\ LogOrReturn._errorResultIndices Examples.errorIntError = [0; 1]%nat
  /\ LogOrReturn.errorResultPositions Examples.errorIntError = [0; 2]%nat
  /\ LogOrReturn._errorResultIndices Examples.intError = [1]%nat
  /\ LogOrReturn.errorResultPositions Examples.intError = [1]%nat.
Proof. repeat split; reflexivity. Qed.

(** *** Copies and counters *)

(** Filling a fresh map from a [range] over a map gives a map with the same
    contents, whatever the order. *)
Lemma copy_in_any_order {V} (order : RangeOrder V) (m : gmap Object V) :
  ValidOrder order ->
  fold_left (fun c kv => <[kv.1 := kv.2]> c) (order m) ∅ = m.
Proof.
  intros Hvalid.
  transitivity (list_to_map (rev (order m)) : gmap Object V).
  - rewrite <- (fold_left_rev_right (fun kv c => <[kv.1 := kv.2]> c)).
    generalize (rev (order m)). induction l as [|[k v] l IH]; [reflexivity|].
    simpl. rewrite IH. reflexivity.
  - rewrite <- (list_to_map_to_list m) at 2.
    apply list_to_map_proper.
    + rewrite <- Permutation_rev, (Hvalid m). apply NoDup_fst_map_to_list.
    + rewrite <- Permutation_rev. apply Hvalid.
Qed.

Lemma ascending_valid {V} : ValidOrder (@Examples.ascending V).
Proof. intros m. reflexivity. Qed.


Section LogOrReturnFacts.
Import LogOrReturn.
Context (order : RangeOrder (option Pos)) (Hvalid : ValidOrder order).
Context (pass : Pass) (errorReturnIndices : list nat) (graph : CFG).

Let check := _checkBlockForLogsAndReturns order pass errorReturnIndices graph.
Let loop := forSuccs order.


Lemma enterEdge_Some e tp counted :
  enterEdge e tp = Some counted ->
  exists t, counted = <[e := t + 1]> tp /\ default 0 (tp !! e) = t
            /\ (tp !! e = None \/ t <= 1).
Proof.
  unfold enterEdge. destruct (tp !! e) as [t|] eqn:E.
  - destruct (1 <? t) eqn:Ht; [discriminate|]. intros [= <-].
    exists t. apply Z.ltb_ge in Ht. auto.
  - intros [= <-]. exists 0. auto.
Qed.

Lemma enterEdge_None e tp :
  enterEdge e tp = None <-> exists t, tp !! e = Some t /\ 1 < t.
Proof.
  unfold enterEdge. destruct (tp !! e) as [t|] eqn:E.
  - destruct (1 <? t) eqn:Ht.
    + apply Z.ltb_lt in Ht. split; eauto.
    + apply Z.ltb_ge in Ht. split; [discriminate|]. intros (t' & [= <-] & ?). lia.
  - split; [discriminate|]. intros (t & ? & _). discriminate.
Qed.

Lemma check_unfold fuel block l st :
  check (S fuel) block l st
  = match Blocks graph !! block with
    | None => Some st
    | Some b =>
        if negb (Live b) then Some st
        else loop (check fuel) block (length (Succs b)) l 0%nat (Succs b)
                  (scanNodes pass errorReturnIndices (Nodes b) l st)
    end.
Proof. reflexivity. Qed.

Lemma loop_cons self block n l i succ rest st :
  loop self block n l i (succ :: rest) st
  = match childEntry order block n l i succ st with
    | None => loop self block n l (S i) rest st
    | Some (forChild, st1) =>
        match self succ forChild st1 with
        | None => None
        | Some st2 => loop self block n l (S i) rest st2
        end
    end.
Proof. reflexivity. Qed.

(** The loop over a list of successors is the loop over its first part,
    then the loop over the rest: the state the loop over the first [k]
    successors ends in is the state in which the whole loop reaches the
    successor after them. *)
Lemma loop_app self block n l succs1 : forall i succs2 st,
  loop self block n l i (succs1 ++ succs2) st
  = loop self block n l i succs1 st
      ≫= loop self block n l (i + length succs1)%nat succs2.
Proof.
  induction succs1 as [|succ succs1 IH]; intros i succs2 st.
  - simpl. rewrite Nat.add_0_r. reflexivity.
  - rewrite <- app_comm_cons, !loop_cons.
    replace (i + length (succ :: succs1))%nat with (S i + length succs1)%nat
      by (simpl; lia).
    destruct (childEntry _ _ _ _ _ _ _) as [[forChild st1]|]; [|apply IH].
    destruct (self succ forChild st1) as [st2|]; [apply IH | reflexivity].
Qed.

Lemma childEntry_Some block n l i succ st forChild st1 :
  childEntry order block n l i succ st = Some (forChild, st1) ->
  exists counted,
    enterEdge (block, succ) (traversedPaths st) = Some counted
    /\ traversedPaths st1 = counted
    /\ diagnostics st1 = diagnostics st
    /\ (if Z.of_nat i <? Z.of_nat n - 1
        then forChild = fresh (dom (maps st))
             /\ exists copied,
                  maps st1 = <[forChild := copied]> (maps st)
                  /\ (ValidOrder order -> copied = contents l st)
        else forChild = l /\ maps st1 = maps st).
Proof.
  unfold childEntry. destruct (enterEdge _ _) as [counted|]; [|discriminate].
  intros H. exists counted. split; [reflexivity|].
  destruct (Z.of_nat i <? Z.of_nat n - 1).
  - unfold copyMap in H. injection H as <- <-. simpl.
    repeat split. eexists. split; [reflexivity|].
    intros Hv. apply copy_in_any_order, Hv.
  - injection H as <- <-. auto.
Qed.

(** More fuel does not change a result. *)
Lemma check_more_fuel fuel : forall fuel' block l st st',
  (fuel <= fuel')%nat ->
  check fuel block l st = Some st' -> check fuel' block l st = Some st'.
Proof.
  induction fuel as [|fuel IH]; intros fuel' block l st st' Hle; [discriminate|].
  destruct fuel' as [|fuel']; [lia|].
  rewrite !check_unfold.
  destruct (Blocks graph !! block) as [b|]; [|auto].
  destruct (negb (Live b)); [auto|].
  generalize (scanNodes pass errorReturnIndices (Nodes b) l st) as st0.
  generalize 0%nat as i. generalize (Succs b) at 2 4 as succs.
  induction succs as [|succ rest IHs]; intros i st0; [auto|].
  rewrite !loop_cons.
  destruct (childEntry _ _ _ _ _ _ _) as [[forChild st1]|]; [|apply IHs].
  destruct (check fuel succ forChild st1) as [st2|] eqn:E; [|discriminate].
  rewrite (IH fuel' _ _ _ _ ltac:(lia) E). apply IHs.
Qed.

(** *** What every run keeps *)

(** A property of the state kept by the scan of the nodes of a block, by a
    copy of a map and by a step of a counter is kept by the traversal. *)
Lemma check_invariant (I : State -> Prop) :
  (forall b l st, b ∈ Blocks graph -> I st ->
     I (scanNodes pass errorReturnIndices (Nodes b) l st)) ->
  (forall block n l i succ st forChild st1,
     childEntry order block n l i succ st = Some (forChild, st1) ->
     I st -> I st1) ->
  forall fuel block l st st', check fuel block l st = Some st' -> I st -> I st'.
Proof.
  intros Hscan Hentry.
  induction fuel as [|fuel IH]; intros block l st st'; [discriminate|].
  rewrite check_unfold.
  destruct (Blocks graph !! block) as [b|] eqn:Hb; [|intros [= <-]; auto].
  destruct (negb (Live b)); [intros [= <-]; auto|].
  intros Hrun Hst.
  assert (H0 : I (scanNodes pass errorReturnIndices (Nodes b) l st)).
  { apply Hscan; [|exact Hst]. eapply list_elem_of_lookup_2, Hb. }
  revert Hrun H0.
  generalize (scanNodes pass errorReturnIndices (Nodes b) l st) as st0.
  generalize 0%nat as i. generalize (Succs b) at 2 as succs.
  induction succs as [|succ rest IHs]; intros i st0; [intros [= <-]; auto|].
  rewrite loop_cons.
  destruct (childEntry _ _ _ _ _ _ _) as [[forChild st1]|] eqn:Hc; [|apply IHs].
  destruct (check fuel succ forChild st1) as [st2|] eqn:E; [|discriminate].
  intros Hrun H0. eapply IHs; [exact Hrun|].
  eapply IH; [exact E|]. eapply Hentry; eauto.
Qed.

(** *** Termination *)

Lemma sum_list_decrease {A} (f g : A -> nat) (l : list A) (x : A) :
  (forall y, (g y <= f y)%nat) -> x ∈ l -> (g x < f x)%nat ->
  (sum_list (g <$> l) < sum_list (f <$> l))%nat.
Proof.
  intros Hle Hx Hlt.
  assert (Hall : forall l', (sum_list (g <$> l') <= sum_list (f <$> l'))%nat).
  { induction l' as [|y l' IH]; csimpl; [lia|]. specialize (Hle y). lia. }
  induction l as [|y l IH]; [inversion Hx|].
  csimpl. apply elem_of_cons in Hx as [<-|Hx].
  - specialize (Hall l). lia.
  - specialize (IH Hx). specialize (Hle y). lia.
Qed.

Lemma edges_elem block b succ :
  Blocks graph !! block = Some b -> succ ∈ Succs b -> (block, succ) ∈ edges graph.
Proof.
  intros Hb Hsucc. unfold edges. apply list_elem_of_join.
  exists (pair block <$> Succs b). split.
  - apply list_elem_of_fmap. eauto.
  - apply list_elem_of_lookup. exists block.
    rewrite list_lookup_imap, Hb. reflexivity.
Qed.

(** Following an edge of the graph uses up some of the budget. *)
Lemma budget_enterEdge e tp counted :
  e ∈ edges graph -> enterEdge e tp = Some counted ->
  (budget graph counted < budget graph tp)%nat.
Proof.
  intros He (t & -> & Ht & Hsmall)%enterEdge_Some.
  assert (Ht1 : t <= 1).
  { destruct Hsmall as [Hnone|]; [|assumption]. rewrite Hnone in Ht. simpl in Ht. lia. }
  unfold budget. apply sum_list_decrease with e; [|exact He|].
  - intros y. destruct (decide (e = y)) as [<-|Hne].
    + rewrite lookup_insert_eq, Ht. simpl. lia.
    + rewrite lookup_insert_ne by exact Hne. lia.
  - rewrite lookup_insert_eq, Ht. simpl. lia.
Qed.

Lemma budget_empty : budget graph ∅ = (2 * length (edges graph))%nat.
Proof.
  unfold budget. induction (edges graph) as [|e l IH]; [reflexivity|].
  csimpl. rewrite IH, lookup_empty. simpl. lia.
Qed.

Lemma scanNodes_traversedPaths nodes l st :
  traversedPaths (scanNodes pass errorReturnIndices nodes l st) = traversedPaths st.
Proof. reflexivity. Qed.

(** With more fuel than budget the traversal comes to an end, and it does
    not add to the budget. *)
Lemma check_terminates fuel : forall block l st,
  (budget graph (traversedPaths st) < fuel)%nat ->
  exists st', check fuel block l st = Some st'
    /\ (budget graph (traversedPaths st') <= budget graph (traversedPaths st))%nat.
Proof.
  clear Hvalid.
  induction fuel as [|fuel IH]; intros block l st Hfuel; [lia|].
  rewrite check_unfold.
  destruct (Blocks graph !! block) as [b|] eqn:Hb; [|eauto].
  destruct (negb (Live b)); [eauto|].
  rewrite <- (scanNodes_traversedPaths (Nodes b) l st) in Hfuel |- *.
  revert Hfuel.
  generalize (scanNodes pass errorReturnIndices (Nodes b) l st) as st0.
  generalize 0%nat as i.
  assert (Hsub : Succs b ⊆ Succs b) by reflexivity. revert Hsub.
  generalize (Succs b) at 1 4 as succs.
  induction succs as [|succ rest IHs]; intros Hsub i st0 Hfuel; [eauto|].
  rewrite loop_cons.
  destruct (childEntry _ _ _ _ _ _ _) as [[forChild st1]|] eqn:Hc.
  - apply childEntry_Some in Hc as (counted & Hedge & Htp & _).
    apply budget_enterEdge in Hedge;
      [|eapply edges_elem; [exact Hb | set_solver]].
    rewrite <- Htp in Hedge.
    destruct (IH succ forChild st1 ltac:(lia)) as (st2 & -> & H2).
    destruct (IHs ltac:(set_solver) (S i) st2 ltac:(lia)) as (st' & -> & H').
    exists st'. split; [reflexivity | lia].
  - apply IHs; [set_solver | exact Hfuel].
Qed.

(** Every counter that is there is 1 or 2. *)
Lemma check_counters fuel block l st st' :
  check fuel block l st = Some st' ->
  (forall e t, traversedPaths st !! e = Some t -> 1 <= t <= 2) ->
  forall e t, traversedPaths st' !! e = Some t -> 1 <= t <= 2.
Proof.
  apply (check_invariant
           (fun st => forall e t, traversedPaths st !! e = Some t -> 1 <= t <= 2)).
  - intros b l0 st0 _ H. exact H.
  - intros block0 n l0 i succ st0 forChild st1 Hc H e t.
    apply childEntry_Some in Hc as (counted & Hedge & -> & _).
    apply enterEdge_Some in Hedge as (t0 & -> & Ht0 & Hsmall).
    destruct (decide ((block0, succ) = e)) as [<-|Hne].
    + rewrite lookup_insert_eq. intros [= <-].
      destruct (traversedPaths st0 !! (block0, succ)) as [t1|] eqn:E.
      * specialize (H _ _ E). simpl in Ht0. destruct Hsmall; [discriminate | lia].
      * simpl in Ht0. lia.
    + rewrite lookup_insert_ne by exact Hne. apply H.
Qed.

(** With enough fuel the linter comes to an end, and more fuel does not
    change what it reports. *)
Lemma lint_terminates fuel :
  (enoughFuel graph <= fuel)%nat ->
  exists outcome,
    _lintLogOrReturnErrors order pass errorReturnIndices graph fuel = Some outcome
    /\ _lintLogOrReturnErrors order pass errorReturnIndices graph (enoughFuel graph)
       = Some outcome.
Proof.
  intros Hfuel. unfold _lintLogOrReturnErrors.
  destruct (Blocks graph) eqn:Hblocks; [eauto|]. clear Hblocks.
  set (st0 := {| maps := _; traversedPaths := ∅; diagnostics := [] |}).
  destruct (check_terminates (enoughFuel graph) 0%nat (fresh (∅ : gset loc)) st0)
    as (st' & Hrun & _).
  { simpl. rewrite budget_empty. unfold enoughFuel. lia. }
  fold check. rewrite Hrun, (check_more_fuel _ _ _ _ _ _ Hfuel Hrun). eauto.
Qed.

End LogOrReturnFacts.

(** ** The edges the traversal follows *)

Section FollowedFacts.
Import LogOrReturn.
Context (order : RangeOrder (option Pos)) (pass : Pass).
Context (errorReturnIndices : list nat) (graph : CFG).

Local Abbreviation check :=
  (_checkBlockForLogsAndReturns order pass errorReturnIndices graph).
Local Abbreviation loop := (forSuccs order).
Local Abbreviation recorded :=
  (followed order pass errorReturnIndices graph).
Local Abbreviation recordedLoop := (forSuccsFollowed order).

(** The loop over [block.Succs], one turn: the test and the count are on
    the counter of the edge from the block to the successor, and the
    recursive call comes after them. *)
Lemma loop_turn (self : nat -> loc -> State -> option State)
    block n l i succ rest st :
  loop self block n l i (succ :: rest) st
  = if 1 <? default 0 (traversedPaths st !! (block, succ))
    then loop self block n l (S i) rest st
    else
      let counted :=
        {| maps := maps st;
           traversedPaths :=
             <[(block, succ) := default 0 (traversedPaths st !! (block, succ)) + 1]>
               (traversedPaths st);
           diagnostics := diagnostics st |} in
      let entry :=
        if Z.of_nat i <? Z.of_nat n - 1 then copyMap order l counted
        else (l, counted) in
      self succ entry.1 entry.2 ≫= loop self block n l (S i) rest.
Proof.
  rewrite loop_cons. unfold childEntry, enterEdge.
  destruct (traversedPaths st !! (block, succ)) as [times|]; cbn [default from_option id].
  - unfold id. destruct (1 <? times); [reflexivity|]. cbv zeta.
    destruct (if Z.of_nat i <? Z.of_nat n - 1 then _ else _) as [forChild st1].
    cbn [fst snd]. destruct (self succ forChild st1); reflexivity.
  - change (1 <? 0) with false. cbv iota zeta.
    destruct (if Z.of_nat i <? Z.of_nat n - 1 then _ else _) as [forChild st1].
    cbn [fst snd]. destruct (self succ forChild st1); reflexivity.
Qed.

Lemma recorded_unfold fuel block l run :
  recorded (S fuel) block l run
  = match Blocks graph !! block with
    | None => Some run
    | Some b =>
        if negb (Live b) then Some run
        else recordedLoop (recorded fuel) block
               (length (Succs b)) l 0%nat (Succs b)
               (scanNodes pass errorReturnIndices (Nodes b) l run.1, run.2)
    end.
Proof. reflexivity. Qed.

Lemma recordedLoop_cons self block n l i succ rest run :
  recordedLoop self block n l i (succ :: rest) run
  = match childEntry order block n l i succ run.1 with
    | None => recordedLoop self block n l (S i) rest run
    | Some (forChild, st1) =>
        match self succ forChild (st1, run.2 ++ [(block, succ)]) with
        | None => None
        | Some run2 =>
            recordedLoop self block n l (S i) rest run2
        end
    end.
Proof. reflexivity. Qed.

(** Without the record, the recorded traversal is the traversal. *)
Lemma recorded_erase fuel : forall block l st record,
  fst <$> recorded fuel block l (st, record) = check fuel block l st.
Proof.
  induction fuel as [|fuel IH]; intros block l st record; [reflexivity|].
  rewrite recorded_unfold, check_unfold.
  destruct (Blocks graph !! block) as [b|]; [|reflexivity].
  destruct (negb (Live b)); [reflexivity|]. cbn [fst snd].
  generalize (scanNodes pass errorReturnIndices (Nodes b) l st) as st0.
  generalize 0%nat as i. generalize record as record0.
  generalize (Succs b) at 2 4 as succs.
  induction succs as [|succ rest IHs]; intros record0 i st0; [reflexivity|].
  rewrite recordedLoop_cons, loop_cons. cbn [fst snd].
  destruct (childEntry _ _ _ _ _ _ _) as [[forChild st1]|]; [|apply IHs].
  rewrite <- (IH succ forChild st1 (record0 ++ [(block, succ)])).
  destruct (recorded fuel succ forChild _) as [[st2 record2]|]; [apply IHs | reflexivity].
Qed.

Lemma timesFollowed_app edge record1 record2 :
  timesFollowed edge (record1 ++ record2)
  = (timesFollowed edge record1 + timesFollowed edge record2)%nat.
Proof. unfold timesFollowed. rewrite filter_app, length_app. reflexivity. Qed.

Lemma timesFollowed_one edge e :
  timesFollowed edge [e] = if decide (e = edge) then 1%nat else 0%nat.
Proof.
  unfold timesFollowed. rewrite filter_cons, filter_nil.
  destruct (decide (e = edge)); reflexivity.
Qed.

(** What the record gains during a run: edges of the graph, each as often
    as its counter goes up. *)
Let gain (run run' : State * list (nat * nat)) : Prop :=
  exists new,
    run'.2 = run.2 ++ new
    /\ (forall edge,
          default 0 (traversedPaths run'.1 !! edge)
          = default 0 (traversedPaths run.1 !! edge)
            + Z.of_nat (timesFollowed edge new))
    /\ (forall edge, edge ∈ new -> edge ∈ edges graph).

Lemma gain_refl run : gain run run.
Proof.
  exists []. split; [rewrite app_nil_r; reflexivity|]. split.
  - intros edge. unfold timesFollowed. simpl. lia.
  - intros edge Hin. apply elem_of_nil in Hin. contradiction.
Qed.

Lemma gain_trans run1 run2 run3 : gain run1 run2 -> gain run2 run3 -> gain run1 run3.
Proof.
  intros (new1 & H1 & Hc1 & He1) (new2 & H2 & Hc2 & He2).
  exists (new1 ++ new2). split; [rewrite H2, H1, app_assoc; reflexivity|]. split.
  - intros edge. rewrite Hc2, Hc1, timesFollowed_app. lia.
  - intros edge [Hin|Hin]%elem_of_app; auto.
Qed.

Lemma gain_edge block succ n l i st forChild st1 record :
  (block, succ) ∈ edges graph ->
  childEntry order block n l i succ st = Some (forChild, st1) ->
  gain (st, record) (st1, record ++ [(block, succ)]).
Proof.
  intros Hedge (counted & Hcounted & Htp & _)%childEntry_Some.
  apply enterEdge_Some in Hcounted as (t & -> & Ht & _).
  exists [(block, succ)]. split; [reflexivity|]. cbn [fst snd]. split.
  - intros edge. rewrite Htp, timesFollowed_one.
    destruct (decide ((block, succ) = edge)) as [<-|Hne].
    + rewrite lookup_insert_eq, Ht. simpl. lia.
    + rewrite lookup_insert_ne by exact Hne. simpl. lia.
  - intros edge ->%list_elem_of_singleton. exact Hedge.
Qed.

Lemma recorded_gain fuel : forall block l run run',
  recorded fuel block l run = Some run' -> gain run run'.
Proof.
  induction fuel as [|fuel IH]; intros block l run run'; [discriminate|].
  rewrite recorded_unfold.
  destruct (Blocks graph !! block) as [b|] eqn:Hb;
    [|intros [= <-]; apply gain_refl].
  destruct (negb (Live b)); [intros [= <-]; apply gain_refl|].
  assert (Hscan : gain run
            (scanNodes pass errorReturnIndices (Nodes b) l run.1, run.2)).
  { exists []. split; [cbn [snd]; rewrite app_nil_r; reflexivity|]. split.
    - intros edge. unfold timesFollowed. simpl. lia.
    - intros edge Hin. apply elem_of_nil in Hin. contradiction. }
  revert Hscan.
  generalize (scanNodes pass errorReturnIndices (Nodes b) l run.1, run.2) as run0.
  generalize 0%nat as i.
  assert (Hsub : Succs b ⊆ Succs b) by reflexivity. revert Hsub.
  generalize (Succs b) at 1 4 as succs.
  induction succs as [|succ rest IHs]; intros Hsub i run0 Hrun0.
  - intros [= <-]. exact Hrun0.
  - rewrite recordedLoop_cons.
    destruct (childEntry _ _ _ _ _ _ _) as [[forChild st1]|] eqn:Hentry.
    + destruct (recorded fuel succ forChild _) as [run2|] eqn:Hchild; [|discriminate].
      apply IHs; [set_solver|].
      eapply gain_trans; [exact Hrun0|]. eapply gain_trans; [|eapply IH; exact Hchild].
      destruct run0 as [st0 record0]. eapply gain_edge; [|exact Hentry].
      eapply edges_elem; [exact Hb | set_solver].
    + apply IHs; [set_solver | exact Hrun0].
Qed.

End FollowedFacts.

(** C7.  In the loop over the successors of a block the counter is the one
    of the edge (block, successor): the edge is followed, by the recursive
    call, only when that counter (0 when there is none) is below 2, and the
    counter goes up by one before the call.  So, in a run that starts
    without counters, every edge that is followed is an edge of the graph, it
    is followed as often as its counter says, and at most twice; and on
    every graph, loops or not, the traversal comes to an end: fuel for two
    passes over every edge is enough, and more fuel gives the same
    outcome.  The edges followed are read off a record kept beside the
    traversal, which is the traversal when the record is dropped. *)
Theorem c7_edges_followed_twice_and_termination
    (order : RangeOrder (option Pos)) (pass : Pass)
    (errorReturnIndices : list nat) (graph : CFG) :
  (forall self block n loggedErrors i succ rest st,
     LogOrReturn.forSuccs order self block n loggedErrors i (succ :: rest) st
     = if 1 <? default 0 (LogOrReturn.traversedPaths st !! (block, succ))
       then LogOrReturn.forSuccs order self block n loggedErrors (S i) rest st
       else
         let counted :=
           {| LogOrReturn.maps := LogOrReturn.maps st;
              LogOrReturn.traversedPaths :=
                <[(block, succ) :=
                    default 0 (LogOrReturn.traversedPaths st !! (block, succ)) + 1]>
                  (LogOrReturn.traversedPaths st);
              LogOrReturn.diagnostics := LogOrReturn.diagnostics st |} in
         let entry :=
           if Z.of_nat i <? Z.of_nat n - 1
           then LogOrReturn.copyMap order loggedErrors counted
           else (loggedErrors, counted) in
         self succ entry.1 entry.2
           ≫= LogOrReturn.forSuccs order self block n loggedErrors (S i) rest)
  /\ (forall fuel block loggedErrors st record,
        fst <$> LogOrReturn.followed order pass errorReturnIndices graph
                  fuel block loggedErrors (st, record)
        = LogOrReturn._checkBlockForLogsAndReturns
            order pass errorReturnIndices graph fuel block loggedErrors st)
  /\ (forall fuel block loggedErrors st,
        (LogOrReturn.enoughFuel graph <= fuel)%nat ->
        LogOrReturn.traversedPaths st = ∅ ->
        exists st' record,
          LogOrReturn.followed order pass errorReturnIndices graph
            fuel block loggedErrors (st, []) = Some (st', record)
          /\ forall edge,
               (LogOrReturn.timesFollowed edge record <= 2)%nat
               /\ default 0 (LogOrReturn.traversedPaths st' !! edge)
                  = Z.of_nat (LogOrReturn.timesFollowed edge record)
               /\ (edge ∈ record -> edge ∈ LogOrReturn.edges graph))
  /\ (forall fuel block loggedErrors st st',
        (forall edge times,
           LogOrReturn.traversedPaths st !! edge = Some times -> 1 <= times <= 2) ->
        LogOrReturn._checkBlockForLogsAndReturns
          order pass errorReturnIndices graph fuel block loggedErrors st = Some st' ->
        forall edge times,
          LogOrReturn.traversedPaths st' !! edge = Some times -> 1 <= times <= 2)
  /\ (forall fuel,
        (LogOrReturn.enoughFuel graph <= fuel)%nat ->
        exists outcome,
          LogOrReturn._lintLogOrReturnErrors
            order pass errorReturnIndices graph fuel = Some outcome
          /\ LogOrReturn._lintLogOrReturnErrors
               order pass errorReturnIndices graph (LogOrReturn.enoughFuel graph)
             = Some outcome).
Proof.
  split; [|split; [|split; [|split]]].
  - intros. apply loop_turn.
  - intros. apply recorded_erase.
  - intros fuel block l st Hfuel Hempty.
    destruct (check_terminates order pass errorReturnIndices graph fuel block l st)
      as (st' & Hrun & _).
    { rewrite Hempty, budget_empty. unfold LogOrReturn.enoughFuel in Hfuel. lia. }
    pose proof (recorded_erase order pass errorReturnIndices graph fuel block l st [])
      as Herase.
    destruct (LogOrReturn.followed _ _ _ _ _ _ _ _) as [[st2 record]|] eqn:Hrec;
      [|rewrite Hrun in Herase; discriminate].
    rewrite Hrun in Herase. injection Herase as ->.
    exists st', record. split; [reflexivity|].
    apply recorded_gain in Hrec as (new & Hnew & Hcount & Hedges).
    cbn [fst snd] in Hnew, Hcount. rewrite app_nil_l in Hnew. subst new.
    intros edge. specialize (Hcount edge).
    rewrite Hempty, lookup_empty in Hcount. cbn [default from_option] in Hcount.
    split; [|split; [lia | apply Hedges]].
    destruct (LogOrReturn.traversedPaths st' !! edge) as [times|] eqn:Htimes.
    + assert (1 <= times <= 2).
      { eapply (check_counters order pass errorReturnIndices graph); eauto.
        intros e t. rewrite Hempty, lookup_empty. discriminate. }
      simpl in Hcount. lia.
    + simpl in Hcount. lia.
  - intros fuel block l st st' Hst Hrun. eapply check_counters; eauto.
  - apply lint_terminates.
Qed.

Lemma c7_edges_followed_twice_and_termination_witness :
  (exists st' record,
     LogOrReturn.followed Examples.ascending Examples.logPass [0%nat]
       Examples.loggedInLoop 100 0 1%positive (Examples.atStart, [])
     = Some (st', record)
     /\ (forall edge,
           (LogOrReturn.timesFollowed edge record <= 2)%nat
           /\ default 0 (LogOrReturn.traversedPaths st' !! edge)
              = Z.of_nat (LogOrReturn.timesFollowed edge record)
           /\ (edge ∈ record -> edge ∈ LogOrReturn.edges Examples.loggedInLoop))
     /\ LogOrReturn.timesFollowed (3%nat, 1%nat) record = 2%nat
     /\ LogOrReturn.timesFollowed (0%nat, 3%nat) record = 1%nat)
  /\ exists outcome,
       LogOrReturn._lintLogOrReturnErrors
         Examples.ascending Examples.logPass [0%nat] Examples.loggedInLoop 100
       = Some outcome.
Proof.
  destruct (c7_edges_followed_twice_and_termination
              Examples.ascending Examples.logPass [0%nat] Examples.loggedInLoop)
    as (_ & _ & Hrecord & _ & Hend).
  split.
  - destruct (Hrecord 100%nat 0%nat 1%positive Examples.atStart)
      as (st' & record & Hrun & Hall); [vm_compute; lia | reflexivity |].
    exists st', record. split; [exact Hrun|]. split; [exact Hall|].
    vm_compute in Hrun. injection Hrun as <- <-.
    split; vm_compute; reflexivity.
  - destruct (Hend 100%nat) as (outcome & Hrun & _).
    + vm_compute. lia.
    + exists outcome. exact Hrun.
Defined.

(** ** Maps and their copies *)

Section FrameFacts.
Import LogOrReturn.
Context (order : RangeOrder (option Pos)) (pass : Pass).
Context (errorReturnIndices : list nat) (graph : CFG).

Local Abbreviation check :=
  (_checkBlockForLogsAndReturns order pass errorReturnIndices graph).
Local Abbreviation loop := (forSuccs order).

Lemma scanNodes_maps nodes l st :
  l ∈ dom (maps (scanNodes pass errorReturnIndices nodes l st))
  /\ dom (maps st) ⊆ dom (maps (scanNodes pass errorReturnIndices nodes l st))
  /\ forall l', l' <> l ->
       maps (scanNodes pass errorReturnIndices nodes l st) !! l' = maps st !! l'.
Proof.
  unfold scanNodes. cbn [maps]. rewrite dom_insert_L. split; [set_solver|].
  split; [set_solver|]. intros l' Hne. apply lookup_insert_ne. congruence.
Qed.

(** The loop over the successors changes no map that was there before it,
    the map of the block apart; and not the map of the block either as long
    as the last successor is not reached. *)
Lemma loop_frame (self : nat -> loc -> State -> option State) block n l :
  (forall succ l0 st0 st1, self succ l0 st0 = Some st1 ->
     dom (maps st0) ⊆ dom (maps st1)
     /\ forall l', l' <> l0 -> l' ∈ dom (maps st0) ->
          maps st1 !! l' = maps st0 !! l') ->
  forall succs i st st',
    loop self block n l i succs st = Some st' ->
    dom (maps st) ⊆ dom (maps st')
    /\ forall l', l' ∈ dom (maps st) ->
         l' <> l \/ Z.of_nat i + Z.of_nat (length succs) <= Z.of_nat n - 1 ->
         maps st' !! l' = maps st !! l'.
Proof.
  intros Hself. induction succs as [|succ rest IH]; intros i st st' Hrun.
  - injection Hrun as <-. auto.
  - rewrite loop_cons in Hrun.
    destruct (childEntry _ _ _ _ _ _ _) as [[forChild st1]|] eqn:Hc.
    + destruct (self succ forChild st1) as [st2|] eqn:Hchild; [|discriminate].
      apply IH in Hrun as [Hdom2 Hrest].
      apply Hself in Hchild as [Hdom1 Hchild].
      apply childEntry_Some in Hc as (_ & _ & _ & _ & Hmaps).
      destruct (Z.of_nat i <? Z.of_nat n - 1) eqn:Hi.
      * destruct Hmaps as [-> (copied & Hst1 & _)].
        assert (Hdom0 : dom (maps st) ⊆ dom (maps st1)).
        { rewrite Hst1, dom_insert_L. set_solver. }
        split; [set_solver|]. intros l' Hl' Hcond.
        assert (Hfresh : l' <> fresh (dom (maps st))).
        { intros ->. exact (is_fresh _ Hl'). }
        rewrite Hrest, Hchild; [| exact Hfresh | set_solver | set_solver |].
        -- rewrite Hst1. apply lookup_insert_ne. congruence.
        -- destruct Hcond as [?|Hcond]; [auto|]. right. cbn [length] in Hcond. lia.
      * destruct Hmaps as [-> Hst1]. rewrite Hst1 in *.
        split; [set_solver|]. intros l' Hl' Hcond.
        apply Z.ltb_ge in Hi.
        assert (Hne : l' <> l).
        { destruct Hcond as [?|Hcond]; [assumption|]. cbn [length] in Hcond. lia. }
        rewrite Hrest, Hchild; auto.
    + apply IH in Hrun as [Hdom Hrest]. split; [exact Hdom|].
      intros l' Hl' Hcond. apply Hrest; [exact Hl'|].
      destruct Hcond as [?|Hcond]; [auto|]. right. cbn [length] in Hcond. lia.
Qed.

(** A call of the traversal changes no map that was there before it, the
    map it was handed apart. *)
Lemma check_frame fuel : forall block l st st',
  check fuel block l st = Some st' ->
  dom (maps st) ⊆ dom (maps st')
  /\ forall l', l' <> l -> l' ∈ dom (maps st) -> maps st' !! l' = maps st !! l'.
Proof.
  induction fuel as [|fuel IH]; intros block l st st'; [discriminate|].
  rewrite check_unfold.
  destruct (Blocks graph !! block) as [b|]; [|intros [= <-]; auto].
  destruct (negb (Live b)); [intros [= <-]; auto|].
  intros Hrun. apply (loop_frame _ _ _ _ IH) in Hrun as [Hdom Hrest].
  destruct (scanNodes_maps (Nodes b) l st) as (_ & Hdom0 & Hscan).
  split; [set_solver|]. intros l' Hne Hl'.
  rewrite Hrest; [apply Hscan, Hne | set_solver | auto].
Qed.

End FrameFacts.

(** C8.  In the loop over the successors of a block, when the analyses of
    the successors before [succ] are over and the edge to [succ] is
    followed: the map handed to [succ] has the contents the map of the block
    had when its nodes had been scanned, whatever the earlier analyses did;
    when [succ] is not the last successor that map is a new one, which no
    one else holds, and the analysis of [succ] leaves the map of the block
    as it was; when [succ] is the last successor it is the map of the
    block. *)
Theorem c8_siblings_do_not_share_state
    (order : RangeOrder (option Pos)) (pass : Pass)
    (errorReturnIndices : list nat) (graph : CFG) (fuel : nat)
    (block : nat) (b : Block) (loggedErrors : LogOrReturn.loc)
    (st0 : LogOrReturn.State)
    (before : list nat) (succ : nat) (after : list nat)
    (stk : LogOrReturn.State) (forChild : LogOrReturn.loc)
    (stc : LogOrReturn.State) :
  ValidOrder order ->
  Blocks graph !! block = Some b ->
  Succs b = before ++ succ :: after ->
  LogOrReturn.forSuccs order
    (LogOrReturn._checkBlockForLogsAndReturns order pass errorReturnIndices graph fuel)
    block (length (Succs b)) loggedErrors 0%nat before
    (LogOrReturn.scanNodes pass errorReturnIndices (Nodes b) loggedErrors st0)
  = Some stk ->
  LogOrReturn.childEntry order block (length (Succs b)) loggedErrors
    (length before) succ stk
  = Some (forChild, stc) ->
  let atExit :=
    LogOrReturn.contents loggedErrors
      (LogOrReturn.scanNodes pass errorReturnIndices (Nodes b) loggedErrors st0) in
  LogOrReturn.contents forChild stc = atExit
  /\ LogOrReturn.contents loggedErrors stc = atExit
  /\ (after <> [] ->
      (forChild ∉ dom (LogOrReturn.maps stk))
      /\ forChild <> loggedErrors
      /\ forall stc',
           LogOrReturn._checkBlockForLogsAndReturns
             order pass errorReturnIndices graph fuel succ forChild stc = Some stc' ->
           LogOrReturn.contents loggedErrors stc' = atExit)
  /\ (after = [] -> forChild = loggedErrors).
Proof.
  intros Hvalid Hb Hsuccs Hbefore Hentry atExit.
  set (exit := LogOrReturn.scanNodes pass errorReturnIndices (Nodes b) loggedErrors st0)
    in *.
  destruct (scanNodes_maps pass errorReturnIndices (Nodes b) loggedErrors st0)
    as (Hl & _ & _). fold exit in Hl.
  assert (Hlen : length (Succs b) = (length before + S (length after))%nat).
  { rewrite Hsuccs, length_app. reflexivity. }
  apply (loop_frame order) in Hbefore as [Hdom Hkeep]; [|apply check_frame].
  assert (Hk : LogOrReturn.contents loggedErrors stk = atExit).
  { unfold atExit, LogOrReturn.contents. rewrite Hkeep; [reflexivity | exact Hl |].
    right. lia. }
  assert (Hlk : loggedErrors ∈ dom (LogOrReturn.maps stk)) by set_solver.
  apply childEntry_Some in Hentry as (_ & _ & _ & _ & Hmaps).
  destruct (Z.of_nat (length before) <? Z.of_nat (length (Succs b)) - 1) eqn:Hi.
  - destruct Hmaps as [-> (copied & Hstc & Hcopied)].
    assert (Hfresh : fresh (dom (LogOrReturn.maps stk)) <> loggedErrors).
    { intros Heq. apply (is_fresh (dom (LogOrReturn.maps stk))). rewrite Heq. exact Hlk. }
    assert (Hc : LogOrReturn.contents loggedErrors stc = atExit).
    { rewrite <- Hk. unfold LogOrReturn.contents.
      rewrite Hstc, lookup_insert_ne by exact Hfresh. reflexivity. }
    split; [|split; [exact Hc|split]].
    + unfold LogOrReturn.contents at 1. rewrite Hstc, lookup_insert_eq. simpl.
      rewrite (Hcopied Hvalid). exact Hk.
    + intros _. split; [apply is_fresh|]. split; [exact Hfresh|].
      intros stc' Hchild.
      apply (check_frame order pass errorReturnIndices graph) in Hchild as [_ Hchild].
      rewrite <- Hc. unfold LogOrReturn.contents. rewrite Hchild; [reflexivity| |].
      * congruence.
      * rewrite Hstc, dom_insert_L. set_solver.
    + intros ->. apply Z.ltb_lt in Hi. simpl in Hlen. lia.
  - destruct Hmaps as [-> Hstc].
    assert (Hc : LogOrReturn.contents loggedErrors stc = atExit).
    { rewrite <- Hk. unfold LogOrReturn.contents. rewrite Hstc. reflexivity. }
    split; [exact Hc|]. split; [exact Hc|]. split; [|reflexivity].
    intros Hafter. apply Z.ltb_ge in Hi. destruct after; [congruence|].
    simpl in Hlen. lia.
Qed.

Lemma c8_siblings_do_not_share_state_witness :
  LogOrReturn.childEntry Examples.ascending 0 2 1%positive 0 1
    (LogOrReturn.scanNodes Examples.logPass [0%nat]
       [Examples.assignErr; Examples.var 25 "cond"] 1%positive Examples.atStart)
  = Some (2%positive, Examples.atFirstBranch)
  /\ LogOrReturn._checkBlockForLogsAndReturns Examples.ascending Examples.logPass
       [0%nat] Examples.loggedInBothBranches 5 1 2%positive Examples.atFirstBranch
     = Some Examples.afterFirstBranch
  /\ LogOrReturn.contents 2%positive Examples.afterFirstBranch
     = {[1%positive := Some 42]}
  /\ LogOrReturn.contents 1%positive Examples.afterFirstBranch
     = {[1%positive := None]}
  /\ exists forChild stc,
       LogOrReturn.childEntry Examples.ascending 0 2 1%positive 1 3
         Examples.afterFirstBranch
       = Some (forChild, stc)
       /\ forChild = 1%positive
       /\ LogOrReturn.contents forChild stc = {[1%positive := None]}.
Proof.
  assert (Hexit : LogOrReturn.contents 1%positive
            (LogOrReturn.scanNodes Examples.logPass [0%nat]
               [Examples.assignErr; Examples.var 25 "cond"] 1%positive
               Examples.atStart)
          = {[1%positive := None]}) by (vm_compute; reflexivity).
  assert (Hfirst : LogOrReturn.childEntry Examples.ascending 0 2 1%positive 0 1
            (LogOrReturn.scanNodes Examples.logPass [0%nat]
               [Examples.assignErr; Examples.var 25 "cond"] 1%positive
               Examples.atStart)
          = Some (2%positive, Examples.atFirstBranch)) by (vm_compute; reflexivity).
  assert (Hchild : LogOrReturn._checkBlockForLogsAndReturns Examples.ascending
            Examples.logPass [0%nat] Examples.loggedInBothBranches 5 1 2%positive
            Examples.atFirstBranch
          = Some Examples.afterFirstBranch) by (vm_compute; reflexivity).
  assert (Hbefore : LogOrReturn.forSuccs Examples.ascending
            (LogOrReturn._checkBlockForLogsAndReturns Examples.ascending
               Examples.logPass [0%nat] Examples.loggedInBothBranches 5)
            0 2 1%positive 0 [1%nat]
            (LogOrReturn.scanNodes Examples.logPass [0%nat]
               [Examples.assignErr; Examples.var 25 "cond"] 1%positive
               Examples.atStart)
          = Some Examples.afterFirstBranch) by (vm_compute; reflexivity).
  split; [exact Hfirst|]. split; [exact Hchild|].
  split; [vm_compute; reflexivity|]. split.
  - destruct (c8_siblings_do_not_share_state
                Examples.ascending Examples.logPass [0%nat]
                Examples.loggedInBothBranches 5 0
                {| Live := true;
                   Nodes := [Examples.assignErr; Examples.var 25 "cond"];
                   Succs := [1%nat; 3%nat] |}
                1%positive Examples.atStart [] 1 [3%nat] _
                2%positive Examples.atFirstBranch
                ascending_valid eq_refl eq_refl eq_refl Hfirst)
      as (_ & _ & Hsibling & _).
    destruct Hsibling as (_ & _ & Hkept); [discriminate|].
    rewrite (Hkept _ Hchild). exact Hexit.
  - destruct (LogOrReturn.childEntry Examples.ascending 0 2 1%positive 1 3
                Examples.afterFirstBranch)
      as [[forChild stc]|] eqn:Hentry; [|revert Hentry; vm_compute; discriminate].
    exists forChild, stc. split; [reflexivity|].
    destruct (c8_siblings_do_not_share_state
                Examples.ascending Examples.logPass [0%nat]
                Examples.loggedInBothBranches 5 0
                {| Live := true;
                   Nodes := [Examples.assignErr; Examples.var 25 "cond"];
                   Succs := [1%nat; 3%nat] |}
                1%positive Examples.atStart [1%nat] 3 [] Examples.afterFirstBranch
                forChild stc
                ascending_valid eq_refl eq_refl Hbefore Hentry)
      as (Hhanded & _ & _ & Hlast).
    split; [apply Hlast; reflexivity|]. rewrite Hhanded. exact Hexit.
Defined.

(** ** Only assigned errors are tracked *)

Section AssignedFacts.
Import lintutil LogLint LogOrReturn.
Context (order : RangeOrder (option Pos)) (Hvalid : ValidOrder order).
Context (pass : Pass) (errorReturnIndices : list nat) (graph : CFG).

Local Arguments Inspect : simpl never.

(** Every key of the map is assigned in the graph, and every diagnostic
    sits at an identifier of an object assigned in the graph. *)
Let tracked (m : gmap Object (option Pos)) : Prop :=
  forall o, is_Some (m !! o) -> assignedIn pass graph o = true.

Let justified (ds : list Diagnostic) : Prop :=
  forall d, d ∈ ds ->
    exists ident o,
      DiagPos d = NamePos ident /\ ObjectOf pass ident = Some o
      /\ assignedIn pass graph o = true /\ reportedAt pass ident d.

Lemma assignedIn_intro b node Lhs Rhs ident o :
  b ∈ Blocks graph -> node ∈ Nodes b -> AssignStmt Lhs Rhs ∈ subnodes node ->
  IdentExpr ident ∈ Lhs -> ObjectOf pass ident = Some o ->
  assignedIn pass graph o = true.
Proof.
  intros Hb Hnode Hassign Hident Ho. unfold assignedIn.
  apply existsb_exists. exists b. split; [apply list_elem_of_In, Hb|].
  apply existsb_exists. exists node. split; [apply list_elem_of_In, Hnode|].
  apply existsb_exists. exists (AssignStmt Lhs Rhs).
  split; [apply list_elem_of_In, Hassign|]. simpl.
  apply existsb_exists. exists (IdentExpr ident).
  split; [apply list_elem_of_In, Hident|]. apply bool_decide_eq_true, Ho.
Qed.

Lemma justified_snoc ds ident o d :
  justified ds -> DiagPos d = NamePos ident -> ObjectOf pass ident = Some o ->
  assignedIn pass graph o = true -> reportedAt pass ident d ->
  justified (ds ++ [d]).
Proof.
  intros Hds Hpos Ho Hassigned Hd d' [Hin|Hin]%elem_of_app; [auto|].
  apply list_elem_of_singleton in Hin as ->. exists ident, o. auto.
Qed.

Lemma logged_tracked d (st : gmap Object (option Pos) * list Diagnostic) :
  tracked st.1 /\ justified st.2 ->
  tracked (logged pass d st).2.1 /\ justified (logged pass d st).2.2.
Proof.
  intros [Hm Hds]. destruct d; try (split; assumption). simpl.
  destruct (ObjectOf pass i) as [o|] eqn:Ho; [|split; assumption].
  destruct (st.1 !! o) as [[alreadyLogged|]|] eqn:Hlook; simpl.
  - split; [assumption|].
    apply (justified_snoc _ i o);
      [exact Hds | reflexivity | exact Ho | apply Hm; rewrite Hlook; eauto
      | exists alreadyLogged; auto].
  - split; [|assumption]. intros o' Ho'.
    destruct (decide (o = o')) as [<-|Hne].
    + apply Hm. rewrite Hlook. eauto.
    + rewrite lookup_insert_ne in Ho' by exact Hne. auto.
  - split; assumption.
Qed.

Lemma returned_tracked d (st : gmap Object (option Pos) * list Diagnostic) :
  tracked st.1 /\ justified st.2 ->
  tracked (returned pass d st).2.1 /\ justified (returned pass d st).2.2.
Proof.
  intros [Hm Hds]. destruct d; try (split; assumption). simpl.
  destruct (ObjectOf pass i) as [o|] eqn:Ho; [|split; assumption].
  destruct (st.1 !! o) as [[logPos|]|] eqn:Hlook; simpl; try (split; assumption).
  split; [assumption|].
  apply (justified_snoc _ i o);
    [exact Hds | reflexivity | exact Ho | apply Hm; rewrite Hlook; eauto
    | exists logPos; auto].
Qed.

Lemma assigned_tracked Lhs :
  forall m,
  (forall ident o, IdentExpr ident ∈ Lhs -> ObjectOf pass ident = Some o ->
     assignedIn pass graph o = true) ->
  tracked m -> tracked (fold_left (assigned pass) Lhs m).
Proof.
  induction Lhs as [|target rest IH]; intros m Hlhs Hm; [exact Hm|].
  cbn [fold_left]. apply IH; [intros; eapply Hlhs; eauto; set_solver|].
  destruct target; try exact Hm. simpl.
  destruct (ObjectOf pass i) as [o|] eqn:Ho; [|exact Hm].
  destruct (String.eqb _ _); [|exact Hm].
  intros o' Ho'. destruct (decide (o = o')) as [<-|Hne].
  - eapply Hlhs; [|exact Ho]. set_solver.
  - rewrite lookup_insert_ne in Ho' by exact Hne. auto.
Qed.

Lemma visit_tracked b node (st : gmap Object (option Pos) * list Diagnostic) :
  b ∈ Blocks graph -> node ∈ Nodes b ->
  tracked st.1 /\ justified st.2 ->
  tracked (Inspect (visit pass errorReturnIndices) node st).1
  /\ justified (Inspect (visit pass errorReturnIndices) node st).2.
Proof.
  intros Hb Hnode.
  apply (Inspect_invariant (visit pass errorReturnIndices)
           (fun st => tracked st.1 /\ justified st.2)).
  intros d st' Hd [Hm Hds]. destruct d; try (split; assumption); simpl.
  - destruct (negb _); [split; assumption|]. cbn [snd].
    apply (Inspect_invariant (logged pass)
             (fun st => tracked st.1 /\ justified st.2)); [|split; assumption].
    intros d' st'' _. apply logged_tracked.
  - split; [|assumption]. apply assigned_tracked; [|assumption].
    intros ident o Hident Ho. eapply assignedIn_intro; eauto.
  - generalize dependent st'. induction errorReturnIndices as [|idx rest IH];
      intros st' Hm Hds; [split; assumption|].
    cbn [fold_left]. destruct (_ !! idx) as [value|].
    + apply IH;
        apply (Inspect_invariant (returned pass)
                 (fun st => tracked st.1 /\ justified st.2));
        try (split; assumption); intros d' st'' _; apply returned_tracked.
    + apply IH; assumption.
Qed.

Lemma check_tracked fuel block l st st' :
  _checkBlockForLogsAndReturns order pass errorReturnIndices graph fuel block l st
    = Some st' ->
  (forall l0 m, maps st !! l0 = Some m -> tracked m) /\ justified (diagnostics st) ->
  (forall l0 m, maps st' !! l0 = Some m -> tracked m) /\ justified (diagnostics st').
Proof.
  apply (check_invariant order pass errorReturnIndices graph
           (fun st => (forall l0 m, maps st !! l0 = Some m -> tracked m)
                      /\ justified (diagnostics st))).
  - intros b l0 st0 Hb [Hmaps Hds]. unfold scanNodes.
    assert (Hscan : forall nodes ns, nodes ⊆ Nodes b ->
      tracked ns.1 /\ justified ns.2 ->
      tracked (fold_left (fun ns blockNode =>
                 Inspect (visit pass errorReturnIndices) blockNode ns) nodes ns).1
      /\ justified (fold_left (fun ns blockNode =>
                 Inspect (visit pass errorReturnIndices) blockNode ns) nodes ns).2).
    { induction nodes as [|node rest IH]; intros ns Hsub Hns; [exact Hns|].
      cbn [fold_left]. apply IH; [set_solver|].
      apply (visit_tracked b); [exact Hb | set_solver | exact Hns]. }
    destruct (Hscan (Nodes b) (contents l0 st0, diagnostics st0)) as [H1 H2];
      [reflexivity | |].
    { split; [|exact Hds]. unfold contents.
      destruct (maps st0 !! l0) as [m|] eqn:E; simpl; [eauto|].
      intros o [? Ho]. rewrite lookup_empty in Ho. discriminate. }
    cbn [maps diagnostics]. split; [|exact H2].
    intros l1 m. destruct (decide (l0 = l1)) as [<-|Hne].
    + rewrite lookup_insert_eq. intros [= <-]. exact H1.
    + rewrite lookup_insert_ne by exact Hne. apply Hmaps.
  - intros block0 n l0 i succ st0 forChild st1 Hentry [Hmaps Hds].
    apply childEntry_Some in Hentry as (_ & _ & _ & -> & Hst1).
    split; [|exact Hds].
    destruct (Z.of_nat i <? Z.of_nat n - 1).
    + destruct Hst1 as [-> (copied & -> & Hcopied)]. intros l1 m.
      destruct (decide (fresh (dom (maps st0)) = l1)) as [<-|Hne].
      * rewrite lookup_insert_eq. intros [= <-]. rewrite (Hcopied Hvalid).
        unfold contents. destruct (maps st0 !! l0) as [m|] eqn:E; simpl; [eauto|].
        intros o [? Ho]. rewrite lookup_empty in Ho. discriminate.
      * rewrite lookup_insert_ne by exact Hne. apply Hmaps.
    + destruct Hst1 as [_ ->]. exact Hmaps.
Qed.

End AssignedFacts.

(** C10.  Only the objects assigned somewhere in the nodes of the graph
    enter [loggedErrors].  The linter comes to an end, and every diagnostic
    it reports sits at an identifier of an object that is assigned in the
    graph, so at no identifier of an error that is never assigned there (a
    parameter, a variable of the package), however often it is logged or
    returned. *)
Theorem c10_unassigned_errors_exempt
    (order : RangeOrder (option Pos)) (pass : Pass)
    (errorReturnIndices : list nat) (graph : CFG) (obj : Object) :
  ValidOrder order ->
  LogOrReturn.assignedIn pass graph obj = false ->
  exists outcome,
    LogOrReturn._lintLogOrReturnErrors order pass errorReturnIndices graph
      (LogOrReturn.enoughFuel graph) = Some outcome
    /\ forall diags, outcome = LogOrReturn.Finished diags ->
       forall d, d ∈ diags ->
       exists ident o,
         DiagPos d = NamePos ident /\ ObjectOf pass ident = Some o /\ o <> obj
         /\ LogOrReturn.assignedIn pass graph o = true
         /\ LogOrReturn.reportedAt pass ident d.
Proof.
  intros Hvalid Hobj.
  destruct (lint_terminates order pass errorReturnIndices graph
              (LogOrReturn.enoughFuel graph) (le_n _)) as (outcome & Hrun & _).
  exists outcome. split; [exact Hrun|]. intros diags -> d Hd.
  unfold LogOrReturn._lintLogOrReturnErrors in Hrun.
  destruct (Blocks graph); [discriminate|].
  destruct (LogOrReturn._checkBlockForLogsAndReturns _ _ _ _ _ _ _ _) as [st'|] eqn:Hcheck;
    [|discriminate].
  injection Hrun as <-.
  apply (check_tracked order Hvalid) in Hcheck as [_ Hds].
  - destruct (Hds d Hd) as (ident & o & Hpos & Ho & Hassigned & Hreported).
    exists ident, o. repeat split; auto. congruence.
  - split.
    + intros l0 m. cbn [LogOrReturn.maps].
      intros [<- <-]%lookup_singleton_Some o [? Ho].
      rewrite lookup_empty in Ho. discriminate.
    + intros d0 Hd0. inversion Hd0.
Qed.

Lemma c10_unassigned_errors_exempt_witness :
  exists outcome,
    LogOrReturn._lintLogOrReturnErrors Examples.ascending Examples.logPass [0%nat]
      Examples.parameterLogged (LogOrReturn.enoughFuel Examples.parameterLogged)
    = Some outcome
    /\ forall diags, outcome = LogOrReturn.Finished diags ->
       forall d, d ∈ diags ->
       exists ident o,
         DiagPos d = NamePos ident /\ ObjectOf Examples.logPass ident = Some o
         /\ o <> 1%positive
         /\ LogOrReturn.assignedIn Examples.logPass Examples.parameterLogged o = true
         /\ LogOrReturn.reportedAt Examples.logPass ident d.
Proof.
  apply (c10_unassigned_errors_exempt Examples.ascending Examples.logPass [0%nat]
           Examples.parameterLogged 1%positive).
  - apply ascending_valid.
  - vm_compute. reflexivity.
Defined.

(** ** One block: assigned, logged, returned *)

Section ScanFacts.
Import lintutil LogLint LogOrReturn.
Context (pass : Pass) (errorReturnIndices : list nat).

(** [err := doX()] *)
Lemma scan_assigned errAssigned doX errorObj (m : gmap Object (option Pos)) ds :
  ObjectOf pass errAssigned = Some errorObj ->
  TypeString pass errorObj = "error" ->
  receiverIsLogger pass (ObjectOf pass doX) = false ->
  Inspect (visit pass errorReturnIndices)
    (AssignStmt [IdentExpr errAssigned] [CallExpr (IdentExpr doX) []]) (m, ds)
  = (<[errorObj := None]> m, ds).
Proof.
  intros HA Herr HdoX. simpl. rewrite HA, Herr, HdoX. reflexivity.
Qed.

(** [logger.Warn(err)], with [err] in the map. *)
Lemma scan_logged logger Warn errLogged errorObj (m : gmap Object (option Pos)) ds :
  ObjectOf pass errLogged = Some errorObj ->
  receiverIsLogger pass (ObjectOf pass Warn) = true ->
  (forall o, ObjectOf pass logger = Some o -> m !! o = None) ->
  (forall o, ObjectOf pass Warn = Some o -> m !! o = None) ->
  Inspect (visit pass errorReturnIndices)
    (ExprStmt (CallExpr (SelectorExpr (IdentExpr logger) Warn) [IdentExpr errLogged]))
    (m, ds)
  = match m !! errorObj with
    | None => (m, ds)
    | Some None => (<[errorObj := Some (NamePos errLogged)]> m, ds)
    | Some (Some alreadyLogged) =>
        (m, ds ++ [loggedTwice pass errLogged alreadyLogged])
    end.
Proof.
  intros HL HWarn Hlogger HWarnObj. simpl. rewrite HWarn. simpl.
  destruct (ObjectOf pass logger) as [o1|] eqn:E1; simpl;
    [rewrite (Hlogger o1 eq_refl); simpl|];
    (destruct (ObjectOf pass Warn) as [o2|] eqn:E2; simpl;
       [rewrite (HWarnObj o2 eq_refl); simpl|];
     rewrite HL; simpl; destruct (m !! errorObj) as [[]|]; reflexivity).
Qed.

(** [return err], with [err] at a position of an error result. *)
Lemma scan_returned p errReturned errorObj (m : gmap Object (option Pos)) ds :
  ObjectOf pass errReturned = Some errorObj ->
  Inspect (visit pass [0%nat]) (ReturnStmt p [IdentExpr errReturned]) (m, ds)
  = match m !! errorObj with
    | Some (Some logPos) => (m, ds ++ [loggedAndReturned pass errReturned logPos])
    | _ => (m, ds)
    end.
Proof.
  intros HR. simpl. rewrite HR. simpl. destruct (m !! errorObj) as [[]|]; reflexivity.
Qed.

End ScanFacts.

(** C4.  For [err := doX(); logger.Warn(err); return err] in a function
    whose one result has the type [error], the linter reports exactly one
    diagnostic; it says that errors may be logged or returned but not both,
    names the place of the logging, and sits at the [err] of the return.
    The body is the first block of the graph and has no successor; the
    other blocks of the graph, the dead code after the return, do not
    matter. *)
Theorem c4_logged_and_returned_once
    (order : RangeOrder (option Pos)) (pass : Pass)
    (errAssigned errLogged errReturned logger Warn doX : Ident)
    (errorObj : Object) (names : list Ident) (typePos returnPos : Pos)
    (others : list Block) (fuel : nat) :
  ObjectOf pass errAssigned = Some errorObj ->
  ObjectOf pass errLogged = Some errorObj ->
  ObjectOf pass errReturned = Some errorObj ->
  TypeString pass errorObj = "error" ->
  LogLint.receiverIsLogger pass (ObjectOf pass Warn) = true ->
  LogLint.receiverIsLogger pass (ObjectOf pass doX) = false ->
  ObjectOf pass logger <> Some errorObj ->
  ObjectOf pass Warn <> Some errorObj ->
  LogOrReturn._lintLogOrReturnErrors order pass
    (LogOrReturn._errorResultIndices
       {| Results := Some [mkField names (IdentExpr (mkIdent typePos "error"))] |})
    {| Blocks := {| Live := true;
                    Nodes := [AssignStmt [IdentExpr errAssigned]
                                         [CallExpr (IdentExpr doX) []];
                              ExprStmt (CallExpr (SelectorExpr (IdentExpr logger) Warn)
                                                 [IdentExpr errLogged]);
                              ReturnStmt returnPos [IdentExpr errReturned]];
                    Succs := [] |} :: others |}
    (S fuel)
  = Some (LogOrReturn.Finished
            [ {| DiagPos := NamePos errReturned;
                 Message := "Errors may be logged or returned, but not both. "
                            +:+ "Previously logged at "
                            +:+ PositionString pass (NamePos errLogged)
                            +:+ ". See https://khanacademy.atlassian.net/l/c/j9btTeyW" |} ]).
Proof.
  intros HA HL HR Herr HWarn HdoX Hlogger HWarnObj.
  assert (Hother : forall ident o,
    ObjectOf pass ident <> Some errorObj -> ObjectOf pass ident = Some o ->
    (<[errorObj := None]> ∅ : gmap Object (option Pos)) !! o = None).
  { intros ident o Hne Ho. rewrite lookup_insert_ne by congruence. apply lookup_empty. }
  unfold LogOrReturn._lintLogOrReturnErrors. cbn [Blocks].
  rewrite check_unfold. cbn [Blocks lookup list_lookup Live negb Succs Nodes length].
  unfold LogOrReturn.scanNodes. cbn [fold_left LogOrReturn.diagnostics].
  replace (LogOrReturn._errorResultIndices _) with [0%nat] by reflexivity.
  replace (LogOrReturn.contents _ _) with (∅ : gmap Object (option Pos))
    by (unfold LogOrReturn.contents; simpl; rewrite lookup_singleton_eq; reflexivity).
  rewrite (scan_assigned pass [0%nat] errAssigned doX errorObj) by assumption.
  rewrite (scan_logged pass [0%nat] logger Warn errLogged errorObj)
    by eauto using Hother.
  rewrite lookup_insert_eq.
  rewrite (scan_returned pass returnPos errReturned errorObj) by assumption.
  rewrite lookup_insert_eq. reflexivity.
Qed.

Lemma c4_logged_and_returned_once_witness :
  LogOrReturn._lintLogOrReturnErrors Examples.ascending Examples.logPass
    (LogOrReturn._errorResultIndices
       {| Results := Some [mkField [] (IdentExpr (mkIdent 0 "error"))] |})
    Examples.logAndReturn 1
  = Some (LogOrReturn.Finished
            [ {| DiagPos := 57;
                 Message := "Errors may be logged or returned, but not both. "
                            +:+ "Previously logged at f.go:42"
                            +:+ ". See https://khanacademy.atlassian.net/l/c/j9btTeyW" |} ]).
Proof.
  apply (c4_logged_and_returned_once Examples.ascending Examples.logPass
           (mkIdent 10 "err") (mkIdent 42 "err") (mkIdent 57 "err")
           (mkIdent 30 "logger") (mkIdent 37 "Warn") (mkIdent 17 "doX")
           1%positive [] 0 50 [] 0);
    solve [vm_compute; reflexivity | vm_compute; discriminate].
Defined.

(** ** Determinism *)







(** ** always_close.go *)

Section AlwaysCloseFacts.
Import lintutil AlwaysClose.
Context (pass : Pass) (facts : gset Object).

Local Arguments ObjectFor : simpl never.
Local Arguments escaping : simpl never.
Local Arguments _isCallToCloser : simpl never.
Local Arguments deleteObj : simpl never.

Lemma deleteObj_lookup o (closables : gmap Object Node) obj :
  deleteObj o closables !! obj
  = if isObject obj o then None else closables !! obj.
Proof.
  unfold isObject, deleteObj. case_bool_decide as Ho.
  - rewrite Ho. apply lookup_delete_eq.
  - destruct o as [o|]; [|reflexivity]. apply lookup_delete_ne. congruence.
Qed.

(** A loop of [delete]s: a key is gone when one of them names it and is
    where it was otherwise. *)
Lemma deletes_lookup {A} (h : A -> option Object) (l : list A) obj :
  forall closables : gmap Object Node,
  fold_left (fun m x => deleteObj (h x) m) l closables !! obj
  = if existsb (fun x => isObject obj (h x)) l then None else closables !! obj.
Proof.
  induction l as [|x l IH]; intros closables; [reflexivity|].
  cbn [fold_left existsb]. rewrite IH.
  destruct (existsb _ l); [rewrite orb_true_r; reflexivity|]. rewrite orb_false_r.
  apply deleteObj_lookup.
Qed.

Lemma returned_as_escaping results (closables : gmap Object Node) :
  fold_left (fun m expr =>
               match _identFromExpression expr with
               | Some ident => deleteObj (ObjectFor pass (Some (IdentExpr ident))) m
               | None => m
               end) results closables
  = fold_left (fun m expr => deleteObj (escaping pass expr) m) results closables.
Proof.
  revert closables. induction results as [|expr l IH]; intros closables; [reflexivity|].
  cbn [fold_left]. rewrite <- IH. f_equal.
  unfold escaping. destruct (_identFromExpression expr); reflexivity.
Qed.

(** The second walk only deletes. *)
Lemma release_gone n closables closables' obj :
  release pass facts n closables = Some closables' ->
  closables !! obj = None -> closables' !! obj = None.
Proof.
  intros Hn Hobj. destruct n; simpl in Hn; try (injection Hn as <-; exact Hobj).
  - destruct (_isCallToCloser pass facts n) as [[]|]; [| |discriminate].
    + injection Hn as <-. rewrite deletes_lookup, Hobj. destruct (existsb _ _); reflexivity.
    + destruct n; try (injection Hn as <-; exact Hobj).
      destruct (String.eqb _ _); injection Hn as <-; [|exact Hobj].
      rewrite deleteObj_lookup, Hobj. destruct (isObject _ _); reflexivity.
  - injection Hn as <-. rewrite deletes_lookup, Hobj. destruct (existsb _ _); reflexivity.
  - injection Hn as <-. rewrite deletes_lookup, Hobj. destruct (existsb _ _); reflexivity.
  - injection Hn as <-. rewrite returned_as_escaping, deletes_lookup, Hobj.
    destruct (existsb _ _); reflexivity.
Qed.

(** A node at which the object is neither released nor escapes leaves it
    where it is. *)
Lemma release_untouched n closables closables' obj :
  release pass facts n closables = Some closables' ->
  released pass facts obj n = false -> escapes pass obj n = false ->
  closables' !! obj = closables !! obj.
Proof.
  intros Hn Hrel Hesc. unfold released in Hrel.
  apply orb_false_elim in Hrel as [Hclose Hcloser].
  destruct n; simpl in Hn, Hclose, Hcloser, Hesc; try (injection Hn as <-; reflexivity).
  - destruct (_isCallToCloser pass facts n) as [[]|]; [| |discriminate].
    + injection Hn as <-. rewrite deletes_lookup.
      rewrite bool_decide_eq_true_2 in Hcloser by reflexivity.
      simpl in Hcloser. rewrite Hcloser. reflexivity.
    + destruct n; try (injection Hn as <-; reflexivity).
      destruct (String.eqb _ _); injection Hn as <-; [|reflexivity].
      simpl in Hclose. rewrite deleteObj_lookup, Hclose. reflexivity.
  - injection Hn as <-. rewrite deletes_lookup, Hesc. reflexivity.
  - injection Hn as <-. rewrite deletes_lookup, Hesc. reflexivity.
  - injection Hn as <-. rewrite returned_as_escaping, deletes_lookup, Hesc. reflexivity.
Qed.

(** A call of a closer deletes the objects its arguments name. *)
Lemma release_handed n closables closables' obj :
  release pass facts n closables = Some closables' ->
  handedToCloser pass facts obj n = true -> closables' !! obj = None.
Proof.
  intros Hn Hhanded. destruct n; simpl in Hhanded; try discriminate.
  apply andb_prop in Hhanded as [Hcloser%bool_decide_eq_true Hargs].
  simpl in Hn. rewrite Hcloser in Hn. injection Hn as <-.
  rewrite deletes_lookup, Hargs. reflexivity.
Qed.

(** A return of the object deletes it. *)
Lemma release_returned n closables closables' obj :
  release pass facts n closables = Some closables' ->
  returns pass obj n = true -> closables' !! obj = None.
Proof.
  intros Hn Hret. destruct n; simpl in Hret; try discriminate.
  simpl in Hn. injection Hn as <-.
  rewrite returned_as_escaping, deletes_lookup, Hret. reflexivity.
Qed.

(** The second walk meets every node of the function. *)
Lemma cancel_walk root st :
  Inspect (cancel pass facts) root st
  = fold_left (fun st d => st ≫= release pass facts d) (subnodes root) st.
Proof. apply (Inspect_always (cancel pass facts)). reflexivity. Qed.

Lemma released_panic l :
  fold_left (fun st d => st ≫= release pass facts d) l None = None.
Proof. induction l as [|d l IH]; [reflexivity | exact IH]. Qed.

Lemma walk_gone l obj : forall closables closables',
  fold_left (fun st d => st ≫= release pass facts d) l (Some closables)
    = Some closables' ->
  closables !! obj = None -> closables' !! obj = None.
Proof.
  induction l as [|d l IH]; intros closables closables' Hrun Hobj.
  - injection Hrun as <-. exact Hobj.
  - cbn [fold_left] in Hrun. simpl mbind in Hrun.
    destruct (release pass facts d closables) as [m1|] eqn:Hd;
      [|rewrite released_panic in Hrun; discriminate].
    eapply IH; [exact Hrun|]. eapply release_gone; eauto.
Qed.

Lemma walk_untouched l obj : forall closables closables',
  fold_left (fun st d => st ≫= release pass facts d) l (Some closables)
    = Some closables' ->
  forallb (fun n => negb (released pass facts obj n) && negb (escapes pass obj n)) l
    = true ->
  closables' !! obj = closables !! obj.
Proof.
  induction l as [|d l IH]; intros closables closables' Hrun Hl.
  - injection Hrun as <-. reflexivity.
  - cbn [fold_left] in Hrun. simpl mbind in Hrun.
    cbn [forallb] in Hl. apply andb_prop in Hl as [Hd Hl].
    apply andb_prop in Hd as [Hrel Hesc]. apply negb_true_iff in Hrel, Hesc.
    destruct (release pass facts d closables) as [m1|] eqn:Hm1;
      [|rewrite released_panic in Hrun; discriminate].
    rewrite (IH _ _ Hrun Hl). eapply release_untouched; eauto.
Qed.

(** Once a node has deleted the object, it is not in the map at the end. *)
Lemma walk_deleted (deletes : Node -> bool) l obj :
  (forall n closables closables',
     release pass facts n closables = Some closables' ->
     deletes n = true -> closables' !! obj = None) ->
  forall closables closables',
  fold_left (fun st d => st ≫= release pass facts d) l (Some closables)
    = Some closables' ->
  existsb deletes l = true ->
  closables' !! obj = None.
Proof.
  intros Hdeletes.
  induction l as [|d l IH]; intros closables closables' Hrun Hl; [discriminate|].
  cbn [fold_left] in Hrun. simpl mbind in Hrun.
  destruct (release pass facts d closables) as [m1|] eqn:Hm1;
    [|rewrite released_panic in Hrun; discriminate].
  cbn [existsb] in Hl. apply orb_prop in Hl as [Hd|Hl].
  - eapply walk_gone; [exact Hrun|]. eapply Hdeletes; eauto.
  - eapply IH; eauto.
Qed.

(** When every function called has an object, the second walk does not
    panic. *)
Lemma walk_completes l : forall closables,
  forallb (fun n =>
             match n with
             | CallExpr Fun _ =>
                 match _identFromExpression Fun with
                 | Some ident => bool_decide (is_Some (ObjectOf pass ident))
                 | None => true
                 end
             | _ => true
             end) l = true ->
  is_Some (fold_left (fun st d => st ≫= release pass facts d) l (Some closables)).
Proof.
  induction l as [|d l IH]; intros closables Hl; [eexists; reflexivity|].
  cbn [forallb] in Hl. apply andb_prop in Hl as [Hd Hl].
  cbn [fold_left]. simpl mbind.
  assert (Hsome : is_Some (release pass facts d closables)).
  { destruct d; try (eexists; reflexivity). simpl.
    unfold _isCallToCloser. destruct (_identFromExpression d) as [ident|].
    - apply bool_decide_eq_true in Hd as [o Ho].
      unfold ObjectFor. rewrite Ho.
      destruct (bool_decide _); [eexists; reflexivity|].
      destruct d; try (eexists; reflexivity).
      destruct (String.eqb _ _); eexists; reflexivity.
    - destruct d; try (eexists; reflexivity).
      destruct (String.eqb _ _); eexists; reflexivity. }
  destruct Hsome as [m1 ->]. apply IH, Hl.
Qed.

(** What one assignment adds to the map was acquired by it. *)
Lemma acquire_acquired Rhs Lhs : forall i closables closables' obj acq,
  acquire pass Rhs i Lhs closables = Some closables' ->
  closables' !! obj = Some acq ->
  closables !! obj = Some acq
  \/ exists j ident,
       Lhs !! j = Some acq /\ acq = IdentExpr ident
       /\ ObjectOf pass ident = Some obj
       /\ _isClosable pass (Some obj) = true
       /\ _assignedFromNoOp Rhs (i + j) = Some false.
Proof.
  induction Lhs as [|variable rest IH]; intros i closables closables' obj acq Hrun Hobj.
  - injection Hrun as <-. auto.
  - assert (Hrest : forall m,
      acquire pass Rhs (S i) rest m = Some closables' ->
      m !! obj = Some acq
      \/ exists j ident,
           (variable :: rest) !! j = Some acq /\ acq = IdentExpr ident
           /\ ObjectOf pass ident = Some obj
           /\ _isClosable pass (Some obj) = true
           /\ _assignedFromNoOp Rhs (i + j) = Some false).
    { intros m Hm. destruct (IH _ _ _ _ _ Hm Hobj) as [?|(j & ident & ? & ? & ? & ? & ?)];
        [auto|]. right. exists (S j), ident.
      replace (i + S j)%nat with (S i + j)%nat by lia. auto. }
    cbn [acquire] in Hrun.
    destruct variable as [ident| | | | | | | | | | | | | |]; try (apply Hrest in Hrun; exact Hrun).
    unfold ObjectFor in Hrun.
    destruct (ObjectOf pass ident) as [o|] eqn:Ho; [|apply Hrest in Hrun; exact Hrun].
    destruct (_isClosable pass (Some o)) eqn:Hclosable; [|apply Hrest in Hrun; exact Hrun].
    destruct (_assignedFromNoOp Rhs i) as [[]|] eqn:Hnoop;
      [apply Hrest in Hrun; exact Hrun | | discriminate].
    apply Hrest in Hrun as [Hin|?]; [|auto].
    destruct (decide (o = obj)) as [->|Hne].
    + rewrite lookup_insert_eq in Hin. injection Hin as <-.
      right. exists 0%nat, ident. rewrite Nat.add_0_r. auto.
    + rewrite lookup_insert_ne in Hin by exact Hne. auto.
Qed.

(** Every entry of the map the first walk leaves was acquired in the
    function. *)
Lemma collect_acquired root closables obj acq :
  Inspect (collect pass) root (Some ∅) = Some closables ->
  closables !! obj = Some acq ->
  AcquiredAt pass root obj acq.
Proof.
  intros Hrun. revert closables Hrun obj acq.
  apply (Inspect_invariant (collect pass)
           (fun st => forall m, st = Some m ->
              forall obj acq, m !! obj = Some acq -> AcquiredAt pass root obj acq)).
  - intros d st Hd Hst m Hm obj acq Hobj.
    destruct d; simpl in Hm; try (eapply Hst; eauto; fail).
    destruct st as [m0|]; [|discriminate]. simpl in Hm.
    destruct (acquire_acquired _ _ _ _ _ _ _ Hm Hobj)
      as [Hold|(j & ident & Hj & -> & Hident & Hclosable & Hnoop)].
    + eapply Hst; eauto.
    + exists Lhs, Rhs, j, ident. repeat split; auto.
  - intros m [= <-] obj acq Hobj. rewrite lookup_empty in Hobj. discriminate.
Qed.

End AlwaysCloseFacts.

(** The entries a range over a map yields hold every key once. *)
Lemma range_entry {V} (order : RangeOrder V) (m : gmap Object V) obj v :
  ValidOrder order -> m !! obj = Some v ->
  exists before after,
    order m = before ++ (obj, v) :: after /\ obj ∉ (before ++ after).*1.
Proof.
  intros Hvalid Hobj.
  assert (Hin : (obj, v) ∈ order m).
  { rewrite (Hvalid m). apply elem_of_map_to_list, Hobj. }
  apply list_elem_of_split in Hin as (before & after & Heq).
  exists before, after. split; [exact Heq|].
  assert (Hnodup : NoDup ((order m).*1)).
  { rewrite (Hvalid m). apply NoDup_fst_map_to_list. }
  rewrite Heq, fmap_app, fmap_cons in Hnodup.
  apply NoDup_app in Hnodup as (H1 & H2 & H3).
  apply NoDup_cons in H3 as [H3 _].
  rewrite fmap_app. intros [Hb|Ha]%elem_of_app; [|exact (H3 Ha)].
  apply (H2 _ Hb). simpl. left.
Qed.

Lemma range_no_entry {V} (order : RangeOrder V) (m : gmap Object V) obj :
  ValidOrder order -> m !! obj = None -> obj ∉ (order m).*1.
Proof.
  intros Hvalid Hobj. rewrite (Hvalid m).
  intros ([k v] & -> & Hin%elem_of_map_to_list)%list_elem_of_fmap.
  simpl in Hobj. congruence.
Qed.

(** C5 (amended).  A closable the first walk of [_scanFuncDecl] has
    acquired was assigned in the function, at the identifier the map
    remembers.  When a result of a return of the function stands for it (the
    result is the symbol, or leads to it through what [_identFromExpression]
    strips: a unary operator, a star, parentheses, the selected name of a
    selector, the function of a call, the value of a key-value pair), the
    scan does not report it.  When no node of the function releases it (a
    call of its [Close], a call of a closer with it for an argument) or lets
    it escape (source of an assignment, element of a composite literal,
    result of a return), and the scan does not panic, the scan reports it,
    once, at that identifier, with the printed type and
    [" needs to be closed"] for the format. *)
Theorem c5_returned_never_unreleased_once
    (order : RangeOrder Node) (pass : Pass) (facts : gset Object)
    (funcDecl : FuncDecl) (closables : gmap Object Node)
    (obj : Object) (acq : Node) :
  ValidOrder order ->
  Inspect (AlwaysClose.collect pass) (AlwaysClose.FuncDeclNode funcDecl) (Some ∅)
    = Some closables ->
  closables !! obj = Some acq ->
  AlwaysClose.AcquiredAt pass (AlwaysClose.FuncDeclNode funcDecl) obj acq
  /\ (existsb (AlwaysClose.returns pass obj)
              (subnodes (AlwaysClose.FuncDeclNode funcDecl)) = true ->
      forall entries,
        AlwaysClose.unclosed order pass facts funcDecl = Some entries ->
        obj ∉ entries.*1)
  /\ (forallb (fun n => negb (AlwaysClose.released pass facts obj n)
                        && negb (AlwaysClose.escapes pass obj n))
              (subnodes (AlwaysClose.FuncDeclNode funcDecl)) = true ->
      AlwaysClose.callsResolved pass (AlwaysClose.FuncDeclNode funcDecl) = true ->
      exists before after,
        AlwaysClose.unclosed order pass facts funcDecl
          = Some (before ++ (obj, acq) :: after)
        /\ (obj ∉ (before ++ after).*1)
        /\ AlwaysClose._scanFuncDecl order pass facts funcDecl
           = Some (map (AlwaysClose.needsToBeClosed pass) before
                   ++ {| AlwaysClose.ReportPos := NodePos acq;
                         AlwaysClose.Format :=
                           TypeString pass obj +:+ " needs to be closed" |}
                   :: map (AlwaysClose.needsToBeClosed pass) after)).
Proof.
  intros Hvalid Hcollect Hobj.
  assert (Hsize : (size closables =? 0)%nat = false).
  { apply Nat.eqb_neq. intros Hz. apply map_size_empty_iff in Hz.
    rewrite Hz, lookup_empty in Hobj. discriminate. }
  split; [eapply collect_acquired; eauto|]. split.
  - intros Hret entries. unfold AlwaysClose.unclosed.
    rewrite Hcollect, Hsize, cancel_walk.
    destruct (fold_left _ _ _) as [final|] eqn:Hwalk; [|discriminate].
    intros [= <-]. apply range_no_entry; [exact Hvalid|].
    eapply (walk_deleted pass facts (AlwaysClose.returns pass obj)); eauto.
    intros n m m'. apply release_returned.
  - intros Huntouched Hresolved.
    unfold AlwaysClose._scanFuncDecl, AlwaysClose.unclosed.
    rewrite Hcollect, Hsize, cancel_walk.
    destruct (walk_completes pass facts _ closables Hresolved) as [final Hwalk].
    rewrite Hwalk. simpl.
    assert (Hfinal : final !! obj = Some acq).
    { rewrite (walk_untouched _ _ _ _ _ _ Hwalk Huntouched). exact Hobj. }
    destruct (range_entry order final obj acq Hvalid Hfinal)
      as (before & after & Heq & Hnot).
    exists before, after. rewrite Heq. split; [reflexivity|]. split; [exact Hnot|].
    rewrite map_app. reflexivity.
Qed.

Lemma c5_returned_never_unreleased_once_witness :
  (forall entries,
     AlwaysClose.unclosed Examples.ascending Examples.closePass ∅ Examples.give
       = Some entries ->
     5%positive ∉ entries.*1)
  /\ exists before after,
       AlwaysClose._scanFuncDecl Examples.ascending Examples.closePass ∅ Examples.keep
       = Some (map (AlwaysClose.needsToBeClosed Examples.closePass) before
               ++ {| AlwaysClose.ReportPos := 30;
                     AlwaysClose.Format := "*os.File needs to be closed" |}
               :: map (AlwaysClose.needsToBeClosed Examples.closePass) after).
Proof.
  split.
  - apply (c5_returned_never_unreleased_once
             Examples.ascending Examples.closePass ∅ Examples.give
             {[5%positive := Examples.var 30 "r"]} 5%positive (Examples.var 30 "r")).
    + apply ascending_valid.
    + vm_compute. reflexivity.
    + vm_compute. reflexivity.
    + vm_compute. reflexivity.
  - destruct (c5_returned_never_unreleased_once
                Examples.ascending Examples.closePass ∅ Examples.keep
                {[5%positive := Examples.var 30 "r"]} 5%positive (Examples.var 30 "r"))
      as (_ & _ & Honce).
    + apply ascending_valid.
    + vm_compute. reflexivity.
    + vm_compute. reflexivity.
    + destruct Honce as (before & after & _ & _ & Hscan).
      * vm_compute. reflexivity.
      * vm_compute. reflexivity.
      * exists before, after. exact Hscan.
Defined.

(** C5, as stated, fails on [func narrowed() io.Closer { rc := get();
    return rc.(io.Closer) }]: the symbol [rc] appears in the result of the
    return, under a type assertion, for which [_identFromExpression] has no
    case; the return deletes nothing and [rc] is reported.  It fails on
    [func passed() io.ReadCloser { r := open(); return get(r) }] too: for a
    call [_identFromExpression] gives the function, so the return deletes
    the object of [get] and [r] is reported. *)
Lemma c5_symbol_inside_result_still_reported :
  IdentExpr (mkIdent 57 "rc")
    ∈ flat_map subnodes
        [TypeAssertExpr (Examples.var 57 "rc")
           (Some (SelectorExpr (Examples.var 61 "io") (mkIdent 64 "Closer")))]
  /\ ObjectOf Examples.closePass (mkIdent 57 "rc") = Some 12%positive
  /\ AlwaysClose._identFromExpression
       (TypeAssertExpr (Examples.var 57 "rc")
          (Some (SelectorExpr (Examples.var 61 "io") (mkIdent 64 "Closer"))))
     = None
  /\ AlwaysClose._scanFuncDecl Examples.ascending Examples.closePass ∅
       Examples.narrowed
     = Some [ {| AlwaysClose.ReportPos := 30;
                 AlwaysClose.Format := "io.ReadCloser needs to be closed" |} ]
  /\ IdentExpr (mkIdent 61 "r")
       ∈ flat_map subnodes
           [CallExpr (Examples.var 57 "get") [Examples.var 61 "r"]]
  /\ ObjectOf Examples.closePass (mkIdent 61 "r") = Some 5%positive
  /\ AlwaysClose._identFromExpression
       (CallExpr (Examples.var 57 "get") [Examples.var 61 "r"])
     = Some (mkIdent 57 "get")
  /\ AlwaysClose._scanFuncDecl Examples.ascending Examples.closePass ∅
       Examples.passed
     = Some [ {| AlwaysClose.ReportPos := 30;
                 AlwaysClose.Format := "*os.File needs to be closed" |} ].
Proof.
  repeat split; try (vm_compute; reflexivity).
  - simpl. right. left.
  - simpl. right. right. left.
Qed.

(** * Further properties *)

(** ** http_return.go *)

Section ReturnAfterCallFacts.
Import HttpReturn ReturnAfterCall.
Context (pass : Pass).

(** The reports of the loop over the nodes are added to the ones that are
    there; what is pending after the loop is decided by the last node. *)
Lemma checkNode_out nodes : forall m out,
  fold_left (checkNode pass) nodes (m, out)
  = ((fold_left (checkNode pass) nodes (m, [])).1,
     out ++ (fold_left (checkNode pass) nodes (m, [])).2).
Proof.
  induction nodes as [|n rest IH]; intros m out.
  - simpl. rewrite app_nil_r. reflexivity.
  - cbn [fold_left].
    assert (Hstep : forall o, checkNode pass (m, o) n
      = (_mustReturnAfter pass n, o ++ (checkNode pass (m, []) n).2)).
    { intros o. destruct m as [m|]; simpl;
        [destruct (negb (isReturnStmt n))|]; simpl; rewrite ?app_nil_r; reflexivity. }
    rewrite (Hstep out), (Hstep []). simpl app.
    rewrite (IH _ (out ++ _)), (IH _ ((checkNode pass (m, []) n).2)).
    simpl. rewrite app_assoc. reflexivity.
Qed.

Lemma checkNode_pending_last nodes : forall m out,
  (fold_left (checkNode pass) nodes (m, out)).1
  = match last nodes with Some n => _mustReturnAfter pass n | None => m end.
Proof.
  induction nodes as [|n rest IH]; intros m out; [reflexivity|].
  cbn [fold_left]. destruct (checkNode pass (m, out) n) as [m1 out1] eqn:E.
  assert (m1 = _mustReturnAfter pass n) as ->.
  { destruct m as [m|]; simpl in E; injection E as <- _; reflexivity. }
  rewrite IH, last_cons. destruct (last rest); reflexivity.
Qed.

Lemma checkBlock_out out b :
  checkBlock pass out b = out ++ checkBlock pass [] b.
Proof.
  unfold checkBlock. destruct (negb (Live b)); [rewrite app_nil_r; reflexivity|].
  rewrite (checkNode_out (Nodes b) None out).
  destruct (fold_left (checkNode pass) (Nodes b) (None, [])) as [[m|] r]; simpl;
    [destruct (0 <? length (Succs b))%nat|]; rewrite ?app_assoc; reflexivity.
Qed.

(** The blocks are checked one by one, each from nothing pending. *)
Lemma _checkCFG_flat_map blocks : forall out,
  fold_left (checkBlock pass) blocks out
  = out ++ flat_map (checkBlock pass []) blocks.
Proof.
  induction blocks as [|b rest IH]; intros out.
  - simpl. rewrite app_nil_r. reflexivity.
  - cbn [fold_left flat_map]. rewrite IH, checkBlock_out, app_assoc. reflexivity.
Qed.

(** The loop over the nodes reports nothing exactly when the first node is
    a return or nothing is pending, and every node that holds a call is
    directly followed by a return. *)
Lemma checkNode_silent nodes : forall m,
  (fold_left (checkNode pass) nodes (m, [])).2 = []
  <-> (forall first, head nodes = Some first -> m <> None ->
         isReturnStmt first = true)
      /\ (forall i prev cur,
            nodes !! i = Some prev -> nodes !! S i = Some cur ->
            _mustReturnAfter pass prev <> None -> isReturnStmt cur = true).
Proof.
  induction nodes as [|n rest IH]; intros m.
  - simpl. split; [|reflexivity]. intros _. split; [discriminate|].
    intros i prev cur H. rewrite lookup_nil in H. discriminate.
  - cbn [fold_left].
    replace (checkNode pass (m, []) n)
      with (_mustReturnAfter pass n, (checkNode pass (m, []) n).2)
      by (destruct m; reflexivity).
    rewrite checkNode_out. cbn [snd].
    split.
    + intros [Hstep Hrest]%app_eq_nil. apply IH in Hrest as [Hhead Hadj]. split.
      * intros first [= <-] Hm. destruct m as [m|]; [|congruence].
        simpl in Hstep. destruct (isReturnStmt n); [reflexivity | discriminate].
      * intros [|i] prev cur Hprev Hcur.
        -- simpl in Hprev. injection Hprev as <-. apply Hhead.
           destruct rest; [discriminate | exact Hcur].
        -- apply (Hadj i); assumption.
    + intros [Hhead Hadj]. apply app_nil. split.
      * destruct m as [m|]; [|reflexivity]. simpl.
        rewrite (Hhead n eq_refl); [reflexivity | discriminate].
      * apply IH. split.
        -- intros first Hfirst. apply (Hadj 0%nat n first); [reflexivity|].
           destruct rest; [discriminate | exact Hfirst].
        -- intros i prev cur Hprev Hcur. apply (Hadj (S i)); assumption.
Qed.

Lemma checkBlock_silent b :
  Live b = true -> (checkBlock pass [] b = [] <-> ObviouslyReturns pass b).
Proof.
  intros Hlive. unfold checkBlock, ObviouslyReturns. rewrite Hlive. cbn [negb].
  pose proof (checkNode_pending_last (Nodes b) None []) as Hpending.
  pose proof (checkNode_silent (Nodes b) None) as Hsilent.
  destruct (fold_left (checkNode pass) (Nodes b) (None, [])) as [m r].
  cbn [fst snd] in Hpending, Hsilent. split.
  - intros Hnil. assert (Hr : r = []).
    { destruct m; [destruct (0 <? length (Succs b))%nat|]; try exact Hnil.
      destruct r; discriminate. }
    split; [apply Hsilent, Hr|].
    intros final Hfinal Hcall. rewrite Hfinal in Hpending. subst m r.
    destruct (_mustReturnAfter pass final); [|congruence].
    destruct (Succs b); [reflexivity | discriminate].
  - intros [Hadj Hend]. assert (Hr : r = []).
    { apply Hsilent. split; [congruence | exact Hadj]. }
    subst r. destruct m as [m|]; [|reflexivity].
    destruct (last (Nodes b)) as [final|] eqn:Hfinal; [|discriminate].
    rewrite (Hend final eq_refl); [reflexivity|]. rewrite <- Hpending. discriminate.
Qed.

Local Abbreviation pick :=
  (fun (node : Node) (ret : option Ident) =>
    match node with
    | IdentExpr i =>
        let name := lintutil.NameOf pass (lintutil.ObjectFor pass (Some node)) in
        (false,
         if String.eqb name "net/http.Error" || String.eqb name "net/http.Redirect"
         then Some i else ret)
    | FuncLit _ _ => (false, ret)
    | _ => (true, ret)
    end).

(** The identifiers the walk of [_mustReturnAfter] meets are the ones
    outside function literals; the last one that names a target stays. *)
Lemma _mustReturnAfter_walk n : forall ret,
  Inspect pick n ret
  = match last (List.filter (isTarget pass) (outerIdents n)) with
    | Some i => Some i
    | None => ret
    end.
Proof.
  induction n as [n IH] using Node_children_ind. intros ret.
  assert (Hlist : forall l ret0, Forall
    (fun c => forall ret1, Inspect pick c ret1
       = match last (List.filter (isTarget pass) (outerIdents c)) with
         | Some i => Some i | None => ret1 end) l ->
    InspectList pick l ret0
    = match last (List.filter (isTarget pass) (flat_map outerIdents l)) with
      | Some i => Some i | None => ret0 end).
  { intros l ret0 Hl. revert ret0.
    induction Hl as [|c l Hc _ IHl]; intros ret0; [reflexivity|].
    rewrite InspectList_cons, IHl, Hc. cbn [flat_map].
    rewrite List.filter_app, last_app.
    destruct (last (List.filter (isTarget pass) (flat_map outerIdents l)));
      reflexivity. }
  rewrite Inspect_unfold.
  destruct n; cbn [fst snd]; try (rewrite (Hlist _ _ IH); clear Hlist IH).
  all: try (destruct Typ).
  all: cbn [children outerIdents flat_map List.filter app option_list];
    rewrite ?app_nil_r, ?flat_map_app; try reflexivity.
  - unfold isTarget. simpl. destruct (_ || _); reflexivity.
  - simpl. rewrite app_nil_r. reflexivity.
  - simpl. rewrite app_nil_r. reflexivity.
Qed.

(** Every report of the loop over the nodes is for the identifier that was
    pending at its start or for one found in a node of the loop. *)
Lemma checkNode_reports nodes : forall m0 d,
  d ∈ (fold_left (checkNode pass) nodes (m0, [])).2 ->
  (exists m, m0 = Some m /\ d = report pass m)
  \/ (exists n m, n ∈ nodes /\ _mustReturnAfter pass n = Some m /\ d = report pass m).
Proof.
  induction nodes as [|n rest IH]; intros m0 d.
  - simpl. intros H. apply elem_of_nil in H. contradiction.
  - cbn [fold_left].
    replace (checkNode pass (m0, []) n)
      with (_mustReturnAfter pass n, (checkNode pass (m0, []) n).2)
      by (destruct m0; reflexivity).
    rewrite checkNode_out. cbn [snd]. intros [H|H]%elem_of_app.
    + left. destruct m0 as [m|]; simpl in H.
      * destruct (negb (isReturnStmt n)); simpl in H.
        -- apply list_elem_of_singleton in H. eauto.
        -- apply elem_of_nil in H. contradiction.
      * apply elem_of_nil in H. contradiction.
    + right. apply IH in H as [(m & Hm & ->)|(n' & m & Hin & Hm & ->)].
      * exists n, m. split; [left | auto].
      * exists n', m. split; [right; exact Hin | auto].
Qed.

Local Abbreviation pending :=
  (fun m : option Ident => match m with Some _ => 1%nat | None => 0%nat end).

(** The loop over the nodes reports at most once for what was pending and
    once for each node that holds a call but the last, which stays pending. *)
Lemma checkNode_count nodes : forall m0,
  (length (fold_left (checkNode pass) nodes (m0, [])).2
   + pending (fold_left (checkNode pass) nodes (m0, [])).1
   <= pending m0 + length (List.filter (holdsCall pass) nodes))%nat.
Proof.
  induction nodes as [|n rest IH]; intros m0.
  - simpl. destruct m0; lia.
  - cbn [fold_left].
    replace (checkNode pass (m0, []) n)
      with (_mustReturnAfter pass n, (checkNode pass (m0, []) n).2)
      by (destruct m0; reflexivity).
    rewrite checkNode_out. cbn [fst snd]. rewrite length_app.
    specialize (IH (_mustReturnAfter pass n)).
    assert (Hstep : (length (checkNode pass (m0, []) n).2 <= pending m0)%nat).
    { destruct m0; simpl; [destruct (negb (isReturnStmt n))|]; simpl; lia. }
    cbn [List.filter].
    replace (holdsCall pass n)
      with (match _mustReturnAfter pass n with Some _ => true | None => false end)
      by reflexivity.
    destruct (_mustReturnAfter pass n), m0; cbn [length] in *; lia.
Qed.

Lemma _mustReturnAfter_last node :
  _mustReturnAfter pass node
  = last (List.filter (isTarget pass) (outerIdents node)).
Proof.
  unfold _mustReturnAfter. rewrite _mustReturnAfter_walk.
  destruct (last _); reflexivity.
Qed.

End ReturnAfterCallFacts.

(** X1 (http_return.go, [_checkCFG]): the linter is silent on a graph
    exactly when every live block of it obviously returns: in the block, each
    node that holds a call of [http.Error] or [http.Redirect] is directly
    followed by a return statement, and a block that ends with such a node
    has no successor. *)
Theorem http_silent_iff_obviously_returns (pass : Pass) (cfg : CFG) :
  HttpReturn._checkCFG pass cfg = []
  <-> forall b, b ∈ Blocks cfg -> Live b = true ->
        ReturnAfterCall.ObviouslyReturns pass b.
Proof.
  unfold HttpReturn._checkCFG. rewrite _checkCFG_flat_map, app_nil_l.
  induction (Blocks cfg) as [|b rest IH].
  - simpl. split; [|reflexivity]. intros _ b Hb. apply elem_of_nil in Hb. contradiction.
  - cbn [flat_map]. rewrite app_nil, IH. split.
    + intros [Hb Hrest] b' [->|Hin]%elem_of_cons Hlive.
      * apply checkBlock_silent; assumption.
      * apply Hrest; assumption.
    + intros Hall. split.
      * destruct (Live b) eqn:Hlive.
        -- apply checkBlock_silent; [exact Hlive|]. apply Hall; [left | exact Hlive].
        -- unfold HttpReturn.checkBlock. rewrite Hlive. reflexivity.
      * intros b' Hin. apply Hall. right. exact Hin.
Qed.

(** X2 (http_return.go, [_mustReturnAfter]): the identifier after which a
    return is asked for is the last one, among the identifiers of the node
    that are outside function literals, that names [http.Error] or
    [http.Redirect]; there is none when no such identifier names one. *)
Theorem http_mustReturnAfter_last_outer_target (pass : Pass) (node : Node) :
  HttpReturn._mustReturnAfter pass node
  = last (List.filter (ReturnAfterCall.isTarget pass)
            (ReturnAfterCall.outerIdents node)).
Proof. apply _mustReturnAfter_last. Qed.

(** X3 (http_return.go, [_checkCFG]): a live block that has a successor and
    whose last node holds a call of [http.Error] or [http.Redirect] is
    reported at the identifier of the call, whatever its successors begin
    with. *)
Theorem http_call_at_end_of_block_reported
    (pass : Pass) (cfg : CFG) (b : Block) (final : Node) (m : Ident) :
  b ∈ Blocks cfg -> Live b = true ->
  last (Nodes b) = Some final ->
  HttpReturn._mustReturnAfter pass final = Some m ->
  Succs b <> [] ->
  HttpReturn.report pass m ∈ HttpReturn._checkCFG pass cfg.
Proof.
  intros Hb Hlive Hfinal Hcall Hsuccs.
  unfold HttpReturn._checkCFG. rewrite _checkCFG_flat_map, app_nil_l.
  apply list_elem_of_In, in_flat_map. exists b. split; [apply list_elem_of_In, Hb|].
  apply list_elem_of_In. unfold HttpReturn.checkBlock. rewrite Hlive. cbn [negb].
  pose proof (checkNode_pending_last pass (Nodes b) None []) as Hpending.
  rewrite Hfinal, Hcall in Hpending.
  destruct (fold_left _ (Nodes b) _) as [m' r]. cbn [fst] in Hpending. subst m'.
  destruct (Succs b); [congruence|]. simpl.
  apply elem_of_app. right. left.
Qed.

Lemma http_call_at_end_of_block_reported_witness :
  HttpReturn.report Examples.httpPass Examples.Error
  ∈ HttpReturn._checkCFG Examples.httpPass MoreExamples.errorInBranch.
Proof.
  apply (http_call_at_end_of_block_reported Examples.httpPass
           MoreExamples.errorInBranch
           {| Live := true; Nodes := [Examples.httpError]; Succs := [2%nat] |}
           Examples.httpError Examples.Error).
  - right. left.
  - reflexivity.
  - reflexivity.
  - vm_compute. reflexivity.
  - discriminate.
Defined.

(** X4 (http_return.go, [_checkCFG]): every diagnostic is the report for an
    identifier that names [http.Error] or [http.Redirect] and stands, outside
    function literals, in a node of a live block of the graph. *)
Theorem http_every_diagnostic_is_for_a_call
    (pass : Pass) (cfg : CFG) (d : Diagnostic) :
  d ∈ HttpReturn._checkCFG pass cfg ->
  exists b n m,
    b ∈ Blocks cfg /\ Live b = true /\ n ∈ Nodes b
    /\ m ∈ ReturnAfterCall.outerIdents n
    /\ ReturnAfterCall.isTarget pass m = true
    /\ d = HttpReturn.report pass m.
Proof.
  unfold HttpReturn._checkCFG. rewrite _checkCFG_flat_map, app_nil_l.
  intros (b & Hb & Hd)%list_elem_of_In%in_flat_map.
  apply list_elem_of_In in Hb, Hd.
  unfold HttpReturn.checkBlock in Hd.
  destruct (Live b) eqn:Hlive; cbn [negb] in Hd;
    [|apply elem_of_nil in Hd; contradiction].
  pose proof (checkNode_pending_last pass (Nodes b) None []) as Hpending.
  pose proof (checkNode_reports pass (Nodes b) None d) as Hreports.
  destruct (fold_left _ (Nodes b) _) as [m' r]. cbn [fst snd] in Hpending, Hreports.
  assert (Hfound : exists n m, n ∈ Nodes b
            /\ HttpReturn._mustReturnAfter pass n = Some m
            /\ d = HttpReturn.report pass m).
  { assert (Hr : d ∈ r -> exists n m, n ∈ Nodes b
              /\ HttpReturn._mustReturnAfter pass n = Some m
              /\ d = HttpReturn.report pass m).
    { intros H. apply Hreports in H as [(m & Hm & _)|H]; [discriminate | exact H]. }
    destruct m' as [m|]; [|auto].
    destruct (0 <? length (Succs b))%nat; [|auto].
    apply elem_of_app in Hd as [Hd|Hd]; [auto|].
    apply list_elem_of_singleton in Hd. subst d.
    destruct (last (Nodes b)) as [final|] eqn:Hfinal; [|discriminate].
    exists final, m. split; [|auto].
    apply last_Some in Hfinal as [l' ->]. apply elem_of_app. right. left. }
  destruct Hfound as (n & m & Hn & Hm & ->).
  exists b, n, m. repeat split; try assumption.
  - rewrite _mustReturnAfter_last in Hm.
    apply last_Some in Hm as [l' Hm].
    assert (Hin : In m (List.filter (ReturnAfterCall.isTarget pass)
                          (ReturnAfterCall.outerIdents n))).
    { rewrite Hm. apply in_app_iff. right. left. reflexivity. }
    apply filter_In in Hin as [Hin _]. apply list_elem_of_In, Hin.
  - rewrite _mustReturnAfter_last in Hm.
    apply last_Some in Hm as [l' Hm].
    assert (Hin : In m (List.filter (ReturnAfterCall.isTarget pass)
                          (ReturnAfterCall.outerIdents n))).
    { rewrite Hm. apply in_app_iff. right. left. reflexivity. }
    apply filter_In in Hin as [_ Htarget]. exact Htarget.
Qed.

Lemma http_every_diagnostic_is_for_a_call_witness :
  exists b n m,
    b ∈ Blocks Examples.oneLog /\ Live b = true /\ n ∈ Nodes b
    /\ m ∈ ReturnAfterCall.outerIdents n
    /\ ReturnAfterCall.isTarget Examples.httpPass m = true
    /\ HttpReturn.report Examples.httpPass Examples.Error
       = HttpReturn.report Examples.httpPass m.
Proof.
  apply (http_every_diagnostic_is_for_a_call Examples.httpPass Examples.oneLog).
  vm_compute. left.
Defined.

(** X5 (http_return.go, [_checkCFG]): there are at most as many diagnostics
    as there are nodes, in the live blocks, that hold a call of [http.Error]
    or [http.Redirect]: no call is reported twice. *)
Theorem http_at_most_one_diagnostic_per_call (pass : Pass) (cfg : CFG) :
  (length (HttpReturn._checkCFG pass cfg)
   <= length (List.filter (ReturnAfterCall.holdsCall pass)
                (flat_map Nodes (List.filter Live (Blocks cfg)))))%nat.
Proof.
  unfold HttpReturn._checkCFG. rewrite _checkCFG_flat_map, app_nil_l.
  induction (Blocks cfg) as [|b rest IH]; [reflexivity|].
  cbn [flat_map List.filter]. rewrite length_app.
  assert (Hb : (length (HttpReturn.checkBlock pass [] b)
                <= if Live b
                   then length (List.filter (ReturnAfterCall.holdsCall pass) (Nodes b))
                   else 0)%nat).
  { unfold HttpReturn.checkBlock. destruct (Live b); [|reflexivity]. cbn [negb].
    pose proof (checkNode_count pass (Nodes b) None) as Hcount.
    destruct (fold_left _ (Nodes b) _) as [[m|] r]; cbn [fst snd] in Hcount;
      [destruct (0 <? length (Succs b))%nat|]; rewrite ?length_app; simpl; lia. }
  destruct (Live b); cbn [flat_map]; rewrite ?List.filter_app, ?length_app; lia.
Qed.

(** ** log_or_return_error_lint.go: the indices of the error results *)

Section ErrorResultsFacts.
Import LogOrReturn ErrorResults.

(** The loop of [_errorResultIndices] from the counter [i] on, and the one
    of [errorResultPositions]. *)
Local Abbreviation indicesFrom :=
  (fun (i : nat) (fields : list (Field Node)) =>
     (fold_left (fun '(indices, i) result =>
        let isError :=
          match Type_ result with
          | IdentExpr ident => String.eqb (Name ident) "error"
          | _ => false
          end in
        if isError then (indices ++ [i], i)
        else if (0 <? length (Names result))%nat
             then (indices, (i + length (Names result))%nat)
             else (indices, S i)) fields ([], i)).1).

Local Abbreviation positionsFrom :=
  (fun (i : nat) (fields : list (Field Node)) =>
     (fold_left (fun '(positions, i) result =>
        let width :=
          if (0 <? length (Names result))%nat
          then length (Names result) else 1%nat in
        let isError :=
          match Type_ result with
          | IdentExpr ident => String.eqb (Name ident) "error"
          | _ => false
          end in
        (positions ++ (if isError then seq i width else []), (i + width)%nat))
        fields ([], i)).1).

Lemma width_positive (result : Field Node) : (1 <= width result)%nat.
Proof.
  unfold width. destruct (0 <? length (Names result))%nat eqn:E;
    [apply Nat.ltb_lt in E|]; lia.
Qed.

Lemma indicesFrom_cons i result fields :
  indicesFrom i (result :: fields)
  = if isErrorField result then i :: indicesFrom i fields
    else indicesFrom (i + width result)%nat fields.
Proof.
  cbn [fold_left]. fold (isErrorField result).
  assert (Hacc : forall l acc j,
    (fold_left (fun '(indices, i) result =>
        let isError := isErrorField result in
        if isError then (indices ++ [i], i)
        else if (0 <? length (Names result))%nat
             then (indices, (i + length (Names result))%nat)
             else (indices, S i)) l (acc, j)).1
    = acc ++ (fold_left (fun '(indices, i) result =>
        let isError := isErrorField result in
        if isError then (indices ++ [i], i)
        else if (0 <? length (Names result))%nat
             then (indices, (i + length (Names result))%nat)
             else (indices, S i)) l ([], j)).1).
  { induction l as [|r l IH]; intros acc j; [simpl; rewrite app_nil_r; reflexivity|].
    cbn [fold_left]. destruct (isErrorField r); cbn zeta iota.
    - rewrite (IH (acc ++ [j])), (IH ([] ++ [j])), <- app_assoc. reflexivity.
    - destruct (0 <? _)%nat; apply IH. }
  destruct (isErrorField result); cbn zeta iota.
  - apply (Hacc fields [i] i).
  - unfold width. destruct (0 <? _)%nat; [reflexivity|].
    rewrite Nat.add_1_r. reflexivity.
Qed.

Lemma positionsFrom_cons i result fields :
  positionsFrom i (result :: fields)
  = (if isErrorField result then seq i (width result) else [])
    ++ positionsFrom (i + width result)%nat fields.
Proof.
  cbv beta.
  match goal with
  | |- context [fold_left ?F (result :: fields) _] =>
      assert (Hacc : forall l acc j,
        (fold_left F l (acc, j)).1 = acc ++ (fold_left F l ([], j)).1)
  end.
  { induction l as [|r l IH]; intros acc j; [simpl; rewrite app_nil_r; reflexivity|].
    cbn [fold_left]. cbv beta iota zeta.
    etransitivity; [apply IH|]. symmetry.
    etransitivity; [apply f_equal, IH|].
    rewrite app_nil_l, app_assoc. reflexivity. }
  cbn [fold_left]. cbv beta iota zeta. rewrite Hacc, app_nil_l. reflexivity.
Qed.

Lemma indicesFrom_length fields : forall i,
  length (indicesFrom i fields) = length (List.filter isErrorField fields).
Proof.
  induction fields as [|r l IH]; intros i; [reflexivity|].
  rewrite indicesFrom_cons. cbn [List.filter].
  destruct (isErrorField r); cbn [length]; rewrite IH; reflexivity.
Qed.

Lemma positionsFrom_length fields : forall i,
  (length (List.filter isErrorField fields) <= length (positionsFrom i fields))%nat.
Proof.
  induction fields as [|r l IH]; intros i; [reflexivity|].
  rewrite positionsFrom_cons, length_app. cbn [List.filter].
  specialize (IH (i + width r)%nat). pose proof (width_positive r).
  cbv beta zeta in *.
  destruct (isErrorField r); cbn [length]; rewrite ?length_seq; lia.
Qed.

Lemma no_error_field fields i :
  List.filter isErrorField fields = [] ->
  indicesFrom i fields = [] /\ positionsFrom i fields = [].
Proof.
  revert i. induction fields as [|r l IH]; intros i Hnone; [split; reflexivity|].
  rewrite indicesFrom_cons, positionsFrom_cons. cbn [List.filter] in Hnone.
  destruct (isErrorField r); [discriminate|]. apply IH, Hnone.
Qed.

(** Once the counter is behind, the two loops agree only when no field of
    the type [error] follows. *)
Lemma counter_behind fields : forall i j,
  (i < j)%nat -> indicesFrom i fields = positionsFrom j fields ->
  List.filter isErrorField fields = [].
Proof.
  induction fields as [|r l IH]; intros i j Hlt; [reflexivity|].
  rewrite indicesFrom_cons, positionsFrom_cons. cbn [List.filter].
  pose proof (width_positive r) as Hw.
  destruct (isErrorField r).
  - destruct (width r) as [|w]; [lia|]. cbn [seq app]. intros [= Hij _]. lia.
  - apply IH. lia.
Qed.

Lemma agreement fields : forall i,
  indicesFrom i fields = positionsFrom i fields
  <-> match List.filter isErrorField fields with
      | [] => True
      | [result] => (length (Names result) <= 1)%nat
      | _ => False
      end.
Proof.
  induction fields as [|r l IH]; intros i; [split; reflexivity|].
  rewrite indicesFrom_cons, positionsFrom_cons. cbn [List.filter].
  destruct (isErrorField r) eqn:Herr; [|apply IH].
  pose proof (width_positive r) as Hw. split.
  - intros Heq.
    assert (Hone : width r = 1%nat).
    { apply (f_equal (@length nat)) in Heq.
      rewrite length_app, length_seq in Heq. cbn [length] in Heq.
      rewrite indicesFrom_length in Heq.
      pose proof (positionsFrom_length l (i + width r)%nat).
      cbv beta zeta in *. lia. }
    rewrite Hone in Heq. cbn [seq app] in Heq. injection Heq as Heq.
    apply counter_behind in Heq; [|lia]. rewrite Heq.
    unfold width in Hone.
    destruct (0 <? length (Names r))%nat eqn:E; [lia|].
    apply Nat.ltb_ge in E. lia.
  - destruct (List.filter isErrorField l) eqn:Hl; [|contradiction]. intros Hnames.
    assert (Hone : width r = 1%nat).
    { unfold width. destruct (0 <? length (Names r))%nat eqn:E; [|reflexivity].
      apply Nat.ltb_lt in E. lia. }
    rewrite Hone. cbn [seq app].
    destruct (no_error_field l i Hl) as [H1 _].
    destruct (no_error_field l (i + 1)%nat Hl) as [_ H2].
    f_equal. transitivity (@nil nat); [apply H1 | symmetry; apply H2].
Qed.

Lemma first_index fields : forall i,
  head (indicesFrom i fields) = head (positionsFrom i fields).
Proof.
  induction fields as [|r l IH]; intros i; [reflexivity|].
  rewrite indicesFrom_cons, positionsFrom_cons.
  pose proof (width_positive r) as Hw.
  destruct (isErrorField r); [|apply IH].
  destruct (width r); [lia | reflexivity].
Qed.

End ErrorResultsFacts.

(** X6 (log_or_return_error_lint.go, [_errorResultIndices]): the indices
    are the positions of the results of the type [error] exactly for the
    signatures with at most one field of that type, which has at most one
    name; for every other signature some index is missing or wrong. *)
Theorem errorResultIndices_right_iff_one_error_result (sig : FuncType) :
  LogOrReturn._errorResultIndices sig = LogOrReturn.errorResultPositions sig
  <-> ErrorResults.OneErrorResult sig.
Proof.
  unfold LogOrReturn._errorResultIndices, LogOrReturn.errorResultPositions,
    ErrorResults.OneErrorResult.
  destruct (Results sig) as [fields|]; [|split; reflexivity].
  apply agreement.
Qed.

(** X7 (log_or_return_error_lint.go, [_errorResultIndices]): there are as
    many indices as the signature has fields of the type [error], and the
    first index is the position of the first result of that type, whatever
    the signature. *)
Theorem errorResultIndices_first_index_right (sig : FuncType) :
  length (LogOrReturn._errorResultIndices sig)
  = length (List.filter ErrorResults.isErrorField (default [] (Results sig)))
  /\ head (LogOrReturn._errorResultIndices sig)
     = head (LogOrReturn.errorResultPositions sig).
Proof.
  unfold LogOrReturn._errorResultIndices, LogOrReturn.errorResultPositions.
  destruct (Results sig) as [fields|]; [|split; reflexivity].
  split; [apply indicesFrom_length | apply first_index].
Qed.

(** ** log_or_return_error_lint.go: where the diagnostics come from *)

Section OriginFacts.
Import lintutil LogLint LogOrReturn Origins.
Context (order : RangeOrder (option Pos)) (Hvalid : ValidOrder order).
Context (pass : Pass) (errorReturnIndices : list nat) (graph : CFG).

Local Arguments Inspect : simpl never.

(** Every place of a logging the map remembers is an identifier inside a
    call of the logger, and every diagnostic has an origin. *)
Let cited (m : gmap Object (option Pos)) : Prop :=
  forall o p, m !! o = Some (Some p) ->
    exists ident, InLoggerCall pass graph ident /\ p = NamePos ident.

Let explained (ds : list Diagnostic) : Prop :=
  forall d, d ∈ ds -> Origin pass errorReturnIndices graph d.

Lemma explained_snoc ds d :
  explained ds -> Origin pass errorReturnIndices graph d -> explained (ds ++ [d]).
Proof.
  intros Hds Hd d' [Hin|Hin]%elem_of_app; [auto|].
  apply list_elem_of_singleton in Hin as ->. exact Hd.
Qed.

Lemma logged_origin b node Fun Args d
    (st : gmap Object (option Pos) * list Diagnostic) :
  b ∈ Blocks graph -> node ∈ Nodes b -> CallExpr Fun Args ∈ subnodes node ->
  receiverIsLogger pass (ObjectFor pass (Some Fun)) = true ->
  d ∈ subnodes (CallExpr Fun Args) ->
  cited st.1 /\ explained st.2 ->
  cited (logged pass d st).2.1 /\ explained (logged pass d st).2.2.
Proof.
  intros Hb Hnode Hcall Hlogger Hd [Hm Hds].
  destruct d; try (split; assumption). simpl.
  assert (Hi : InLoggerCall pass graph i)
    by (exists b, node, Fun, Args; repeat split; assumption).
  destruct (ObjectOf pass i) as [o|] eqn:Ho; [|split; assumption].
  destruct (st.1 !! o) as [[alreadyLogged|]|] eqn:Hlook; simpl.
  - split; [assumption|]. apply explained_snoc; [exact Hds|].
    destruct (Hm o alreadyLogged Hlook) as (c & Hc & ->).
    exists i, c. split; [exact Hc|]. left. auto.
  - split; [|assumption]. intros o' p.
    destruct (decide (o = o')) as [<-|Hne].
    + rewrite lookup_insert_eq. intros [= <-]. eauto.
    + rewrite lookup_insert_ne by exact Hne. apply Hm.
  - split; assumption.
Qed.

Lemma returned_origin b node ret results idx value d
    (st : gmap Object (option Pos) * list Diagnostic) :
  b ∈ Blocks graph -> node ∈ Nodes b -> ReturnStmt ret results ∈ subnodes node ->
  idx ∈ errorReturnIndices -> results !! idx = Some value ->
  d ∈ subnodes value ->
  cited st.1 /\ explained st.2 ->
  cited (returned pass d st).2.1 /\ explained (returned pass d st).2.2.
Proof.
  intros Hb Hnode Hret Hidx Hvalue Hd [Hm Hds].
  destruct d; try (split; assumption). simpl.
  destruct (ObjectOf pass i) as [o|] eqn:Ho; [|split; assumption].
  destruct (st.1 !! o) as [[logPos|]|] eqn:Hlook; simpl; try (split; assumption).
  split; [assumption|]. apply explained_snoc; [exact Hds|].
  destruct (Hm o logPos Hlook) as (c & Hc & ->).
  exists i, c. split; [exact Hc|]. right. split; [reflexivity|].
  exists b, node, ret, results, idx, value. repeat split; assumption.
Qed.

(** An assignment forgets loggings and remembers no new one. *)
Lemma assigned_origin Lhs : forall m o p,
  fold_left (assigned pass) Lhs m !! o = Some (Some p) -> m !! o = Some (Some p).
Proof.
  induction Lhs as [|target rest IH]; intros m o p; [auto|].
  cbn [fold_left]. intros H. apply IH in H.
  destruct target; try exact H. simpl in H.
  destruct (ObjectOf pass i) as [o'|]; [|exact H].
  destruct (String.eqb _ _); [|exact H].
  destruct (decide (o' = o)) as [->|Hne].
  - rewrite lookup_insert_eq in H. discriminate.
  - rewrite lookup_insert_ne in H by exact Hne. exact H.
Qed.

Lemma visit_origin b node (st : gmap Object (option Pos) * list Diagnostic) :
  b ∈ Blocks graph -> node ∈ Nodes b ->
  cited st.1 /\ explained st.2 ->
  cited (Inspect (visit pass errorReturnIndices) node st).1
  /\ explained (Inspect (visit pass errorReturnIndices) node st).2.
Proof.
  intros Hb Hnode.
  apply (Inspect_invariant (visit pass errorReturnIndices)
           (fun st => cited st.1 /\ explained st.2)).
  intros d st' Hd [Hm Hds].
  destruct d as [| | | | | | | | | | | | |ret results|];
    try (split; assumption); simpl.
  - destruct (negb _) eqn:Hlogger; [split; assumption|]. cbn [snd].
    apply negb_false_iff in Hlogger.
    apply (Inspect_invariant (logged pass)
             (fun st => cited st.1 /\ explained st.2)); [|split; assumption].
    intros d' st'' Hd'. eapply logged_origin; eauto.
  - split; [|assumption]. intros o p Hp. apply assigned_origin in Hp. eauto.
  - assert (Hidxs : forall idxs st0, idxs ⊆ errorReturnIndices ->
      cited st0.1 /\ explained st0.2 ->
      cited (fold_left (fun st idx =>
               match results !! idx with
               | None => st
               | Some value => Inspect (returned pass) value st
               end) idxs st0).1
      /\ explained (fold_left (fun st idx =>
               match results !! idx with
               | None => st
               | Some value => Inspect (returned pass) value st
               end) idxs st0).2).
    { induction idxs as [|idx rest IH]; intros st0 Hsub Hst0; [exact Hst0|].
      cbn [fold_left]. apply IH; [set_solver|].
      destruct (results !! idx) as [value|] eqn:Hvalue; [|exact Hst0].
      apply (Inspect_invariant (returned pass)
               (fun st => cited st.1 /\ explained st.2)); [|exact Hst0].
      intros d' st'' Hd'. eapply returned_origin; eauto. set_solver. }
    apply Hidxs; [reflexivity | split; assumption].
Qed.

Lemma check_origin fuel block l st st' :
  _checkBlockForLogsAndReturns order pass errorReturnIndices graph fuel block l st
    = Some st' ->
  (forall l0 m, maps st !! l0 = Some m -> cited m) /\ explained (diagnostics st) ->
  (forall l0 m, maps st' !! l0 = Some m -> cited m) /\ explained (diagnostics st').
Proof.
  apply (check_invariant order pass errorReturnIndices graph
           (fun st => (forall l0 m, maps st !! l0 = Some m -> cited m)
                      /\ explained (diagnostics st))).
  - intros b l0 st0 Hb [Hmaps Hds]. unfold scanNodes.
    assert (Hscan : forall nodes ns, nodes ⊆ Nodes b ->
      cited ns.1 /\ explained ns.2 ->
      cited (fold_left (fun ns blockNode =>
                 Inspect (visit pass errorReturnIndices) blockNode ns) nodes ns).1
      /\ explained (fold_left (fun ns blockNode =>
                 Inspect (visit pass errorReturnIndices) blockNode ns) nodes ns).2).
    { induction nodes as [|node rest IH]; intros ns Hsub Hns; [exact Hns|].
      cbn [fold_left]. apply IH; [set_solver|].
      apply (visit_origin b); [exact Hb | set_solver | exact Hns]. }
    destruct (Hscan (Nodes b) (contents l0 st0, diagnostics st0)) as [H1 H2];
      [reflexivity | |].
    { split; [|exact Hds]. unfold contents.
      destruct (maps st0 !! l0) as [m|] eqn:E; simpl; [eauto|].
      intros o p Ho. rewrite lookup_empty in Ho. discriminate. }
    cbn [maps diagnostics]. split; [|exact H2].
    intros l1 m. destruct (decide (l0 = l1)) as [<-|Hne].
    + rewrite lookup_insert_eq. intros [= <-]. exact H1.
    + rewrite lookup_insert_ne by exact Hne. apply Hmaps.
  - intros block0 n l0 i succ st0 forChild st1 Hentry [Hmaps Hds].
    apply childEntry_Some in Hentry as (_ & _ & _ & -> & Hst1).
    split; [|exact Hds].
    destruct (Z.of_nat i <? Z.of_nat n - 1).
    + destruct Hst1 as [-> (copied & -> & Hcopied)]. intros l1 m.
      destruct (decide (fresh (dom (maps st0)) = l1)) as [<-|Hne].
      * rewrite lookup_insert_eq. intros [= <-]. rewrite (Hcopied Hvalid).
        unfold contents. destruct (maps st0 !! l0) as [m|] eqn:E; simpl; [eauto|].
        intros o p Ho. rewrite lookup_empty in Ho. discriminate.
      * rewrite lookup_insert_ne by exact Hne. apply Hmaps.
    + destruct Hst1 as [_ ->]. exact Hmaps.
Qed.

(** What the linter reports has an origin. *)
Lemma lint_origin fuel diags :
  _lintLogOrReturnErrors order pass errorReturnIndices graph fuel
    = Some (Finished diags) ->
  forall d, d ∈ diags -> Origin pass errorReturnIndices graph d.
Proof.
  unfold _lintLogOrReturnErrors. destruct (Blocks graph); [discriminate|].
  destruct (_checkBlockForLogsAndReturns _ _ _ _ _ _ _ _) as [st'|] eqn:Hcheck;
    [|discriminate].
  intros [= <-]. apply check_origin in Hcheck as [_ Hds]; [exact Hds|].
  split.
  - intros l0 m. cbn [maps]. intros [<- <-]%lookup_singleton_Some o p Ho.
    rewrite lookup_empty in Ho. discriminate.
  - intros d0 Hd0. inversion Hd0.
Qed.

Lemma InLoggerCall_callsLogger ident :
  InLoggerCall pass graph ident -> callsLogger pass graph = true.
Proof.
  intros (b & node & Fun & Args & Hb & Hnode & Hcall & Hlogger & _).
  unfold callsLogger.
  apply existsb_exists. exists b. split; [apply list_elem_of_In, Hb|].
  apply existsb_exists. exists node. split; [apply list_elem_of_In, Hnode|].
  apply existsb_exists. exists (CallExpr Fun Args).
  split; [apply list_elem_of_In, Hcall | exact Hlogger].
Qed.

End OriginFacts.



(** X9 (log_or_return_error_lint.go, [_lintLogOrReturnErrors]): on a graph
    that has a block and in which no node is a call of the logger, the
    linter comes to an end and reports nothing, whatever is assigned and
    returned. *)
Theorem log_silent_without_logger_call
    (order : RangeOrder (option Pos)) (pass : Pass)
    (errorReturnIndices : list nat) (graph : CFG) :
  ValidOrder order ->
  Origins.callsLogger pass graph = false ->
  Blocks graph <> [] ->
  LogOrReturn._lintLogOrReturnErrors order pass errorReturnIndices graph
    (LogOrReturn.enoughFuel graph)
  = Some (LogOrReturn.Finished []).
Proof.
  intros Hvalid Hnone Hblocks.
  destruct (lint_terminates order pass errorReturnIndices graph
              (LogOrReturn.enoughFuel graph) (le_n _)) as (outcome & Hrun & _).
  rewrite Hrun. f_equal. destruct outcome as [diags|].
  - destruct diags as [|d diags]; [reflexivity|]. exfalso.
    destruct (lint_origin order Hvalid pass errorReturnIndices graph _ _ Hrun d)
      as (ident & cited & Hcited & _); [left|].
    apply InLoggerCall_callsLogger in Hcited. congruence.
  - unfold LogOrReturn._lintLogOrReturnErrors in Hrun.
    destruct (Blocks graph); [congruence|].
    destruct (LogOrReturn._checkBlockForLogsAndReturns _ _ _ _ _ _ _ _);
      discriminate.
Qed.

Lemma log_silent_without_logger_call_witness :
  LogOrReturn._lintLogOrReturnErrors Examples.ascending Examples.logPass [0%nat]
    MoreExamples.plainReturn (LogOrReturn.enoughFuel MoreExamples.plainReturn)
  = Some (LogOrReturn.Finished []).
Proof.
  apply (log_silent_without_logger_call Examples.ascending Examples.logPass
           [0%nat] MoreExamples.plainReturn).
  - apply ascending_valid.
  - vm_compute. reflexivity.
  - discriminate.
Defined.

(** ** log_or_return_error_lint.go: one block *)

(** X10 (log_or_return_error_lint.go, [_checkBlockForLogsAndReturns]): an
    assignment makes the error new.  For [err := doX(); logger.Warn(err);
    err = doY(); return err] the linter reports nothing: the error returned
    is not the one that was logged. *)
Theorem log_assignment_forgets_the_logging
    (order : RangeOrder (option Pos)) (pass : Pass)
    (errAssigned errLogged errAgain errReturned logger Warn doX doY : Ident)
    (errorObj : Object) (returnPos : Pos) (others : list Block) (fuel : nat) :
  ObjectOf pass errAssigned = Some errorObj ->
  ObjectOf pass errLogged = Some errorObj ->
  ObjectOf pass errAgain = Some errorObj ->
  ObjectOf pass errReturned = Some errorObj ->
  TypeString pass errorObj = "error" ->
  LogLint.receiverIsLogger pass (ObjectOf pass Warn) = true ->
  LogLint.receiverIsLogger pass (ObjectOf pass doX) = false ->
  LogLint.receiverIsLogger pass (ObjectOf pass doY) = false ->
  ObjectOf pass logger <> Some errorObj ->
  ObjectOf pass Warn <> Some errorObj ->
  LogOrReturn._lintLogOrReturnErrors order pass [0%nat]
    {| Blocks := {| Live := true;
                    Nodes := [AssignStmt [IdentExpr errAssigned]
                                         [CallExpr (IdentExpr doX) []];
                              ExprStmt (CallExpr (SelectorExpr (IdentExpr logger) Warn)
                                                 [IdentExpr errLogged]);
                              AssignStmt [IdentExpr errAgain]
                                         [CallExpr (IdentExpr doY) []];
                              ReturnStmt returnPos [IdentExpr errReturned]];
                    Succs := [] |} :: others |}
    (S fuel)
  = Some (LogOrReturn.Finished []).
Proof.
  intros HA HL HB HR Herr HWarn HdoX HdoY Hlogger HWarnObj.
  assert (Hother : forall ident o,
    ObjectOf pass ident <> Some errorObj -> ObjectOf pass ident = Some o ->
    (<[errorObj := None]> ∅ : gmap Object (option Pos)) !! o = None).
  { intros ident o Hne Ho. rewrite lookup_insert_ne by congruence. apply lookup_empty. }
  unfold LogOrReturn._lintLogOrReturnErrors. cbn [Blocks].
  rewrite check_unfold. cbn [Blocks lookup list_lookup Live negb Succs Nodes length].
  unfold LogOrReturn.scanNodes. cbn [fold_left LogOrReturn.diagnostics].
  replace (LogOrReturn.contents _ _) with (∅ : gmap Object (option Pos))
    by (unfold LogOrReturn.contents; simpl; rewrite lookup_singleton_eq; reflexivity).
  rewrite (scan_assigned pass [0%nat] errAssigned doX errorObj) by assumption.
  rewrite (scan_logged pass [0%nat] logger Warn errLogged errorObj)
    by eauto using Hother.
  rewrite lookup_insert_eq.
  rewrite (scan_assigned pass [0%nat] errAgain doY errorObj) by assumption.
  rewrite (scan_returned pass returnPos errReturned errorObj) by assumption.
  rewrite lookup_insert_eq. reflexivity.
Qed.

Lemma log_assignment_forgets_the_logging_witness :
  LogOrReturn._lintLogOrReturnErrors Examples.ascending Examples.logPass [0%nat]
    MoreExamples.loggedThenAssigned 1
  = Some (LogOrReturn.Finished []).
Proof.
  apply (log_assignment_forgets_the_logging Examples.ascending Examples.logPass
           (mkIdent 10 "err") (mkIdent 42 "err") (mkIdent 50 "err")
           (mkIdent 77 "err") (mkIdent 30 "logger") (mkIdent 37 "Warn")
           (mkIdent 17 "doX") (mkIdent 56 "doX")
           1%positive 70 [] 0);
    solve [vm_compute; reflexivity | vm_compute; discriminate].
Defined.

(** X11 (log_or_return_error_lint.go, [_checkBlockForLogsAndReturns]): for
    [err := doX(); logger.Warn(err); logger.Warn(err); return nil] the
    linter reports exactly one diagnostic: it says that the error is logged
    twice, sits at the [err] of the second call and cites the [err] of the
    first. *)
Theorem log_logged_twice_in_a_row
    (order : RangeOrder (option Pos)) (pass : Pass)
    (errAssigned errLogged errLoggedAgain logger Warn loggerAgain WarnAgain doX
       : Ident)
    (errorObj : Object) (returnPos : Pos) (result : Node)
    (others : list Block) (fuel : nat) :
  ObjectOf pass errAssigned = Some errorObj ->
  ObjectOf pass errLogged = Some errorObj ->
  ObjectOf pass errLoggedAgain = Some errorObj ->
  TypeString pass errorObj = "error" ->
  LogLint.receiverIsLogger pass (ObjectOf pass Warn) = true ->
  LogLint.receiverIsLogger pass (ObjectOf pass WarnAgain) = true ->
  LogLint.receiverIsLogger pass (ObjectOf pass doX) = false ->
  ObjectOf pass logger <> Some errorObj ->
  ObjectOf pass Warn <> Some errorObj ->
  ObjectOf pass loggerAgain <> Some errorObj ->
  ObjectOf pass WarnAgain <> Some errorObj ->
  (forall ident, IdentExpr ident ∈ subnodes result ->
     ObjectOf pass ident <> Some errorObj) ->
  LogOrReturn._lintLogOrReturnErrors order pass [0%nat]
    {| Blocks := {| Live := true;
                    Nodes := [AssignStmt [IdentExpr errAssigned]
                                         [CallExpr (IdentExpr doX) []];
                              ExprStmt (CallExpr (SelectorExpr (IdentExpr logger) Warn)
                                                 [IdentExpr errLogged]);
                              ExprStmt (CallExpr
                                          (SelectorExpr (IdentExpr loggerAgain) WarnAgain)
                                          [IdentExpr errLoggedAgain]);
                              ReturnStmt returnPos [result]];
                    Succs := [] |} :: others |}
    (S fuel)
  = Some (LogOrReturn.Finished
            [LogOrReturn.loggedTwice pass errLoggedAgain (NamePos errLogged)]).
Proof.
  intros HA HL HL2 Herr HWarn HWarn2 HdoX Hlogger HWarnObj Hlogger2 HWarnObj2 Hresult.
  assert (Hother : forall v ident o,
    ObjectOf pass ident <> Some errorObj -> ObjectOf pass ident = Some o ->
    (<[errorObj := v]> ∅ : gmap Object (option Pos)) !! o = None).
  { intros v ident o Hne Ho. rewrite lookup_insert_ne by congruence. apply lookup_empty. }
  unfold LogOrReturn._lintLogOrReturnErrors. cbn [Blocks].
  rewrite check_unfold. cbn [Blocks lookup list_lookup Live negb Succs Nodes length].
  unfold LogOrReturn.scanNodes. cbn [fold_left LogOrReturn.diagnostics].
  replace (LogOrReturn.contents _ _) with (∅ : gmap Object (option Pos))
    by (unfold LogOrReturn.contents; simpl; rewrite lookup_singleton_eq; reflexivity).
  rewrite (scan_assigned pass [0%nat] errAssigned doX errorObj) by assumption.
  rewrite (scan_logged pass [0%nat] logger Warn errLogged errorObj)
    by eauto using Hother.
  rewrite lookup_insert_eq, insert_insert_eq.
  rewrite (scan_logged pass [0%nat] loggerAgain WarnAgain errLoggedAgain errorObj)
    by eauto using Hother.
  rewrite lookup_insert_eq.
  set (m := <[errorObj := Some (NamePos errLogged)]> ∅).
  set (ds := [] ++ [LogOrReturn.loggedTwice pass errLoggedAgain (NamePos errLogged)]).
  assert (Hret : Inspect (LogOrReturn.visit pass [0%nat])
                   (ReturnStmt returnPos [result]) (m, ds) = (m, ds)).
  { rewrite Inspect_unfold. cbn [LogOrReturn.visit fst snd fold_left lookup list_lookup].
    apply (Inspect_invariant (LogOrReturn.returned pass) (fun st => st = (m, ds)));
      [|reflexivity].
    intros d st Hd ->. destruct d; try reflexivity. simpl.
    destruct (ObjectOf pass i) as [o|] eqn:Ho; [|reflexivity].
    assert (Hne : o <> errorObj).
    { intros ->. exact (Hresult i Hd Ho). }
    unfold m. rewrite lookup_insert_ne by congruence. rewrite lookup_empty.
    reflexivity. }
  rewrite Hret. reflexivity.
Qed.

Lemma log_logged_twice_in_a_row_witness :
  LogOrReturn._lintLogOrReturnErrors Examples.ascending Examples.logPass [0%nat]
    MoreExamples.loggedTwiceInARow 1
  = Some (LogOrReturn.Finished
            [LogOrReturn.loggedTwice Examples.logPass (mkIdent 62 "err") 42]).
Proof.
  apply (log_logged_twice_in_a_row Examples.ascending Examples.logPass
           (mkIdent 10 "err") (mkIdent 42 "err") (mkIdent 62 "err")
           (mkIdent 30 "logger") (mkIdent 37 "Warn")
           (mkIdent 50 "logger") (mkIdent 57 "Warn") (mkIdent 17 "doX")
           1%positive 70 (Examples.var 77 "nil") [] 0);
    try solve [vm_compute; reflexivity | vm_compute; discriminate].
  intros ident Hident. apply list_elem_of_singleton in Hident.
  injection Hident as ->. vm_compute. discriminate.
Defined.

(** ** always_close.go: what is reported *)

Section ClosingFacts.
Import lintutil AlwaysClose Closing.
Context (pass : Pass) (facts : gset Object).

Local Arguments ObjectFor : simpl never.
Local Arguments escaping : simpl never.
Local Arguments _isCallToCloser : simpl never.
Local Arguments deleteObj : simpl never.

(** What a node of the second walk does to an entry of the map. *)
Lemma release_lookup n closables closables' obj :
  release pass facts n closables = Some closables' ->
  closables' !! obj
  = if parted pass facts obj n then None else closables !! obj.
Proof.
  intros Hn. unfold parted.
  destruct n; simpl in Hn |- *; try (injection Hn as <-; reflexivity).
  - rewrite orb_false_r.
    destruct (_isCallToCloser pass facts n) as [[]|] eqn:Hcloser; [| |discriminate].
    + injection Hn as <-. rewrite deletes_lookup.
      rewrite (bool_decide_eq_true_2 (Some true = Some true)) by reflexivity.
      cbn [andb].
      destruct n; cbn [orb]; try reflexivity.
      rewrite Hcloser.
      rewrite (bool_decide_eq_false_2 (Some true = Some false)) by discriminate.
      reflexivity.
    + rewrite (bool_decide_eq_false_2 (Some false = Some true)) by discriminate.
      cbn [andb]. rewrite orb_false_r.
      destruct n; try (injection Hn as <-; reflexivity).
      rewrite Hcloser.
      rewrite (bool_decide_eq_true_2 (Some false = Some false)) by reflexivity.
      cbn [andb].
      destruct (String.eqb _ _); injection Hn as <-; [|reflexivity].
      cbn [andb]. apply deleteObj_lookup.
  - injection Hn as <-. apply deletes_lookup.
  - injection Hn as <-. apply deletes_lookup.
  - injection Hn as <-. rewrite returned_as_escaping. apply deletes_lookup.
Qed.

(** What the second walk does to an entry of the map: it is gone when some
    node parts with the object and is where it was otherwise. *)
Lemma walk_lookup l obj : forall closables closables',
  fold_left (fun st d => st ≫= release pass facts d) l (Some closables)
    = Some closables' ->
  closables' !! obj
  = if existsb (parted pass facts obj) l then None else closables !! obj.
Proof.
  induction l as [|d l IH]; intros closables closables' Hrun.
  - injection Hrun as <-. reflexivity.
  - cbn [fold_left] in Hrun. simpl mbind in Hrun.
    destruct (release pass facts d closables) as [m1|] eqn:Hd;
      [|rewrite released_panic in Hrun; discriminate].
    rewrite (IH _ _ Hrun), (release_lookup _ _ _ obj Hd). cbn [existsb].
    destruct (parted pass facts obj d), (existsb _ l); reflexivity.
Qed.

(** The first walk meets every node of the function. *)
Lemma collect_walk root st :
  Inspect (collect pass) root st
  = fold_left (fun st d => (collect pass d st).2) (subnodes root) st.
Proof. apply (Inspect_always (collect pass)). reflexivity. Qed.

Lemma collect_panic l :
  fold_left (fun st d => (collect pass d st).2) l None = None.
Proof.
  induction l as [|d l IH]; [reflexivity|].
  cbn [fold_left]. destruct d; exact IH.
Qed.

(** The first walk only adds to the map. *)
Lemma acquire_keeps Rhs Lhs obj : forall i closables closables',
  acquire pass Rhs i Lhs closables = Some closables' ->
  is_Some (closables !! obj) -> is_Some (closables' !! obj).
Proof.
  induction Lhs as [|variable rest IH]; intros i closables closables' Hrun Hobj.
  - injection Hrun as <-. exact Hobj.
  - cbn [acquire] in Hrun.
    destruct variable as [ident| | | | | | | | | | | | | |];
      try (eapply IH; eauto; fail).
    destruct (ObjectFor pass (Some (IdentExpr ident))) as [o|];
      [|eapply IH; eauto].
    destruct (_isClosable pass (Some o)); [|eapply IH; eauto].
    destruct (_assignedFromNoOp Rhs i) as [[]|]; [eapply IH; eauto | | discriminate].
    eapply IH; [exact Hrun|].
    destruct (decide (o = obj)) as [->|Hne].
    + rewrite lookup_insert_eq. eauto.
    + rewrite lookup_insert_ne by exact Hne. exact Hobj.
Qed.

Lemma collect_keeps l obj : forall closables closables',
  fold_left (fun st d => (collect pass d st).2) l (Some closables)
    = Some closables' ->
  is_Some (closables !! obj) -> is_Some (closables' !! obj).
Proof.
  induction l as [|d l IH]; intros closables closables' Hrun Hobj.
  - injection Hrun as <-. exact Hobj.
  - cbn [fold_left] in Hrun.
    destruct d as [| | | | | | | | | | |Lhs Rhs| | |];
      cbn [collect snd] in Hrun; try (eapply IH; eauto; fail).
    simpl mbind in Hrun.
    destruct (acquire pass Rhs 0 Lhs closables) as [m1|] eqn:Hm1;
      [|rewrite collect_panic in Hrun; discriminate].
    eapply IH; [exact Hrun|]. eapply acquire_keeps; eauto.
Qed.

(** An assignment that acquires the object puts it into the map. *)
Lemma acquire_inserts Rhs Lhs obj ident : forall i j closables closables',
  acquire pass Rhs i Lhs closables = Some closables' ->
  Lhs !! j = Some (IdentExpr ident) ->
  ObjectOf pass ident = Some obj ->
  _isClosable pass (Some obj) = true ->
  _assignedFromNoOp Rhs (i + j) = Some false ->
  is_Some (closables' !! obj).
Proof.
  induction Lhs as [|variable rest IH];
    intros i j closables closables' Hrun Hj Hident Hclosable Hnoop; [discriminate|].
  destruct j as [|j].
  - injection Hj as ->. rewrite Nat.add_0_r in Hnoop. cbn [acquire] in Hrun.
    unfold ObjectFor in Hrun. rewrite Hident, Hclosable, Hnoop in Hrun.
    eapply acquire_keeps; [exact Hrun|]. rewrite lookup_insert_eq. eauto.
  - assert (Hrest : forall m, acquire pass Rhs (S i) rest m = Some closables' ->
              is_Some (closables' !! obj)).
    { intros m Hm. eapply (IH (S i) j); eauto.
      replace (S i + j)%nat with (i + S j)%nat by lia. exact Hnoop. }
    cbn [acquire] in Hrun. simpl in Hj.
    destruct variable as [ident'| | | | | | | | | | | | | |]; try (eapply Hrest; eauto; fail).
    destruct (ObjectFor pass (Some (IdentExpr ident'))) as [o|]; [|eapply Hrest; eauto].
    destruct (_isClosable pass (Some o)); [|eapply Hrest; eauto].
    destruct (_assignedFromNoOp Rhs i) as [[]|]; [| |discriminate]; eapply Hrest; eauto.
Qed.

(** Every closable acquired in the function is in the map the first walk
    leaves. *)
Lemma collect_complete root closables obj acq :
  Inspect (collect pass) root (Some ∅) = Some closables ->
  AcquiredAt pass root obj acq ->
  is_Some (closables !! obj).
Proof.
  rewrite collect_walk.
  intros Hrun (Lhs & Rhs & i & ident & Hassign & Hi & -> & Hident & Hclosable & Hnoop).
  apply list_elem_of_split in Hassign as (before & after & Heq).
  rewrite Heq, fold_left_app in Hrun. cbn [fold_left] in Hrun.
  destruct (fold_left _ before (Some ∅)) as [m0|];
    [|rewrite collect_panic in Hrun; discriminate].
  cbn [collect snd] in Hrun. simpl mbind in Hrun.
  destruct (acquire pass Rhs 0 Lhs m0) as [m1|] eqn:Hm1;
    [|rewrite collect_panic in Hrun; discriminate].
  eapply collect_keeps; [exact Hrun|].
  eapply (acquire_inserts Rhs Lhs obj ident 0%nat i); eauto.
Qed.

(** With one source or enough of them, the loop over the targets of an
    assignment does not panic. *)
Lemma acquire_total Rhs Lhs : forall i closables,
  (length Rhs = 1 \/ i + length Lhs <= length Rhs)%nat ->
  is_Some (acquire pass Rhs i Lhs closables).
Proof.
  induction Lhs as [|variable rest IH]; intros i closables Hlen; [eexists; reflexivity|].
  assert (Hrest : forall m, is_Some (acquire pass Rhs (S i) rest m)).
  { intros m. apply IH. cbn [length] in Hlen. lia. }
  cbn [acquire].
  destruct variable as [ident| | | | | | | | | | | | | |]; try apply Hrest.
  destruct (ObjectFor pass (Some (IdentExpr ident))) as [o|]; [|apply Hrest].
  destruct (_isClosable pass (Some o)); [|apply Hrest].
  assert (Hnoop : is_Some (_assignedFromNoOp Rhs i)).
  { unfold _assignedFromNoOp. destruct (length Rhs =? 1)%nat eqn:Hone.
    - apply Nat.eqb_eq in Hone. destruct Rhs as [|from Rhs']; [discriminate|].
      eexists. reflexivity.
    - apply Nat.eqb_neq in Hone. cbn [length] in Hlen.
      destruct (lookup_lt_is_Some_2 Rhs i ltac:(lia)) as [from ->].
      eexists. reflexivity. }
  destruct Hnoop as [[] ->]; apply Hrest.
Qed.

(** A function that assigns to no closable leaves the map empty. *)
Lemma acquire_nothing Rhs Lhs : forall i closables,
  existsb (fun variable =>
             match variable with
             | IdentExpr _ => _isClosable pass (ObjectFor pass (Some variable))
             | _ => false
             end) Lhs = false ->
  acquire pass Rhs i Lhs closables = Some closables.
Proof.
  induction Lhs as [|variable rest IH]; intros i closables Hnone; [reflexivity|].
  cbn [existsb] in Hnone. apply orb_false_elim in Hnone as [Hvar Hrest].
  cbn [acquire].
  destruct variable as [ident| | | | | | | | | | | | | |]; try (apply IH, Hrest).
  destruct (ObjectFor pass (Some (IdentExpr ident))) as [o|]; [|apply IH, Hrest].
  rewrite Hvar. apply IH, Hrest.
Qed.

(** What [_maybeMarkFunctionAsCloser] comes to. *)
Lemma _maybeMarkFunctionAsCloser_marked funcDecl :
  _maybeMarkFunctionAsCloser pass funcDecl facts
  = if marked funcDecl
    then match ObjectOf pass (FuncName funcDecl) with
         | Some obj => Some ({[obj]} ∪ facts)
         | None => None
         end
    else Some facts.
Proof.
  unfold _maybeMarkFunctionAsCloser, marked.
  destruct (Doc funcDecl) as [docs|]; [|reflexivity].
  unfold ObjectFor. destruct (ObjectOf pass (FuncName funcDecl)) as [obj|].
  - assert (Hloop : forall l (f : gset Object),
      fold_left (fun st doc =>
        facts0 ← st;
        if HasPrefix doc "//ka:closer" then Some ({[obj]} ∪ facts0)
        else Some facts0) l (Some f)
      = Some (if existsb (fun doc => HasPrefix doc "//ka:closer") l
              then {[obj]} ∪ f else f)).
    { induction l as [|doc l IH]; intros f; [reflexivity|].
      cbn [fold_left existsb]. simpl mbind.
      destruct (HasPrefix doc "//ka:closer"); cbn [orb]; rewrite IH; [|reflexivity].
      f_equal. destruct (existsb _ l); [|reflexivity]. set_solver. }
    rewrite Hloop. destruct (existsb _ docs); reflexivity.
  - assert (Hnone : forall l,
      fold_left (fun st doc =>
        facts0 ← st;
        if HasPrefix doc "//ka:closer" then @None (gset Object)
        else Some facts0) l None = None).
    { induction l as [|doc l IH]; [reflexivity | exact IH]. }
    induction docs as [|doc l IH]; [reflexivity|].
    cbn [fold_left existsb]. simpl mbind.
    destruct (HasPrefix doc "//ka:closer"); cbn [orb]; [apply Hnone | exact IH].
Qed.

End ClosingFacts.

(** X12 (always_close.go, [_scanFuncDecl]): what the scan reports, when it
    comes to an end, does not depend on the order of the statements.  An
    object is reported exactly when some assignment of the function acquires
    it and no node of the function, before or after, parts with it: closes
    it, hands it to a closer or lets it escape as the source of an
    assignment, an element of a composite literal or a result of a return.
    It is reported once, at an identifier that acquired it. *)
Theorem close_reported_iff_acquired_and_never_parted
    (order : RangeOrder Node) (pass : Pass) (facts : gset Object)
    (funcDecl : FuncDecl) (entries : list (Object * Node)) :
  ValidOrder order ->
  AlwaysClose.unclosed order pass facts funcDecl = Some entries ->
  NoDup entries.*1
  /\ (forall obj acq, (obj, acq) ∈ entries ->
        AlwaysClose.AcquiredAt pass (AlwaysClose.FuncDeclNode funcDecl) obj acq)
  /\ (forall obj,
        obj ∈ entries.*1
        <-> (exists acq,
               AlwaysClose.AcquiredAt pass (AlwaysClose.FuncDeclNode funcDecl) obj acq)
            /\ existsb (Closing.parted pass facts obj)
                 (subnodes (AlwaysClose.FuncDeclNode funcDecl)) = false).
Proof.
  intros Hvalid. unfold AlwaysClose.unclosed.
  destruct (Inspect (AlwaysClose.collect pass) _ (Some ∅)) as [closables|] eqn:Hcollect;
    [|discriminate].
  destruct (size closables =? 0)%nat eqn:Hsize.
  - intros [= <-]. apply Nat.eqb_eq, map_size_empty_iff in Hsize. subst closables.
    split; [constructor|]. split.
    + intros obj acq Hin. apply elem_of_nil in Hin. contradiction.
    + intros obj. split.
      * intros Hin. apply elem_of_nil in Hin. contradiction.
      * intros [[acq Hacq] _]. exfalso.
        destruct (collect_complete pass _ _ obj acq Hcollect Hacq) as [v Hv].
        rewrite lookup_empty in Hv. discriminate.
  - rewrite cancel_walk.
    destruct (fold_left _ _ _) as [final|] eqn:Hwalk; [|discriminate].
    intros [= <-].
    pose proof (fun obj => walk_lookup pass facts _ obj _ _ Hwalk) as Hfinal.
    split; [rewrite (Hvalid final); apply NoDup_fst_map_to_list|]. split.
    + intros obj acq Hin. rewrite (Hvalid final) in Hin.
      apply elem_of_map_to_list in Hin. rewrite Hfinal in Hin.
      destruct (existsb _ _); [discriminate|].
      eapply collect_acquired; eauto.
    + intros obj. split.
      * intros ([k acq] & -> & Hin)%list_elem_of_fmap. rewrite (Hvalid final) in Hin.
        apply elem_of_map_to_list in Hin. cbn [fst] in *. rewrite Hfinal in Hin.
        destruct (existsb _ _); [discriminate|].
        split; [|reflexivity]. exists acq. eapply collect_acquired; eauto.
      * intros [[acq Hacq] Hnever].
        destruct (collect_complete pass _ _ obj acq Hcollect Hacq) as [v Hv].
        apply list_elem_of_fmap. exists (obj, v). split; [reflexivity|].
        rewrite (Hvalid final). apply elem_of_map_to_list.
        rewrite Hfinal, Hnever. exact Hv.
Qed.

Lemma close_reported_iff_acquired_and_never_parted_witness :
  NoDup [(5%positive, Examples.var 30 "r")].*1
  /\ (forall obj acq, (obj, acq) ∈ [(5%positive, Examples.var 30 "r")] ->
        AlwaysClose.AcquiredAt Examples.closePass
          (AlwaysClose.FuncDeclNode Examples.keep) obj acq)
  /\ (forall obj,
        obj ∈ [(5%positive, Examples.var 30 "r")].*1
        <-> (exists acq,
               AlwaysClose.AcquiredAt Examples.closePass
                 (AlwaysClose.FuncDeclNode Examples.keep) obj acq)
            /\ existsb (Closing.parted Examples.closePass ∅ obj)
                 (subnodes (AlwaysClose.FuncDeclNode Examples.keep)) = false).
Proof.
  apply (close_reported_iff_acquired_and_never_parted
           Examples.ascending Examples.closePass ∅ Examples.keep).
  - apply ascending_valid.
  - vm_compute. reflexivity.
Defined.

(** X13 (always_close.go, [_scanFuncDecl]): a function in which no
    identifier on the left of an assignment is a closable object is done
    after the first walk: the scan reports nothing and does not panic,
    whatever the function calls. *)
Theorem close_nothing_to_close
    (order : RangeOrder Node) (pass : Pass) (facts : gset Object)
    (funcDecl : FuncDecl) :
  Closing.assignsClosable pass (AlwaysClose.FuncDeclNode funcDecl) = false ->
  AlwaysClose._scanFuncDecl order pass facts funcDecl = Some [].
Proof.
  intros Hnone. unfold AlwaysClose._scanFuncDecl, AlwaysClose.unclosed.
  assert (Hcollect : Inspect (AlwaysClose.collect pass)
                       (AlwaysClose.FuncDeclNode funcDecl) (Some ∅) = Some ∅).
  { apply (Inspect_invariant (AlwaysClose.collect pass) (fun st => st = Some ∅));
      [|reflexivity].
    intros d st Hd ->. destruct d; try reflexivity.
    cbn [AlwaysClose.collect snd]. simpl mbind.
    apply acquire_nothing.
    unfold Closing.assignsClosable in Hnone.
    destruct (existsb _ Lhs) eqn:E; [|reflexivity].
    assert (Hsome : existsb (fun n =>
              match n with
              | AssignStmt Lhs _ =>
                  existsb (fun variable =>
                             match variable with
                             | IdentExpr _ =>
                                 AlwaysClose._isClosable pass
                                   (lintutil.ObjectFor pass (Some variable))
                             | _ => false
                             end) Lhs
              | _ => false
              end) (subnodes (AlwaysClose.FuncDeclNode funcDecl)) = true).
    { apply existsb_exists. exists (AssignStmt Lhs Rhs).
      split; [apply list_elem_of_In, Hd | exact E]. }
    congruence. }
  rewrite Hcollect. reflexivity.
Qed.

Lemma close_nothing_to_close_witness :
  AlwaysClose._scanFuncDecl Examples.ascending Examples.closePass ∅
    MoreExamples.callsUnknown = Some [].
Proof.
  apply (close_nothing_to_close Examples.ascending Examples.closePass ∅
           MoreExamples.callsUnknown).
  vm_compute. reflexivity.
Defined.

(** X14 (always_close.go, [_scanFuncDecl]): the scan does not panic on a
    function whose assignments have one source or as many sources as targets
    at least, and in which the identifier of every function called has an
    object. *)
Theorem close_scan_does_not_panic
    (order : RangeOrder Node) (pass : Pass) (facts : gset Object)
    (funcDecl : FuncDecl) :
  Closing.assignsBalanced (AlwaysClose.FuncDeclNode funcDecl) = true ->
  AlwaysClose.callsResolved pass (AlwaysClose.FuncDeclNode funcDecl) = true ->
  exists diags, AlwaysClose._scanFuncDecl order pass facts funcDecl = Some diags.
Proof.
  intros Hbalanced Hresolved.
  unfold AlwaysClose._scanFuncDecl, AlwaysClose.unclosed.
  assert (Hcollect : is_Some (Inspect (AlwaysClose.collect pass)
                                (AlwaysClose.FuncDeclNode funcDecl) (Some ∅))).
  { apply (Inspect_invariant (AlwaysClose.collect pass) is_Some); [|eauto].
    intros d st Hd [m ->]. destruct d; try (eexists; reflexivity).
    cbn [AlwaysClose.collect snd]. simpl mbind.
    apply acquire_total.
    unfold Closing.assignsBalanced in Hbalanced.
    rewrite forallb_forall in Hbalanced.
    specialize (Hbalanced _ (proj1 (list_elem_of_In _ _) Hd)). cbn beta iota in Hbalanced.
    apply orb_prop in Hbalanced as [H1%Nat.eqb_eq|H2%Nat.leb_le]; [left | right];
      assumption. }
  destruct Hcollect as [closables ->].
  destruct (size closables =? 0)%nat; [eexists; reflexivity|].
  rewrite cancel_walk.
  destruct (walk_completes pass facts _ closables Hresolved) as [final ->].
  eexists. reflexivity.
Qed.

Lemma close_scan_does_not_panic_witness :
  exists diags,
    AlwaysClose._scanFuncDecl Examples.ascending Examples.closePass ∅ Examples.shut
    = Some diags.
Proof.
  apply (close_scan_does_not_panic Examples.ascending Examples.closePass ∅
           Examples.shut); vm_compute; reflexivity.
Defined.

(** X15 (always_close.go, [_scanForClosingFunctions]): the closers after
    the first pass over the files are the ones there were and the objects of
    the functions with a doc line that begins with [//ka:closer], wherever
    they are declared; the pass panics exactly when the name of such a
    function has no object. *)
Theorem close_closers_are_the_marked_functions
    (pass : Pass) (files : list File) (facts : gset Object) :
  (AlwaysClose._scanForClosingFunctions pass files facts = None
   <-> exists funcDecl,
         funcDecl ∈ AlwaysClose.funcDecls files
         /\ Closing.marked funcDecl = true
         /\ ObjectOf pass (FuncName funcDecl) = None)
  /\ forall closers,
       AlwaysClose._scanForClosingFunctions pass files facts = Some closers ->
       forall obj,
         obj ∈ closers
         <-> obj ∈ facts
             \/ exists funcDecl,
                  funcDecl ∈ AlwaysClose.funcDecls files
                  /\ Closing.marked funcDecl = true
                  /\ ObjectOf pass (FuncName funcDecl) = Some obj.
Proof.
  unfold AlwaysClose._scanForClosingFunctions.
  generalize (AlwaysClose.funcDecls files) as decls. intros decls. revert facts.
  assert (Hpanic : forall l,
    fold_left (fun st funcDecl =>
                 st ≫= AlwaysClose._maybeMarkFunctionAsCloser pass funcDecl) l None
    = None).
  { induction l as [|d l IH]; [reflexivity | exact IH]. }
  induction decls as [|d decls IH]; intros facts.
  - cbn [fold_left]. split.
    + split; [discriminate|]. intros (fd & Hin & _). apply elem_of_nil in Hin.
      contradiction.
    + intros closers [= <-] obj. split; [auto|].
      intros [H|(fd & Hin & _)]; [exact H|]. apply elem_of_nil in Hin. contradiction.
  - cbn [fold_left]. simpl mbind. rewrite _maybeMarkFunctionAsCloser_marked.
    destruct (Closing.marked d) eqn:Hmarked.
    + destruct (ObjectOf pass (FuncName d)) as [o|] eqn:Ho.
      * destruct (IH ({[o]} ∪ facts)) as [IHnone IHsome]. split.
        -- rewrite IHnone. split.
           ++ intros (fd & Hin & H). exists fd. split; [right; exact Hin | exact H].
           ++ intros (fd & [->|Hin]%elem_of_cons & Hm & Hobj); [congruence|].
              exists fd. auto.
        -- intros closers Hrun obj. rewrite (IHsome closers Hrun obj). split.
           ++ intros [[->%elem_of_singleton|H]%elem_of_union|(fd & Hin & H)].
              ** right. exists d. split; [left | auto].
              ** left. exact H.
              ** right. exists fd. split; [right; exact Hin | exact H].
           ++ intros [H|(fd & [->|Hin]%elem_of_cons & Hm & Hobj)].
              ** left. set_solver.
              ** left. rewrite Ho in Hobj. injection Hobj as ->. set_solver.
              ** right. exists fd. auto.
      * rewrite Hpanic. split.
        -- split; [|reflexivity]. intros _. exists d. split; [left | auto].
        -- discriminate.
    + destruct (IH facts) as [IHnone IHsome]. split.
      * rewrite IHnone. split.
        -- intros (fd & Hin & H). exists fd. split; [right; exact Hin | exact H].
        -- intros (fd & [->|Hin]%elem_of_cons & Hm & Hobj); [congruence|].
           exists fd. auto.
      * intros closers Hrun obj. rewrite (IHsome closers Hrun obj). split.
        -- intros [H|(fd & Hin & H)]; [left; exact H|].
           right. exists fd. split; [right; exact Hin | exact H].
        -- intros [H|(fd & [->|Hin]%elem_of_cons & Hm & Hobj)];
             [left; exact H | congruence |].
           right. exists fd. auto.
Qed.

(** X17 (log_or_return_error_lint.go, [_checkBlockForLogsAndReturns]): a
    logging is still known in the block that follows.  When the entry block
    assigns and logs an error and has exactly one successor, a block without
    successors that returns the error, the linter reports exactly one
    diagnostic: it says that the error is logged and returned, sits at the
    [err] of the return and cites the logging. *)
Theorem log_logging_follows_the_edge
    (order : RangeOrder (option Pos)) (pass : Pass)
    (errAssigned errLogged errReturned logger Warn doX : Ident)
    (errorObj : Object) (returnPos : Pos) (others : list Block) (fuel : nat) :
  ObjectOf pass errAssigned = Some errorObj ->
  ObjectOf pass errLogged = Some errorObj ->
  ObjectOf pass errReturned = Some errorObj ->
  TypeString pass errorObj = "error" ->
  LogLint.receiverIsLogger pass (ObjectOf pass Warn) = true ->
  LogLint.receiverIsLogger pass (ObjectOf pass doX) = false ->
  ObjectOf pass logger <> Some errorObj ->
  ObjectOf pass Warn <> Some errorObj ->
  LogOrReturn._lintLogOrReturnErrors order pass [0%nat]
    {| Blocks := {| Live := true;
                    Nodes := [AssignStmt [IdentExpr errAssigned]
                                         [CallExpr (IdentExpr doX) []];
                              ExprStmt (CallExpr (SelectorExpr (IdentExpr logger) Warn)
                                                 [IdentExpr errLogged])];
                    Succs := [1%nat] |}
                 :: {| Live := true;
                       Nodes := [ReturnStmt returnPos [IdentExpr errReturned]];
                       Succs := [] |}
                 :: others |}
    (S (S fuel))
  = Some (LogOrReturn.Finished
            [LogOrReturn.loggedAndReturned pass errReturned (NamePos errLogged)]).
Proof.
  intros HA HL HR Herr HWarn HdoX Hlogger HWarnObj.
  assert (Hother : forall ident o,
    ObjectOf pass ident <> Some errorObj -> ObjectOf pass ident = Some o ->
    (<[errorObj := None]> ∅ : gmap Object (option Pos)) !! o = None).
  { intros ident o Hne Ho. rewrite lookup_insert_ne by congruence. apply lookup_empty. }
  unfold LogOrReturn._lintLogOrReturnErrors. cbn [Blocks].
  rewrite check_unfold. cbn [Blocks lookup list_lookup Live negb Succs Nodes length].
  unfold LogOrReturn.scanNodes at 1. cbn [fold_left LogOrReturn.diagnostics].
  replace (LogOrReturn.contents _ _) with (∅ : gmap Object (option Pos))
    by (unfold LogOrReturn.contents; simpl; rewrite lookup_singleton_eq; reflexivity).
  rewrite (scan_assigned pass [0%nat] errAssigned doX errorObj) by assumption.
  rewrite (scan_logged pass [0%nat] logger Warn errLogged errorObj)
    by eauto using Hother.
  rewrite lookup_insert_eq, insert_insert_eq. cbn [fst snd].
  rewrite loop_cons.
  unfold LogOrReturn.childEntry, LogOrReturn.enterEdge.
  cbn [LogOrReturn.traversedPaths LogOrReturn.maps LogOrReturn.diagnostics].
  rewrite lookup_empty.
  change (Z.of_nat 0 <? Z.of_nat 1 - 1) with false. cbv beta iota zeta.
  rewrite check_unfold. cbn [Blocks lookup list_lookup Live negb Succs Nodes length].
  unfold LogOrReturn.scanNodes. cbn [fold_left LogOrReturn.diagnostics LogOrReturn.maps].
  unfold LogOrReturn.contents. cbn [LogOrReturn.maps].
  rewrite lookup_insert_eq. cbn [default from_option]. unfold id.
  rewrite (scan_returned pass returnPos errReturned errorObj) by assumption.
  rewrite lookup_insert_eq. reflexivity.
Qed.

Lemma log_logging_follows_the_edge_witness :
  LogOrReturn._lintLogOrReturnErrors Examples.ascending Examples.logPass [0%nat]
    MoreExamples.loggedThenReturnedLater 2
  = Some (LogOrReturn.Finished
            [LogOrReturn.loggedAndReturned Examples.logPass (mkIdent 57 "err") 42]).
Proof.
  apply (log_logging_follows_the_edge Examples.ascending Examples.logPass
           (mkIdent 10 "err") (mkIdent 42 "err") (mkIdent 57 "err")
           (mkIdent 30 "logger") (mkIdent 37 "Warn") (mkIdent 17 "doX")
           1%positive 50
           [ {| Live := false; Nodes := []; Succs := [] |};
             {| Live := false; Nodes := []; Succs := [1%nat] |} ] 0);
    solve [vm_compute; reflexivity | vm_compute; discriminate].
Defined.
